(** * MarkovJuniorWeb: the rewrite node ([src/nodes/rule.ts])

    A shallow embedding of [RuleNode] (its [load], [reset], [add] and [run]
    methods) together with the statements the specification makes about it.

    Conventions of the embedding.
    - JavaScript numbers that hold integers are [Z]; the 32-bit operators
      ([<<]) and the typed arrays ([Uint32Array]) have their wrap-around
      written out.
    - A method that can throw a [TypeError] or [RangeError] returns [option];
      [None] is the thrown exception.
    - Classes of the repository that [rule.ts] only imports ([Field],
      [Observation], [Search], [SymmetryHelper], the pseudo random number
      generator, ...) are the operations of the class [Collaborators].

    The front ends that drive the interpreter, [Program] and [Model] of
    [src/program.ts] and [Main], follow the node, with further properties
    of the node and of the front ends after those of the specification. *)

From Stdlib Require Import ZArith String Ascii Lia.
From stdpp Require Import base tactics option list strings gmap pretty.

Local Open Scope Z_scope.

(** ** JavaScript primitives used by the node *)

Module JS.

(** [ToInt32]: the value is reduced modulo 2^32 into [-2^31, 2^31). *)
Definition toInt32 (a : Z) : Z := (a + 2 ^ 31) mod 2 ^ 32 - 2 ^ 31.

(** [a << k] on numbers. *)
Definition shl (a k : Z) : Z := toInt32 (a * 2 ^ (k mod 32)).

(** [arr[i]] on an array or typed array: [undefined] out of range. *)
Definition get {A} (l : list A) (i : Z) : option A :=
  if decide (0 ≤ i) then l !! Z.to_nat i else None.

(** [arr[i] = v] on a [Uint32Array]: the value is stored modulo 2^32 and
    a store out of range is ignored. *)
Definition u32_set (l : list Z) (i v : Z) : list Z :=
  if decide (0 ≤ i) then <[Z.to_nat i := v mod 2 ^ 32]> l else l.

(** [arr[i] = v] on an ordinary array: a store past the end extends the
    array with holes. *)
Definition array_set {A} (l : list (option A)) (i : Z) (v : A)
  : list (option A) :=
  if decide (0 ≤ i) then
    if decide (Z.to_nat i < length l)%nat then <[Z.to_nat i := Some v]> l
    else l ++ replicate (Z.to_nat i - length l) None ++ [Some v]
  else l.

(** [typed.fill(0)]. *)
Definition fill0 (l : list Z) : list Z := replicate (length l) 0.

(** *** [parseInt] with no radix, on byte strings.  [None] is [NaN]. *)

Definition is_space (a : ascii) : bool :=
  let c := nat_of_ascii a in
  ((9 <=? c) && (c <=? 13) || (c =? 32))%nat.

Fixpoint trim_start (s : string) : string :=
  match s with
  | String a s' => if is_space a then trim_start s' else s
  | EmptyString => s
  end.

Definition digit_value (radix : Z) (a : ascii) : option Z :=
  let c := Z.of_nat (nat_of_ascii a) in
  let d :=
    if (48 <=? c) && (c <=? 57) then c - 48
    else if (97 <=? c) && (c <=? 122) then c - 87
    else if (65 <=? c) && (c <=? 90) then c - 55
    else radix in
  if d <? radix then Some d else None.

Fixpoint digits (radix : Z) (s : string) (acc : option Z) : option Z :=
  match s with
  | String a s' =>
      match digit_value radix a with
      | Some d => digits radix s' (Some (default 0 acc * radix + d))
      | None => acc
      end
  | EmptyString => acc
  end.

Definition strip_sign (s : string) : Z * string :=
  match s with
  | String "-" s' => (-1, s')
  | String "+" s' => (1, s')
  | _ => (1, s)
  end.

Definition strip_hex (s : string) : Z * string :=
  match s with
  | String "0" (String "x" s') => (16, s')
  | String "0" (String "X" s') => (16, s')
  | _ => (10, s)
  end.

Definition parseInt_string (s : string) : option Z :=
  let '(sign, s1) := strip_sign (trim_start s) in
  let '(radix, s2) := strip_hex s1 in
  (λ v, sign * v) <$> digits radix s2 None.

(** [elem.getAttribute] answers [null] for a missing attribute, and
    [parseInt(null)] parses the string ["null"]. *)
Definition parseInt (a : option string) : option Z :=
  parseInt_string (default "null"%string a).

(** [n || d] for a number [n]: [NaN] and [0] are falsy. *)
Definition or_num (n : option Z) (d : Z) : Z :=
  match n with
  | Some v => if decide (v = 0) then d else v
  | None => d
  end.

(** [s.charCodeAt(i)]; an [undefined] position is position 0 and a
    position outside the string gives [NaN]. *)
Definition charCodeAt (s : string) (i : option Z) : option Z :=
  let i := default 0 i in
  if decide (0 ≤ i) then
    (λ a, Z.of_nat (nat_of_ascii a)) <$> String.get (Z.to_nat i) s
  else None.

End JS.

(** ** The grid and the rules *)

Record Rule := {
  IMX : Z; IMY : Z; IMZ : Z;
  input : list Z;
  ishifts : list (list (Z * Z * Z));
  original : bool;
}.

Record Grid := {
  MX : Z; MY : Z; MZ : Z;
  C : Z;
  characters : string;
  values : list (Z * Z);
  state : list Z;
}.

Record Interpreter (PRNG : Type) := {
  first : list Z;
  changes : list (Z * Z * Z);
  rng : PRNG;
}.
Arguments first {PRNG} _.
Arguments changes {PRNG} _.
Arguments rng {PRNG} _.

(** The index of cell [(x,y,z)] in [grid.state]. *)
Definition cell_index (g : Grid) (x y z : Z) : Z :=
  x + y * MX g + z * MX g * MY g.

(** [grid.values.get(code)] *)
Definition values_get (g : Grid) (code : option Z) : option Z :=
  c ← code; (λ hit, hit.2.2) <$> list_find (λ kv : Z * Z, kv.1 = c) (values g).

(** [0, 1, ..., n-1] *)
Definition zrange (n : Z) : list Z := seqZ 0 n.

(** Modelled from the spec: one input cell of a rule, a bitmask of accepted
    values, accepts the value [v] when [w & (1 << v)] is not zero. *)
Definition accepts (w v : Z) : bool :=
  negb (Z.land w (Z.shiftl 1 v) =? 0).

(** The input cell at offset [(i,j,k)] of the rule accepts the value [v]. *)
Definition input_accepts (rule : Rule) (i j k v : Z) : bool :=
  match JS.get (input rule) (i + j * IMX rule + k * IMX rule * IMY rule) with
  | Some w => accepts w v
  | None => false
  end.

(** Modelled from the spec: [grid.matches(rule, x, y, z)] of [grid.ts], which
    is not among the sources.  It is true iff for every input cell [(i,j,k)]
    of the rule,
    [rule.input[i+j*IMX+k*IMX*IMY] & (1 << state[(x+i)+(y+j)*MX+(z+k)*MX*MY])]
    is nonzero.  The spec leaves cells outside the grid to the callers; here
    such a cell matches nothing. *)
Definition matches_at (g : Grid) (rule : Rule) (x y z : Z) : bool :=
  forallb (λ k, forallb (λ j, forallb (λ i,
    match JS.get (state g) (cell_index g (x + i) (y + j) (z + k)) with
    | Some v => input_accepts rule i j k v
    | None => false
    end) (zrange (IMX rule))) (zrange (IMY rule))) (zrange (IMZ rule)).

(** Modelled from the spec: [rule.ishifts[v]] lists, for the value [v], the
    offsets [(dx,dy,dz)] within the input pattern at which [v] appears;
    [rule.ts] of the repository builds the table once at load. *)
Definition offsets (rule : Rule) : list (Z * Z * Z) :=
  k ← zrange (IMZ rule); j ← zrange (IMY rule); i ← zrange (IMX rule);
  [(i, j, k)].

Definition make_ishifts (c : Z) (rule : Rule) : list (list (Z * Z * Z)) :=
  (λ v, filter (λ d, input_accepts rule d.1.1 d.1.2 d.2 v = true)
          (offsets rule)) <$> zrange c.

(** What the scans of [run] rely on: the table has one row per value, and
    row [v] lists exactly once each offset whose input cell accepts [v]. *)
Definition ishifts_ok (c : Z) (rule : Rule) : Prop :=
  length (ishifts rule) = Z.to_nat c ∧
  ∀ v sh, JS.get (ishifts rule) v = Some sh →
    NoDup sh ∧
    ∀ dx dy dz, (dx, dy, dz) ∈ sh ↔
      (0 ≤ dx < IMX rule ∧ 0 ≤ dy < IMY rule ∧ 0 ≤ dz < IMZ rule) ∧
      input_accepts rule dx dy dz v = true.

(** ** Loops

    [for (const a of l) body(a)] over a state [S], where the body may throw. *)
Fixpoint for_each {A S} (l : list A) (body : A → S → option S) (s : S)
  : option S :=
  match l with
  | [] => Some s
  | a :: l' => s' ← body a s; for_each l' body s'
  end.

(** [for (let i = start; i < stop; i += step)]: the values [i] takes.  With
    [step >= 1] the loop ends within [stop - start] rounds, which is the fuel
    given; the dimensions of a rule's input pattern, the only steps used, are
    positive. *)
Fixpoint stride_fuel (fuel : nat) (start stop step : Z) : list Z :=
  match fuel with
  | O => []
  | S fuel' =>
      if decide (start < stop)
      then start :: stride_fuel fuel' (start + step) stop step
      else []
  end.

Definition stride (start stop step : Z) : list Z :=
  stride_fuel (Z.to_nat (stop - start)) start stop step.

(** The elements of an array with their indices. *)
Definition indexed {A} (l : list A) : list (Z * A) :=
  imap (λ i a, (Z.of_nat i, a)) l.

(** ** Collaborators

    What [rule.ts] imports from the rest of the repository and from the DOM.
    None of it is among the sources, so the node is verified against any
    implementation of these operations. *)

Class Collaborators := {
  (** DOM elements, [Helper.childrenByTag] and [Helper.matchTags] *)
  Element : Type;
  getAttribute : Element → string → option string;
  childrenByTag : Element → string → list Element;
  matchTags : Element → string → list Element;
  (** [SymmetryHelper.getSymmetry]; [None] is the [null] of an unknown
      symmetry string *)
  Symmetry : Type;
  getSymmetry : bool → option string → Symmetry → option Symmetry;
  (** [Rule.load] ([None] is a rule that failed to load) and
      [rule.symmetries] *)
  Rule_load : Element → Grid → Grid → option Rule;
  symmetries : Rule → Symmetry → bool → list Rule;
  (** numbers that are not integers: [parseFloat], truthiness, [0], [0.5] *)
  JSFloat : Type;
  parseFloat : option string → JSFloat;
  float_truthy : JSFloat → bool;
  float_zero : JSFloat;
  float_half : JSFloat;
  (** [Field]: the constructor, two flags and [compute], which writes the
      row of potentials it is given and reports success *)
  Field : Type;
  Field_new : Element → Grid → Field;
  recompute : Field → bool;
  essential : Field → bool;
  Field_compute : Field → list Z → Grid → bool * list Z;
  (** [Observation]: the constructor and the two static functions; both
      write their first argument *)
  Observation : Type;
  Observation_new : option Z → option string → Grid → Observation;
  computeFutureSetPresent :
    list Z → list Z → list (option Observation) → bool * list Z;
  computeBackwardPotentials :
    list (list Z) → list Z → Z → Z → Z → list Rule → list (list Z);
  (** [Array2D.from(Uint8Array, rows)]; [None] is [null] *)
  Trajectory : Type;
  Array2D_from : option (list (list Z)) → option Trajectory;
  (** [Search.run], a generator function: [Search_run] builds the suspended
      coroutine, [Search_resume] runs it to its next [yield] (left) or to its
      [return] (right) *)
  SearchFrame : Type;
  Search_run : list Z → list Z → list Rule → Z → Z → Z → Z → bool →
               Z → JSFloat → Z → SearchFrame;
  Search_resume : SearchFrame → (Z * SearchFrame) + option (list (list Z));
  (** the generator of pseudo random numbers of the interpreter *)
  PRNG : Type;
  int32 : PRNG → Z * PRNG;
}.

(** Modelled from the spec: [BoolArray2D] of [helpers/datastructures.ts], the
    type of [matchMask], is a bit grid with one row per rule and one bit per
    cell of the grid.  [row(r)] is a view of row [r]: it is modelled by the
    number [r], and [get] and [set] go to the array the node holds. *)
Abbreviation BoolArray2D := (list (list bool)) (only parsing).
Abbreviation BoolArray2DRow := Z (only parsing).

Definition mask_get (m : BoolArray2D) (r : BoolArray2DRow) (i : Z) : bool :=
  default false (row ← JS.get m r; JS.get row i).

Definition mask_set (m : BoolArray2D) (r : BoolArray2DRow) (i : Z)
  : BoolArray2D :=
  if decide (0 ≤ r ∧ 0 ≤ i)
  then alter (λ row, <[Z.to_nat i := true]> row) (Z.to_nat r) m
  else m.

(** ** The generator object that [Search.run] returns *)

Section Generator.
Context `{Collaborators}.

Inductive Generator :=
| Suspended (fr : SearchFrame)
| Completed.

(** What [next()] answers: [{done: false, value: v}] or
    [{done: true, value: v}], where a missing trajectory ([null] or
    [undefined]) is [None]. *)
Inductive IterResult :=
| Yield (v : Z)
| Done (v : option (list (list Z))).

Definition next (gen : Generator) : IterResult * Generator :=
  match gen with
  | Suspended fr =>
      match Search_resume fr with
      | inl (v, fr') => (Yield v, Suspended fr')
      | inr t => (Done t, Completed)
      end
  | Completed => (Done None, Completed)
  end.

Definition is_done (r : IterResult) : bool :=
  match r with Done _ => true | Yield _ => false end.
End Generator.

(** ** The node *)

Inductive RunState := SUCCESS | FAIL | HALT.

Section RuleNode.
Context `{Collaborators}.

Record RuleNode := {
  rules : list Rule;
  counter : Z;
  steps : Z;
  matches : list Z;
  matchCount : Z;
  lastMatchedTurn : Z;
  matchMask : option BoolArray2D;
  potentials : option (list (list Z));
  fields : option (list (option Field));
  observations : option (list (option Observation));
  temperature : JSFloat;
  search : bool;
  futureComputed : bool;
  future : list Z;
  trajectory : option Trajectory;
  limit : Z;
  depthCoefficient : JSFloat;
  last : list Z;
  visited : Z;
  searching : option Generator;
  searchTries : Z;
  isAllNode : bool;
}.

(** Assignments to the fields, [this.f = v]. *)
Definition set_rules (v : list Rule) (n : RuleNode) : RuleNode :=
  {| rules := v; counter := counter n; steps := steps n; matches :=
  matches n; matchCount := matchCount n; lastMatchedTurn :=
  lastMatchedTurn n; matchMask := matchMask n; potentials := potentials
  n; fields := fields n; observations := observations n; temperature :=
  temperature n; search := search n; futureComputed := futureComputed n;
  future := future n; trajectory := trajectory n; limit := limit n;
  depthCoefficient := depthCoefficient n; last := last n; visited :=
  visited n; searching := searching n; searchTries := searchTries n;
  isAllNode := isAllNode n |}.
Definition set_counter (v : Z) (n : RuleNode) : RuleNode :=
  {| rules := rules n; counter := v; steps := steps n; matches :=
  matches n; matchCount := matchCount n; lastMatchedTurn :=
  lastMatchedTurn n; matchMask := matchMask n; potentials := potentials
  n; fields := fields n; observations := observations n; temperature :=
  temperature n; search := search n; futureComputed := futureComputed n;
  future := future n; trajectory := trajectory n; limit := limit n;
  depthCoefficient := depthCoefficient n; last := last n; visited :=
  visited n; searching := searching n; searchTries := searchTries n;
  isAllNode := isAllNode n |}.
Definition set_steps (v : Z) (n : RuleNode) : RuleNode :=
  {| rules := rules n; counter := counter n; steps := v; matches :=
  matches n; matchCount := matchCount n; lastMatchedTurn :=
  lastMatchedTurn n; matchMask := matchMask n; potentials := potentials
  n; fields := fields n; observations := observations n; temperature :=
  temperature n; search := search n; futureComputed := futureComputed n;
  future := future n; trajectory := trajectory n; limit := limit n;
  depthCoefficient := depthCoefficient n; last := last n; visited :=
  visited n; searching := searching n; searchTries := searchTries n;
  isAllNode := isAllNode n |}.
Definition set_matches (v : list Z) (n : RuleNode) : RuleNode :=
  {| rules := rules n; counter := counter n; steps := steps n; matches
  := v; matchCount := matchCount n; lastMatchedTurn := lastMatchedTurn
  n; matchMask := matchMask n; potentials := potentials n; fields :=
  fields n; observations := observations n; temperature := temperature
  n; search := search n; futureComputed := futureComputed n; future :=
  future n; trajectory := trajectory n; limit := limit n;
  depthCoefficient := depthCoefficient n; last := last n; visited :=
  visited n; searching := searching n; searchTries := searchTries n;
  isAllNode := isAllNode n |}.
Definition set_matchCount (v : Z) (n : RuleNode) : RuleNode :=
  {| rules := rules n; counter := counter n; steps := steps n; matches
  := matches n; matchCount := v; lastMatchedTurn := lastMatchedTurn n;
  matchMask := matchMask n; potentials := potentials n; fields := fields
  n; observations := observations n; temperature := temperature n;
  search := search n; futureComputed := futureComputed n; future :=
  future n; trajectory := trajectory n; limit := limit n;
  depthCoefficient := depthCoefficient n; last := last n; visited :=
  visited n; searching := searching n; searchTries := searchTries n;
  isAllNode := isAllNode n |}.
Definition set_lastMatchedTurn (v : Z) (n : RuleNode) : RuleNode :=
  {| rules := rules n; counter := counter n; steps := steps n; matches
  := matches n; matchCount := matchCount n; lastMatchedTurn := v;
  matchMask := matchMask n; potentials := potentials n; fields := fields
  n; observations := observations n; temperature := temperature n;
  search := search n; futureComputed := futureComputed n; future :=
  future n; trajectory := trajectory n; limit := limit n;
  depthCoefficient := depthCoefficient n; last := last n; visited :=
  visited n; searching := searching n; searchTries := searchTries n;
  isAllNode := isAllNode n |}.
Definition set_matchMask (v : option BoolArray2D) (n : RuleNode) : RuleNode :=
  {| rules := rules n; counter := counter n; steps := steps n; matches
  := matches n; matchCount := matchCount n; lastMatchedTurn :=
  lastMatchedTurn n; matchMask := v; potentials := potentials n; fields
  := fields n; observations := observations n; temperature :=
  temperature n; search := search n; futureComputed := futureComputed n;
  future := future n; trajectory := trajectory n; limit := limit n;
  depthCoefficient := depthCoefficient n; last := last n; visited :=
  visited n; searching := searching n; searchTries := searchTries n;
  isAllNode := isAllNode n |}.
Definition set_potentials (v : option (list (list Z))) (n : RuleNode) : RuleNode :=
  {| rules := rules n; counter := counter n; steps := steps n; matches
  := matches n; matchCount := matchCount n; lastMatchedTurn :=
  lastMatchedTurn n; matchMask := matchMask n; potentials := v; fields
  := fields n; observations := observations n; temperature :=
  temperature n; search := search n; futureComputed := futureComputed n;
  future := future n; trajectory := trajectory n; limit := limit n;
  depthCoefficient := depthCoefficient n; last := last n; visited :=
  visited n; searching := searching n; searchTries := searchTries n;
  isAllNode := isAllNode n |}.
Definition set_fields (v : option (list (option Field))) (n : RuleNode) : RuleNode :=
  {| rules := rules n; counter := counter n; steps := steps n; matches
  := matches n; matchCount := matchCount n; lastMatchedTurn :=
  lastMatchedTurn n; matchMask := matchMask n; potentials := potentials
  n; fields := v; observations := observations n; temperature :=
  temperature n; search := search n; futureComputed := futureComputed n;
  future := future n; trajectory := trajectory n; limit := limit n;
  depthCoefficient := depthCoefficient n; last := last n; visited :=
  visited n; searching := searching n; searchTries := searchTries n;
  isAllNode := isAllNode n |}.
Definition set_observations (v : option (list (option Observation))) (n : RuleNode) : RuleNode :=
  {| rules := rules n; counter := counter n; steps := steps n; matches
  := matches n; matchCount := matchCount n; lastMatchedTurn :=
  lastMatchedTurn n; matchMask := matchMask n; potentials := potentials
  n; fields := fields n; observations := v; temperature := temperature
  n; search := search n; futureComputed := futureComputed n; future :=
  future n; trajectory := trajectory n; limit := limit n;
  depthCoefficient := depthCoefficient n; last := last n; visited :=
  visited n; searching := searching n; searchTries := searchTries n;
  isAllNode := isAllNode n |}.
Definition set_temperature (v : JSFloat) (n : RuleNode) : RuleNode :=
  {| rules := rules n; counter := counter n; steps := steps n; matches
  := matches n; matchCount := matchCount n; lastMatchedTurn :=
  lastMatchedTurn n; matchMask := matchMask n; potentials := potentials
  n; fields := fields n; observations := observations n; temperature :=
  v; search := search n; futureComputed := futureComputed n; future :=
  future n; trajectory := trajectory n; limit := limit n;
  depthCoefficient := depthCoefficient n; last := last n; visited :=
  visited n; searching := searching n; searchTries := searchTries n;
  isAllNode := isAllNode n |}.
Definition set_search (v : bool) (n : RuleNode) : RuleNode :=
  {| rules := rules n; counter := counter n; steps := steps n; matches
  := matches n; matchCount := matchCount n; lastMatchedTurn :=
  lastMatchedTurn n; matchMask := matchMask n; potentials := potentials
  n; fields := fields n; observations := observations n; temperature :=
  temperature n; search := v; futureComputed := futureComputed n; future
  := future n; trajectory := trajectory n; limit := limit n;
  depthCoefficient := depthCoefficient n; last := last n; visited :=
  visited n; searching := searching n; searchTries := searchTries n;
  isAllNode := isAllNode n |}.
Definition set_futureComputed (v : bool) (n : RuleNode) : RuleNode :=
  {| rules := rules n; counter := counter n; steps := steps n; matches
  := matches n; matchCount := matchCount n; lastMatchedTurn :=
  lastMatchedTurn n; matchMask := matchMask n; potentials := potentials
  n; fields := fields n; observations := observations n; temperature :=
  temperature n; search := search n; futureComputed := v; future :=
  future n; trajectory := trajectory n; limit := limit n;
  depthCoefficient := depthCoefficient n; last := last n; visited :=
  visited n; searching := searching n; searchTries := searchTries n;
  isAllNode := isAllNode n |}.
Definition set_future (v : list Z) (n : RuleNode) : RuleNode :=
  {| rules := rules n; counter := counter n; steps := steps n; matches
  := matches n; matchCount := matchCount n; lastMatchedTurn :=
  lastMatchedTurn n; matchMask := matchMask n; potentials := potentials
  n; fields := fields n; observations := observations n; temperature :=
  temperature n; search := search n; futureComputed := futureComputed n;
  future := v; trajectory := trajectory n; limit := limit n;
  depthCoefficient := depthCoefficient n; last := last n; visited :=
  visited n; searching := searching n; searchTries := searchTries n;
  isAllNode := isAllNode n |}.
Definition set_trajectory (v : option Trajectory) (n : RuleNode) : RuleNode :=
  {| rules := rules n; counter := counter n; steps := steps n; matches
  := matches n; matchCount := matchCount n; lastMatchedTurn :=
  lastMatchedTurn n; matchMask := matchMask n; potentials := potentials
  n; fields := fields n; observations := observations n; temperature :=
  temperature n; search := search n; futureComputed := futureComputed n;
  future := future n; trajectory := v; limit := limit n;
  depthCoefficient := depthCoefficient n; last := last n; visited :=
  visited n; searching := searching n; searchTries := searchTries n;
  isAllNode := isAllNode n |}.
Definition set_limit (v : Z) (n : RuleNode) : RuleNode :=
  {| rules := rules n; counter := counter n; steps := steps n; matches
  := matches n; matchCount := matchCount n; lastMatchedTurn :=
  lastMatchedTurn n; matchMask := matchMask n; potentials := potentials
  n; fields := fields n; observations := observations n; temperature :=
  temperature n; search := search n; futureComputed := futureComputed n;
  future := future n; trajectory := trajectory n; limit := v;
  depthCoefficient := depthCoefficient n; last := last n; visited :=
  visited n; searching := searching n; searchTries := searchTries n;
  isAllNode := isAllNode n |}.
Definition set_depthCoefficient (v : JSFloat) (n : RuleNode) : RuleNode :=
  {| rules := rules n; counter := counter n; steps := steps n; matches
  := matches n; matchCount := matchCount n; lastMatchedTurn :=
  lastMatchedTurn n; matchMask := matchMask n; potentials := potentials
  n; fields := fields n; observations := observations n; temperature :=
  temperature n; search := search n; futureComputed := futureComputed n;
  future := future n; trajectory := trajectory n; limit := limit n;
  depthCoefficient := v; last := last n; visited := visited n; searching
  := searching n; searchTries := searchTries n; isAllNode := isAllNode n
  |}.
Definition set_last (v : list Z) (n : RuleNode) : RuleNode :=
  {| rules := rules n; counter := counter n; steps := steps n; matches
  := matches n; matchCount := matchCount n; lastMatchedTurn :=
  lastMatchedTurn n; matchMask := matchMask n; potentials := potentials
  n; fields := fields n; observations := observations n; temperature :=
  temperature n; search := search n; futureComputed := futureComputed n;
  future := future n; trajectory := trajectory n; limit := limit n;
  depthCoefficient := depthCoefficient n; last := v; visited := visited
  n; searching := searching n; searchTries := searchTries n; isAllNode
  := isAllNode n |}.
Definition set_visited (v : Z) (n : RuleNode) : RuleNode :=
  {| rules := rules n; counter := counter n; steps := steps n; matches
  := matches n; matchCount := matchCount n; lastMatchedTurn :=
  lastMatchedTurn n; matchMask := matchMask n; potentials := potentials
  n; fields := fields n; observations := observations n; temperature :=
  temperature n; search := search n; futureComputed := futureComputed n;
  future := future n; trajectory := trajectory n; limit := limit n;
  depthCoefficient := depthCoefficient n; last := last n; visited := v;
  searching := searching n; searchTries := searchTries n; isAllNode :=
  isAllNode n |}.
Definition set_searching (v : option Generator) (n : RuleNode) : RuleNode :=
  {| rules := rules n; counter := counter n; steps := steps n; matches
  := matches n; matchCount := matchCount n; lastMatchedTurn :=
  lastMatchedTurn n; matchMask := matchMask n; potentials := potentials
  n; fields := fields n; observations := observations n; temperature :=
  temperature n; search := search n; futureComputed := futureComputed n;
  future := future n; trajectory := trajectory n; limit := limit n;
  depthCoefficient := depthCoefficient n; last := last n; visited :=
  visited n; searching := v; searchTries := searchTries n; isAllNode :=
  isAllNode n |}.
Definition set_searchTries (v : Z) (n : RuleNode) : RuleNode :=
  {| rules := rules n; counter := counter n; steps := steps n; matches
  := matches n; matchCount := matchCount n; lastMatchedTurn :=
  lastMatchedTurn n; matchMask := matchMask n; potentials := potentials
  n; fields := fields n; observations := observations n; temperature :=
  temperature n; search := search n; futureComputed := futureComputed n;
  future := future n; trajectory := trajectory n; limit := limit n;
  depthCoefficient := depthCoefficient n; last := last n; visited :=
  visited n; searching := searching n; searchTries := v; isAllNode :=
  isAllNode n |}.

(** *** [reset] *)
Definition reset (n : RuleNode) : RuleNode :=
  set_last (JS.fill0 (last n))
    (set_futureComputed false (set_counter 0 (set_lastMatchedTurn (-1) n))).

(** *** [add]

    [maskr] is [undefined] ([None]) or a row view of [this.matchMask].
    [maskr.set] on [undefined] throws; so does the copy into a fresh
    buffer that is shorter than the old one. *)
Definition write_quad (buf : list Z) (offset r x y z : Z) : list Z :=
  JS.u32_set (JS.u32_set (JS.u32_set (JS.u32_set buf
    (offset + 0) r) (offset + 1) x) (offset + 2) y) (offset + 3) z.

Definition add (g : Grid) (r x y z : Z) (maskr : option BoolArray2DRow)
    (n : RuleNode) : option RuleNode :=
  row ← maskr;
  let n := set_matchMask
             ((λ m, mask_set m row (cell_index g x y z)) <$> matchMask n) n in
  let offset := JS.shl (matchCount n) 2 in
  if decide (offset + 4 < Z.of_nat (length (matches n))) then
    Some (set_matchCount (matchCount n + 1)
            (set_matches (write_quad (matches n) offset r x y z) n))
  else
    let old := matches n in
    let len := JS.shl (Z.of_nat (length old) + 4) 1 in
    if decide (len < Z.of_nat (length old)) then None
    else
      let fresh := old ++ replicate (Z.to_nat len - length old) 0 in
      Some (set_matchCount (matchCount n + 1)
              (set_matches (write_quad fresh offset r x y z) n)).

(** The three fields of the matcher, assigned together. *)
Definition with_matcher (m : option BoolArray2D) (buf : list Z) (c : Z)
    (n : RuleNode) : RuleNode :=
  set_matchCount c (set_matches buf (set_matchMask m n)).

(** [n'] is [n] but for the fields of the matcher. *)
Definition matcher_frame (n n' : RuleNode) : Prop :=
  ∃ m buf c, n' = with_matcher m buf c n.

(** *** The match list

    A match is a tuple [(r, x, y, z)]; the node keeps [matchCount] of them
    in [matches], four numbers each. *)
Definition Match : Type := Z * Z * Z * Z.

Definition quad_at (buf : list Z) (k : Z) : Match :=
  (default 0 (JS.get buf (4 * k)), default 0 (JS.get buf (4 * k + 1)),
   default 0 (JS.get buf (4 * k + 2)), default 0 (JS.get buf (4 * k + 3))).

Definition match_list (n : RuleNode) : list Match :=
  quad_at (matches n) <$> zrange (matchCount n).

(** [add] on a match, with the row view of its rule. *)
Definition add_match (g : Grid) (q : Match) (n : RuleNode)
  : option RuleNode :=
  let '(r, x, y, z) := q in add g r x y z (Some r) n.

(** *** [run]: refreshing the matches

    The test of both scans on a candidate anchor. *)
Definition outside (g : Grid) (rule : Rule) (sx sy sz : Z) : bool :=
  bool_decide (sx < 0 ∨ sy < 0 ∨ sz < 0 ∨
               sx + IMX rule > MX g ∨ sy + IMY rule > MY g ∨
               sz + IMZ rule > MZ g).

(** [rule.ishifts[value]] as the subject of [for ... of]: iterating
    [undefined] throws. *)
Definition shifts_of (rule : Rule) (value : option Z)
  : option (list (Z * Z * Z)) :=
  v ← value; JS.get (ishifts rule) v.

(** [maskr.get(si)] *)
Definition maskr_get (n : RuleNode) (maskr : BoolArray2DRow) (si : Z)
  : bool :=
  mask_get (default [] (matchMask n)) maskr si.

(** The incremental scan, lines 275-307. *)
Definition scan_change_shift (g : Grid) (r : Z) (rule : Rule)
    (maskr : BoolArray2DRow) (x y z : Z) (shift : Z * Z * Z)
    (n : RuleNode) : option RuleNode :=
  let '(shiftx, shifty, shiftz) := shift in
  let sx := x - shiftx in
  let sy := y - shifty in
  let sz := z - shiftz in
  if outside g rule sx sy sz then Some n
  else
    let si := cell_index g sx sy sz in
    if negb (maskr_get n maskr si) && matches_at g rule sx sy sz
    then add g r sx sy sz (Some maskr) n
    else Some n.

Definition scan_change_rule (g : Grid) (x y z : Z) (value : option Z)
    (rr : Z * Rule) (n : RuleNode) : option RuleNode :=
  let '(r, rule) := rr in
  maskr ← (λ _, r) <$> matchMask n;
  shifts ← shifts_of rule value;
  for_each shifts (scan_change_shift g r rule maskr x y z) n.

Definition scan_change (g : Grid) (change : Z * Z * Z) (n : RuleNode)
  : option RuleNode :=
  let '(x, y, z) := change in
  let value := JS.get (state g) (cell_index g x y z) in
  for_each (indexed (rules n)) (scan_change_rule g x y z value) n.

(** [changes[n]] for [n] from [ip.first[lastMatchedTurn]] on.  When the
    entry of [first] is [undefined] the loop test is false at once; a
    negative entry reads [changes[n]] as [undefined], and destructuring
    that throws. *)
Definition changes_since (ip : Interpreter PRNG) (turn : Z)
  : option (list (Z * Z * Z)) :=
  match JS.get (first ip) turn with
  | None => Some []
  | Some start =>
      if decide (start < 0) then None
      else Some (drop (Z.to_nat start) (changes ip))
  end.

Definition scan_changes (g : Grid) (ip : Interpreter PRNG) (n : RuleNode)
  : option RuleNode :=
  cs ← changes_since ip (lastMatchedTurn n);
  for_each cs (scan_change g) n.

(** The full scan, lines 309-337. *)
Definition scan_cell_shift (g : Grid) (r : Z) (rule : Rule)
    (maskr : option BoolArray2DRow) (x y z : Z) (shift : Z * Z * Z)
    (n : RuleNode) : option RuleNode :=
  let '(shiftx, shifty, shiftz) := shift in
  let sx := x - shiftx in
  let sy := y - shifty in
  let sz := z - shiftz in
  if outside g rule sx sy sz then Some n
  else if matches_at g rule sx sy sz then add g r sx sy sz maskr n
  else Some n.

Definition scan_cell (g : Grid) (r : Z) (rule : Rule)
    (maskr : option BoolArray2DRow) (z y x : Z) (n : RuleNode)
  : option RuleNode :=
  let offset := cell_index g x y z in
  let value := JS.get (state g) offset in
  shifts ← shifts_of rule value;
  for_each shifts (scan_cell_shift g r rule maskr x y z) n.

Definition scan_rule (g : Grid) (rr : Z * Rule) (n : RuleNode)
  : option RuleNode :=
  let '(r, rule) := rr in
  let maskr := (λ _, r) <$> matchMask n in
  for_each (stride (IMZ rule - 1) (MZ g) (IMZ rule)) (λ z,
    for_each (stride (IMY rule - 1) (MY g) (IMY rule)) (λ y,
      for_each (stride (IMX rule - 1) (MX g) (IMX rule)) (λ x,
        scan_cell g r rule maskr z y x))) n.

Definition scan_grid (g : Grid) (n : RuleNode) : option RuleNode :=
  let n := set_matchCount 0 n in
  for_each (indexed (rules n)) (scan_rule g) n.

(** Lines 274-338. *)
Definition refresh_matches (g : Grid) (ip : Interpreter PRNG)
    (n : RuleNode) : option RuleNode :=
  if decide (lastMatchedTurn n >= 0) then scan_changes g ip n
  else scan_grid g n.

(** *** [run]: observations, lines 199-272

    A stage of [run] either returns from [run] or falls through to the
    next stage. *)
Inductive Flow := Return (r : RunState) | Continue.

(** The [for] loop of lines 250-253 on the result of the [next()] before
    it. *)
Fixpoint drive (rounds : nat) (result : IterResult) (gen : Generator)
  : IterResult * Generator :=
  match rounds with
  | O => (result, gen)
  | S rounds' =>
      let '(result, gen) := next gen in
      if is_done result then (result, gen) else drive rounds' result gen
  end.

Definition advance (gen : Generator) : IterResult * Generator :=
  let '(result, gen) := next gen in
  drive 256 result gen.

(** Lines 221-247: the coroutine to resume, started when there is none. *)
Definition start_search (g : Grid) (ip : Interpreter PRNG)
    (obs : list (option Observation)) (n : RuleNode)
  : RuleNode * Interpreter PRNG * option Generator :=
  match searching n with
  | Some gen => (n, ip, Some gen)
  | None =>
      let '(present, fut) :=
        computeFutureSetPresent (future n) (state g) obs in
      let n := set_future fut n in
      if negb present then (n, ip, None)
      else
        let n := set_trajectory None n in
        let '(seed, rng') := int32 (rng ip) in
        let ip := {| first := first ip; changes := changes ip;
                     rng := rng' |} in
        let gen :=
          Suspended (Search_run (state g) (future n) (rules n)
                       (MX g) (MY g) (MZ g) (C g) (isAllNode n)
                       (limit n) (depthCoefficient n) seed) in
        (set_searching (Some gen) n, ip, Some gen)
  end.

(** Lines 199-272.  [computeBackwardPotentials] writes the buffer it is
    given; handed [undefined] for [potentials] it is taken to throw.  The
    values the coroutine yields are numbers, by the type of [Search.run], so
    the test [typeof result.value === "number"] is the test of [done]. *)
Definition observe (g : Grid) (ip : Interpreter PRNG) (n : RuleNode)
  : option (Flow * RuleNode * Interpreter PRNG) :=
  match observations n with
  | Some obs =>
      if futureComputed n then Some (Continue, n, ip)
      else if negb (search n) then
        let '(present, fut) :=
          computeFutureSetPresent (future n) (state g) obs in
        let n := set_future fut n in
        if negb present then Some (Return FAIL, n, ip)
        else
          let n := set_futureComputed true n in
          pots ← potentials n;
          let pots :=
            computeBackwardPotentials pots (future n)
              (MX g) (MY g) (MZ g) (rules n) in
          Some (Continue, set_potentials (Some pots) n, ip)
      else
        match start_search g ip obs n with
        | (n, ip, None) => Some (Return FAIL, n, ip)
        | (n, ip, Some gen) =>
            let '(result, gen) := advance gen in
            let n := set_searching (Some gen) n in
            match result with
            | Yield v => Some (Return HALT, set_visited v n, ip)
            | Done v =>
                let n := set_searching None n in
                let n := set_trajectory (Array2D_from v) n in
                match trajectory n with
                | None =>
                    Some (Return FAIL,
                          set_searchTries (searchTries n + 1) n, ip)
                | Some _ => Some (Continue, set_futureComputed true n, ip)
                end
            end
        end
  | None => Some (Continue, n, ip)
  end.

(** *** [run]: fields, lines 340-354

    The loop over [this.fields] from index [c] on.  Beside the state it
    keeps the calls it made to [field.compute], as pairs of the index of
    the field and the answer.  [this.potentials.row(c)] throws when
    [potentials] is [undefined]; [compute] writes the row. *)
Fixpoint compute_fields (g : Grid) (n : RuleNode)
    (fs : list (option Field)) (c : nat)
    (anysuccess anycomputation : bool) (calls : list (nat * bool))
  : option (Flow * RuleNode * list (nat * bool)) :=
  match fs with
  | [] =>
      if anycomputation && negb anysuccess
      then Some (Return FAIL, n, calls)
      else Some (Continue, n, calls)
  | Some field :: fs' =>
      if bool_decide (counter n = 0) || recompute field then
        pots ← potentials n;
        let '(success, row) :=
          Field_compute field (default [] (pots !! c)) g in
        let n := set_potentials (Some (<[c := row]> pots)) n in
        let calls := calls ++ [(c, success)] in
        if negb success && essential field
        then Some (Return FAIL, n, calls)
        else compute_fields g n fs' (S c) (anysuccess || success) true
               calls
      else compute_fields g n fs' (S c) anysuccess anycomputation calls
  | None :: fs' =>
      compute_fields g n fs' (S c) anysuccess anycomputation calls
  end.

Definition run_fields (g : Grid) (n : RuleNode)
  : option (Flow * RuleNode * list (nat * bool)) :=
  match fields n with
  | Some fs => compute_fields g n fs 0 false false []
  | None => Some (Continue, n, [])
  end.

(** *** [run]

    What a call leaves behind: the value returned, the node, the
    interpreter (its generator of random numbers may have advanced) and
    the calls made to [field.compute]. *)
Record Outcome := {
  returned : RunState;
  node : RuleNode;
  interpreter : Interpreter PRNG;
  computed : list (nat * bool);
}.

Definition step_limit_reached (n : RuleNode) : bool :=
  bool_decide (steps n > 0) && bool_decide (counter n >= steps n).

(** Lines 274-356: the matches are refreshed, then the fields computed. *)
Definition finish (g : Grid) (ip : Interpreter PRNG) (n : RuleNode)
  : option Outcome :=
  n ← refresh_matches g ip n;
  '(flow, n, calls) ← run_fields g n;
  match flow with
  | Return r => Some (Build_Outcome r n ip calls)
  | Continue => Some (Build_Outcome SUCCESS n ip calls)
  end.

(** Lines 196-356: [run] past the test of the step limit. *)
Definition run_unlimited (g : Grid) (ip : Interpreter PRNG) (n : RuleNode)
  : option Outcome :=
  '(flow, n, ip) ← observe g ip n;
  match flow with
  | Return r => Some (Build_Outcome r n ip [])
  | Continue => finish g ip n
  end.

Definition run (g : Grid) (ip : Interpreter PRNG) (n : RuleNode)
  : option Outcome :=
  let n := set_last (JS.fill0 (last n)) n in
  if step_limit_reached n then Some (Build_Outcome FAIL n ip [])
  else run_unlimited g ip n.

(** *** [load]

    The promise resolves to [true], [false] or [null]; the node keeps the
    fields assigned before an early return. *)
Inductive LoadResult := LoadTrue | LoadFalse | LoadNull.

Definition is2d (g : Grid) : bool := bool_decide (MZ g = 1).

Definition set_original (b : bool) (rule : Rule) : Rule :=
  {| IMX := IMX rule; IMY := IMY rule; IMZ := IMZ rule;
     input := input rule; ishifts := ishifts rule; original := b |}.

(** Lines 65-90. *)
Fixpoint load_rules (g : Grid) (symmetry : Symmetry)
    (ruleElements : list Element) (ruleList : list Rule)
  : LoadResult + list Rule :=
  match ruleElements with
  | [] => inr ruleList
  | e :: rest =>
      match Rule_load e g g with
      | None => inl LoadFalse
      | Some rule =>
          let rule := set_original true rule in
          match getSymmetry (is2d g) (getAttribute e "symmetry") symmetry
          with
          | None => inl LoadNull
          | Some ruleSymmetry =>
              load_rules g symmetry rest
                (ruleList ++ symmetries rule ruleSymmetry (is2d g))
          end
      end
  end.

(** [arr[i] = v] where the index comes from [grid.values.get]: with an
    [undefined] index the assignment makes a property and leaves the
    elements alone. *)
Definition array_set_at {A} (l : list (option A)) (i : option Z) (v : A)
  : list (option A) :=
  match i with
  | Some i => JS.array_set l i v
  | None => l
  end.

(** [new Array2D(Int32Array, cols, rows)]: [rows] rows of [cols] zeros. *)
Definition new_Array2D (cols : nat) (rows : Z) : list (list Z) :=
  replicate (Z.to_nat rows) (replicate cols 0).

(** Lines 103-106; [getAttribute("for").charCodeAt] throws on [null]. *)
Definition load_field (g : Grid) (efield : Element)
    (fs : list (option Field)) : option (list (option Field)) :=
  for_ ← getAttribute efield "for";
  Some (array_set_at fs (values_get g (JS.charCodeAt for_ (Some 0)))
          (Field_new efield g)).

(** [a || b] on char codes: [undefined], [NaN] and [0] are falsy. *)
Definition or_code (a b : option Z) : option Z :=
  match a with
  | Some v => if decide (v = 0) then b else a
  | None => b
  end.

(** Lines 120-130. *)
Definition load_observe (g : Grid) (eob : Element)
    (obs : list (option Observation)) : option (list (option Observation)) :=
  value_ ← getAttribute eob "value";
  let value := values_get g (JS.charCodeAt value_ (Some 0)) in
  let from :=
    or_code (s ← getAttribute eob "from"; JS.charCodeAt s (Some 0))
            (JS.charCodeAt (characters g) value) in
  Some (array_set_at obs value
          (Observation_new from (getAttribute eob "to") g)).

Definition or_float (a b : JSFloat) : JSFloat :=
  if float_truthy a then a else b.

Definition load (elem : Element) (parentSymmetry : Symmetry) (g : Grid)
    (n : RuleNode) : option (LoadResult * RuleNode) :=
  match getSymmetry (is2d g) (getAttribute elem "symmetry") parentSymmetry
  with
  | None => Some (LoadNull, n)
  | Some symmetry =>
      let erules := childrenByTag elem "rule" in
      let ruleElements :=
        if decide (0 < length erules)%nat then erules else [elem] in
      match load_rules g symmetry ruleElements [] with
      | inl early => Some (early, n)
      | inr ruleList =>
          let n := set_rules ruleList n in
          let n := set_last (replicate (length (rules n)) 0) n in
          let n :=
            set_steps (JS.or_num (JS.parseInt (getAttribute elem "steps")) 0)
              n in
          let n :=
            set_temperature
              (or_float (parseFloat (getAttribute elem "temperature"))
                 float_zero) n in
          let efields := matchTags elem "field" in
          n ← (if decide (0 < length efields)%nat then
                 fs ← for_each efields (load_field g)
                        (replicate (Z.to_nat (C g)) None);
                 Some (set_potentials
                         (Some (new_Array2D (length (state g)) (C g)))
                         (set_fields (Some fs) n))
               else Some n);
          let eobs := childrenByTag elem "observe" in
          n ← (if decide (0 < length eobs)%nat then
                 obs ← for_each eobs (load_observe g)
                         (replicate (Z.to_nat (C g)) None);
                 let n := set_observations (Some obs) n in
                 let n :=
                   set_search
                     (bool_decide (getAttribute elem "search" = Some "True"%string))
                     n in
                 let n :=
                   if search n then
                     set_depthCoefficient
                       (or_float
                          (parseFloat
                             (getAttribute elem "depthCoefficient"))
                          float_half)
                       (set_limit
                          (JS.or_num
                             (JS.parseInt (getAttribute elem "limit")) (-1))
                          n)
                   else
                     match potentials n with
                     | Some _ => n
                     | None =>
                         set_potentials
                           (Some (new_Array2D (length (state g)) (C g))) n
                     end in
                 Some (set_future (replicate (length (state g)) 0) n)
               else Some n);
          Some (LoadTrue, n)
      end
  end.

(** *** Vocabulary of the properties *)

(** The coroutine after [k] calls of [next()]. *)
Definition resumed (k : nat) (gen : Generator) : Generator :=
  Nat.iter k (λ gen, (next gen).2) gen.

(** The node with [searchTries] moved by [d]. *)
Definition shift_tries (d : Z) (n : RuleNode) : RuleNode :=
  set_searchTries (searchTries n + d) n.

Definition shift_outcome (d : Z) (out : Outcome) : Outcome :=
  Build_Outcome (returned out) (shift_tries d (node out))
    (interpreter out) (computed out).

(** The buffer holds the matches it counts and is far from the sizes at
    which the 32-bit shifts of [add] would wrap. *)
Definition buffer_ok (n : RuleNode) : Prop :=
  0 ≤ matchCount n ∧
  4 * matchCount n ≤ Z.of_nat (length (matches n)) ≤ 2 ^ 30 - 5.

Definition mr (q : Match) : Z := q.1.1.1.
Definition mx (q : Match) : Z := q.1.1.2.
Definition my (q : Match) : Z := q.1.2.
Definition mz (q : Match) : Z := q.2.

(** The box of the rule's input pattern anchored at [(sx,sy,sz)] lies
    within the grid. *)
Definition fits (g : Grid) (rule : Rule) (sx sy sz : Z) : Prop :=
  0 ≤ sx ∧ 0 ≤ sy ∧ 0 ≤ sz ∧
  sx + IMX rule ≤ MX g ∧ sy + IMY rule ≤ MY g ∧ sz + IMZ rule ≤ MZ g.

(** [(r,x,y,z)] is a match of the rule list on the grid: rule [r] fits at
    [(x,y,z)] and [grid.matches] holds there. *)
Definition is_match (g : Grid) (rs : list Rule) (q : Match) : Prop :=
  ∃ rule, JS.get rs (mr q) = Some rule ∧
          fits g rule (mx q) (my q) (mz q) ∧
          matches_at g rule (mx q) (my q) (mz q) = true.

(** A grid as [Grid.load] makes it: positive dimensions, a state of
    [MX*MY*MZ] cells, every value in [[0, C)]. *)
Record grid_ok (g : Grid) : Prop := {
  MX_pos : 0 < MX g;
  MY_pos : 0 < MY g;
  MZ_pos : 0 < MZ g;
  state_length : Z.of_nat (length (state g)) = MX g * MY g * MZ g;
  state_values : ∀ v, v ∈ state g → 0 ≤ v < C g;
}.

(** A rule as [Rule.load] makes it: a pattern of positive dimensions and
    the table of shifts the spec describes. *)
Definition rule_ok (g : Grid) (rule : Rule) : Prop :=
  1 ≤ IMX rule ∧ 1 ≤ IMY rule ∧ 1 ≤ IMZ rule ∧ ishifts_ok (C g) rule.

(** A mask with one row per rule and one bit per cell. *)
Definition mask_ok (g : Grid) (rs : list Rule) (m : BoolArray2D) : Prop :=
  length m = length rs ∧ Forall (λ row, length row = length (state g)) m.

(** The number of pairs of a rule and a cell, which bounds the matches. *)
Definition capacity (g : Grid) (rs : list Rule) : Z :=
  Z.of_nat (length rs) * (MX g * MY g * MZ g).

(** The link between the mask and the match list: a bit is set iff a
    listed match of that rule is anchored at that cell. *)
Definition mask_agrees (g : Grid) (n : RuleNode) : Prop :=
  ∃ m, matchMask n = Some m ∧
    ∀ r i, mask_get m r i = true ↔
      ∃ q, q ∈ match_list n ∧ mr q = r ∧
           cell_index g (mx q) (my q) (mz q) = i.

(** *** The candidates of the two scans

    The anchor a shift proposes for rule [r] from the cell [(x,y,z)]. *)
Definition anchor (r x y z : Z) (shift : Z * Z * Z) : Match :=
  (r, x - shift.1.1, y - shift.1.2, z - shift.2).

Definition cell_anchors (g : Grid) (r : Z) (rule : Rule) (x y z : Z)
  : list Match :=
  anchor r x y z <$>
    default [] (shifts_of rule (JS.get (state g) (cell_index g x y z))).

Definition inside (g : Grid) (rule : Rule) (q : Match) : Prop :=
  outside g rule (mx q) (my q) (mz q) = false.

Definition hit (g : Grid) (rule : Rule) (q : Match) : Prop :=
  inside g rule q ∧ matches_at g rule (mx q) (my q) (mz q) = true.

#[global] Instance inside_dec g rule q : Decision (inside g rule q).
Proof. unfold inside. apply _. Defined.

#[global] Instance hit_dec g rule q : Decision (hit g rule q).
Proof. unfold hit. apply _. Defined.

(** The matches the full scan adds, in its order. *)
Definition full_cands_rule (g : Grid) (rr : Z * Rule) : list Match :=
  z ← stride (IMZ rr.2 - 1) (MZ g) (IMZ rr.2);
  y ← stride (IMY rr.2 - 1) (MY g) (IMY rr.2);
  x ← stride (IMX rr.2 - 1) (MX g) (IMX rr.2);
  filter (hit g rr.2) (cell_anchors g rr.1 rr.2 x y z).

Definition full_cands (g : Grid) (rs : list Rule) : list Match :=
  indexed rs ≫= full_cands_rule g.

(** The anchors the incremental scan examines, in its order, and what it
    does with each. *)
Definition inc_cands (g : Grid) (rs : list Rule)
    (cs : list (Z * Z * Z)) : list (Rule * Match) :=
  c ← cs; rr ← indexed rs;
  (λ q, (rr.2, q)) <$>
    filter (inside g rr.2) (cell_anchors g rr.1 rr.2 c.1.1 c.1.2 c.2).

Definition try_add (g : Grid) (cand : Rule * Match) (n : RuleNode)
  : option RuleNode :=
  let '(rule, q) := cand in
  if negb (maskr_get n (mr q) (cell_index g (mx q) (my q) (mz q))) &&
     matches_at g rule (mx q) (my q) (mz q)
  then add_match g q n
  else Some n.

(** The mask after the bits of the matches [l] were set. *)
Definition mask_with (g : Grid) (m : BoolArray2D) (l : list Match)
  : BoolArray2D :=
  foldl (λ m q, mask_set m (mr q) (cell_index g (mx q) (my q) (mz q))) m l.

(** A match of a rule of the list, anchored at a cell of the grid. *)
Definition in_range (g : Grid) (rs : list Rule) (q : Match) : Prop :=
  0 ≤ mr q < Z.of_nat (length rs) ∧
  0 ≤ mx q < MX g ∧ 0 ≤ my q < MY g ∧ 0 ≤ mz q < MZ g.

(** The change log as the interpreter keeps it: [first] holds indices
    into [changes], and [changes] holds cells of the grid. *)
Definition log_ok (g : Grid) (ip : Interpreter PRNG) : Prop :=
  (∀ s, s ∈ first ip → 0 ≤ s) ∧
  ∀ c, c ∈ changes ip →
    0 ≤ c.1.1 < MX g ∧ 0 ≤ c.1.2 < MY g ∧ 0 ≤ c.2 < MZ g.

(** The matcher as the scans keep it: the buffer in order, the mask of the
    right shape and in agreement with the list, the list without
    duplicates and made of matches of rules of the node anchored at cells
    of the grid. *)
Definition matcher_ok (g : Grid) (n : RuleNode) : Prop :=
  buffer_ok n ∧
  (∃ m, matchMask n = Some m ∧ mask_ok g (rules n) m) ∧
  mask_agrees g n ∧
  NoDup (match_list n) ∧
  ∀ q, q ∈ match_list n → in_range g (rules n) q.

(** Two nodes with the same rules and the same matcher. *)
Definition same_matcher (a b : RuleNode) : Prop :=
  rules a = rules b ∧ matches a = matches b ∧
  matchCount a = matchCount b ∧ matchMask a = matchMask b ∧
  lastMatchedTurn a = lastMatchedTurn b.

#[global] Instance fits_dec g rule x y z : Decision (fits g rule x y z).
Proof. unfold fits. apply _. Defined.

#[global] Instance is_match_dec g rs q : Decision (is_match g rs q).
Proof.
  unfold is_match. destruct (JS.get rs (mr q)) as [rule|].
  - destruct (decide (fits g rule (mx q) (my q) (mz q) ∧
                      matches_at g rule (mx q) (my q) (mz q) = true))
      as [Hyes|Hno].
    + left. by exists rule.
    + right. intros (rule' & Heq & Hm). injection Heq as <-. by apply Hno.
  - right. by intros (rule & Heq & _).
Defined.

(** Two states of one grid: the same dimensions and alphabet. *)
Definition same_shape (g g' : Grid) : Prop :=
  MX g = MX g' ∧ MY g = MY g' ∧ MZ g = MZ g' ∧ C g = C g'.

(** Every cell in which the states of [g] and [g'] differ is among
    [cs]. *)
Definition edits_logged (g g' : Grid) (cs : list (Z * Z * Z)) : Prop :=
  ∀ x y z, 0 ≤ x < MX g → 0 ≤ y < MY g → 0 ≤ z < MZ g →
    JS.get (state g) (cell_index g x y z) ≠
    JS.get (state g') (cell_index g' x y z) →
    (x, y, z) ∈ cs.

End RuleNode.

(** ** A small instance of the collaborators, to run the node on *)

Module Toy.

(** An element with its children, which have none of their own. *)
Record elem := {
  tag : string;
  attrs : list (string * string);
  kids : list (string * list (string * string));
}.

Definition attr (e : elem) (name : string) : option string :=
  (λ hit, hit.2.2) <$>
    list_find (λ kv : string * string, kv.1 = name) (attrs e).

Definition by_tag (e : elem) (t : string) : list elem :=
  (λ k : string * list (string * string),
     {| tag := k.1; attrs := k.2; kids := [] |}) <$>
    filter (λ k : string * list (string * string), k.1 = t) (kids e).

Definition symmetry_of (s : option string) : option unit :=
  if decide (s = Some "?"%string) then None else Some tt.

(** Rules over the alphabet B (0), W (1), with the table of shifts of
    the spec: [B] and [BW]. *)
Definition with_ishifts (rule : Rule) : Rule :=
  {| IMX := IMX rule; IMY := IMY rule; IMZ := IMZ rule;
     input := input rule; ishifts := make_ishifts 2 rule;
     original := original rule |}.

Definition rule_B : Rule :=
  with_ishifts {| IMX := 1; IMY := 1; IMZ := 1; input := [1];
                  ishifts := []; original := true |}.

Definition rule_BW : Rule :=
  with_ishifts {| IMX := 2; IMY := 1; IMZ := 1; input := [1; 2];
                  ishifts := []; original := true |}.

(** A field is its flags [recompute], [essential] and the answer of
    [compute], which fills the row with ones. *)
Definition field : Type := bool * bool * bool.
Definition field_compute (f : field) (row : list Z) (g : Grid)
  : bool * list Z := (f.2, (λ _, 1) <$> row).

Definition future_present (fut st : list Z) (obs : list (option unit))
  : bool * list Z := (bool_decide (st ≠ []), st).

Definition backward (pots : list (list Z)) : list (list Z) :=
  (λ row : list Z, (λ _, 7) <$> row) <$> pots.

(** A search whose frame counts the resumptions; with a limit [l >= 0]
    it gives up and returns [null] at the [l]-th. *)
Definition resume (fr : Z * Z) : (Z * (Z * Z)) + option (list (list Z)) :=
  let '(k, l) := fr in
  if decide (0 ≤ l ∧ l ≤ k) then inr None else inl (k, (k + 1, l)).

#[export] Instance collaborators : Collaborators := {|
  Element := elem;
  getAttribute := attr;
  childrenByTag := by_tag;
  matchTags := by_tag;
  Symmetry := unit;
  getSymmetry := λ _ s _, symmetry_of s;
  Rule_load := λ _ _ _, Some rule_B;
  symmetries := λ rule _ _, [rule];
  JSFloat := Z;
  parseFloat := λ _, 0;
  float_truthy := λ x, bool_decide (x ≠ 0);
  float_zero := 0;
  float_half := 5;
  Field := field;
  Field_new := λ _ _, (true, true, true);
  recompute := λ f, f.1.1;
  essential := λ f, f.1.2;
  Field_compute := field_compute;
  Observation := unit;
  Observation_new := λ _ _ _, tt;
  computeFutureSetPresent := future_present;
  computeBackwardPotentials := λ pots _ _ _ _ _, backward pots;
  Trajectory := list (list Z);
  Array2D_from := λ rows, rows;
  SearchFrame := Z * Z;
  Search_run := λ _ _ _ _ _ _ _ _ limit _ _, (0, limit);
  Search_resume := resume;
  PRNG := Z;
  int32 := λ s, (s, s + 1);
|}.

(** A row of cells. *)
Definition grid (st : list Z) : Grid :=
  {| MX := Z.of_nat (length st); MY := 1; MZ := 1; C := 2;
     characters := "BW"; values := [(66, 0); (87, 1)]; state := st |}.

Definition ip0 : Interpreter PRNG :=
  {| first := [0]; changes := []; rng := 0 |}.

(** A node as [load] and [reset] leave it, for the rules [rs] on a grid
    of [cells] cells. *)
Definition blank (rs : list Rule) (cells : nat) : RuleNode :=
  {| rules := rs; counter := 0; steps := 0;
     matches := []; matchCount := 0; lastMatchedTurn := -1;
     matchMask := Some (replicate (length rs) (replicate cells false));
     potentials := None; fields := None; observations := None;
     temperature := 0; search := false; futureComputed := false;
     future := replicate cells 0; trajectory := None; limit := -1;
     depthCoefficient := 0; last := replicate (length rs) 0; visited := 0;
     searching := None; searchTries := 0; isAllNode := false |}.

(** The step limit: a node that has used its one step. *)
Definition spent : RuleNode := set_counter 1 (set_steps 1 (blank [rule_B] 1)).

(** Observations without search, with the potentials [load] allocates. *)
Definition observing : RuleNode :=
  set_potentials (Some [[0]; [0]])
    (set_observations (Some [Some tt; None]) (blank [rule_B] 1)).

Definition observing_spent : RuleNode :=
  set_counter 1 (set_steps 1 observing).

(** Search under way, by a coroutine that yields on every resumption. *)
Definition searching_on : RuleNode :=
  set_searching (Some (Suspended (0, -1)))
    (set_search true (set_observations (Some [Some tt; None])
                        (blank [rule_B] 1))).

(** Search about to start, by a coroutine that gives up at once. *)
Definition searching_in_vain : RuleNode :=
  set_limit 0
    (set_search true (set_observations (Some [Some tt; None])
                        (blank [rule_B] 1))).

(** An essential field whose computation fails, after one that
    succeeds. *)
Definition with_fields : RuleNode :=
  set_potentials (Some [[0]; [0]])
    (set_fields (Some [Some (false, false, true); Some (false, true, false)])
       (blank [rule_B] 1)).

(** Elements: a rewrite node with an [observe] child and a [search]
    attribute, and one with no attribute at all. *)
Definition observe_child : string * list (string * string) :=
  ("observe"%string, [("value", "B"); ("to", "W")]%string).

Definition one_search (value : string) : elem :=
  {| tag := "one"; attrs := [("search"%string, value)];
     kids := [observe_child] |}.

Definition one_plain : elem := {| tag := "one"; attrs := []; kids := [] |}.

Definition loaded (e : elem) : RuleNode :=
  match load e tt (grid [0]) (blank [] 1) with
  | Some (_, n) => n
  | None => blank [] 1
  end.

(** The row [B W W] becomes [B B W]: the match of [BW] at 0 is gone and
    one at 1 appears.  The node scanned the first row in full; the edit is
    in the change log of the turn 0. *)
Definition row_before : Grid := grid [0; 1; 1].
Definition row_after : Grid := grid [0; 0; 1].

Definition scanned : RuleNode :=
  default (blank [rule_BW] 3) (scan_grid row_before (blank [rule_BW] 3)).

Definition scanned_turn : RuleNode := set_lastMatchedTurn 0 scanned.

Definition ip_edit : Interpreter PRNG :=
  {| first := [0]; changes := [(1, 0, 0)]; rng := 0 |}.

End Toy.

(** ** Vocabulary of the further properties of the node *)

Section NodeVocabulary.
Context `{Collaborators}.

(** The variants of one rule element, as lines 66-81 of [load] make them;
    [None] when the element or its symmetry does not load. *)
Definition rule_variants (g : Grid) (symmetry : Symmetry) (e : Element)
  : option (list Rule) :=
  rule ← Rule_load e g g;
  ruleSymmetry ← getSymmetry (is2d g) (getAttribute e "symmetry") symmetry;
  Some (symmetries (set_original true rule) ruleSymmetry (is2d g)).

End NodeVocabulary.

(** * The front ends: [src/program.ts] and [Main]

    The same conventions.  What the front ends import from the rest of
    the repository, from the DOM and from the browser is the class
    [Host]. *)

(** ** More JavaScript primitives *)

Module JSLib.

(** [s.charAt(i)] on byte strings: the empty string outside [s]. *)
Definition charAt (s : string) (i : Z) : string :=
  if decide (0 ≤ i) then
    match String.get (Z.to_nat i) s with
    | Some a => String a EmptyString
    | None => EmptyString
    end
  else EmptyString.

(** [s.split(sep)] for a separator of one character. *)
Fixpoint split (sep : ascii) (s : string) : list string :=
  match s with
  | EmptyString => [EmptyString]
  | String a s' =>
      if decide (a = sep) then EmptyString :: split sep s'
      else
        match split sep s' with
        | piece :: rest => String a piece :: rest
        | [] => [String a EmptyString]
        end
  end.

(** [a % b] on integers: the sign is that of [a]; [None] is the [NaN] of
    [b = 0]. *)
Definition rem (a b : Z) : option Z :=
  if decide (b = 0) then None else Some (Z.rem a b).

(** A number as a condition: [NaN] and [0] are falsy. *)
Definition truthy (n : option Z) : bool :=
  match n with
  | Some v => bool_decide (v ≠ 0)
  | None => false
  end.

(** [String(k)], as in a template literal, for an integer below 10^21. *)
Definition toString (k : Z) : string := pretty k.

(** [String(v)] for a string or [null]. *)
Definition string_or_null (v : option string) : string :=
  default "null"%string v.

End JSLib.

(** ** Collaborators of the front ends *)

Class Host `{Collaborators} := {
  (** [String.prototype.toUpperCase] *)
  toUpperCase : string → string;
  (** [Helper.hex2rgba]; [None] is an exception *)
  Color : Type;
  hex2rgba : option string → option Color;
  (** [doc.querySelectorAll], [Loader.xml] ([None] is [null]) *)
  querySelectorAll : Element → string → list Element;
  Loader_xml : string → option Element;
  (** the nodes of the interpreter's tree, objects compared by identity *)
  Node : Type;
  Node_eq_dec :: EqDecision Node;
  Node_countable :: Countable Node;
  (** the [Interpreter]: [Interpreter.load] ([None] is [null]),
      [ip.current] with its [n] and [children], [ip.state()],
      [ip.onRender()] *)
  IP : Type;
  Interpreter_load : Element → Z → Z → Z → option IP;
  Interpreter_current : IP → option (Node * Z * list Node);
  Picture : Type;
  Picture_FZ : Picture → Z;
  Picture_chars : Picture → string;
  Interpreter_state : IP → Picture;
  Interpreter_onRender : IP → IP;
  (** [ip.run], a generator function that works on the interpreter:
      [Interpreter_run] builds the suspended coroutine, and
      [Interpreter_resume] runs it to its next [yield] of a picture (left)
      or to its [return] (right) *)
  RunFrame : Type;
  Interpreter_run : option Z → Z → RunFrame;
  Interpreter_resume : RunFrame → IP → (Picture * RunFrame + unit) * IP;
  (** [performance.now()]: readings of a clock, their differences, the
      test [d > 20] and the sum of [_timer += d] *)
  Clock : Type;
  Millis : Type;
  now : Clock → Millis * Clock;
  Millis_sub : Millis → Millis → Millis;
  Millis_add : Millis → Millis → Millis;
  over_20 : Millis → bool;
  (** [VoxHelper.serialize] *)
  VoxBuffer : Type;
  Vox_serialize : Picture → list (option Color) → VoxBuffer;
}.

(** ** [Program]: the palette and the list of models *)

Module Program.
Section Program.
Context `{Host}.

(** [[e.getAttribute("symbol").charAt(0),
      Helper.hex2rgba(e.getAttribute("value"))]]; [charAt] on [null]
    throws. *)
Definition color_entry (e : Element) : option (string * Color) :=
  symbol ← getAttribute e "symbol";
  let key := JSLib.charAt symbol 0 in
  color ← hex2rgba (getAttribute e "value");
  Some (key, color).

(** [new Map(entries)]: the entries are set in their order, so a later
    entry replaces an earlier one of the same key. *)
Definition new_Map {V} (entries : list (string * V)) : gmap string V :=
  foldl (λ m kv, <[kv.1 := kv.2]> m) ∅ entries.

(** [loadPalette], lines 51-60, on the parsed [palette.xml]: the value
    assigned to [Program.palette]. *)
Definition loadPalette (ep : Element) : option (gmap string Color) :=
  entries ← mapM color_entry (childrenByTag ep "color");
  Some (new_Map entries).

(** Lines 188-194 of the constructor of [Model]: a copy of the palette
    with the colours of the model set on top. *)
Definition customPalette (palette : gmap string Color) (emodel : Element)
  : option (gmap string Color) :=
  for_each (childrenByTag emodel "color")
    (λ ec custom,
       entry ← color_entry ec; Some (<[entry.1 := entry.2]> custom))
    palette.

(** [emodel.getAttribute("name")?.toUpperCase() || "MODEL"] *)
Definition model_name (emodel : Element) : string :=
  match getAttribute emodel "name" with
  | Some s =>
      let u := toUpperCase s in
      if decide (u = EmptyString) then "MODEL"%string else u
  | None => "MODEL"%string
  end.

(** The key [tryInsert] tries for a suffix: [name] for [null], and
    [`${name}_${suffix}`]. *)
Definition model_key (name : string) (suffix : option Z) : string :=
  match suffix with
  | None => name
  | Some k => name +:+ "_" +:+ JSLib.toString k
  end.

(** [suffix ? suffix + 1 : 1] *)
Definition next_suffix (suffix : option Z) : Z :=
  match suffix with
  | Some k => if decide (k = 0) then 1 else k + 1
  | None => 1
  end.

(** [tryInsert], lines 70-76.  It calls itself until a key is free; the
    fuel bounds the calls, and [None] is fuel that ran out. *)
Fixpoint tryInsert (fuel : nat) (name : string) (emodel : Element)
    (suffix : option Z) (models : gmap string Element)
  : option (gmap string Element) :=
  match fuel with
  | O => None
  | S fuel' =>
      let n := model_key name suffix in
      if decide (models !! n = None) then Some (<[n := emodel]> models)
      else tryInsert fuel' name emodel (Some (next_suffix suffix)) models
  end.

(** The suffixes [tryInsert] goes through from [null], and the keys it
    tries: [name], [name_1], [name_2], ... *)
Definition suffix_at (i : nat) : option Z :=
  match i with
  | O => None
  | S _ => Some (Z.of_nat i)
  end.

Definition key_at (name : string) (i : nat) : string :=
  model_key name (suffix_at i).

(** [listModels], lines 63-80, on the parsed [models.xml]: [Program.models]
    afterwards.  A map of [k] entries has a free key among [name],
    [name_1], ..., [name_k], so [k + 1] tries are given. *)
Definition listModels (doc : Element) : option (gmap string Element) :=
  for_each (childrenByTag doc "model")
    (λ emodel models,
       tryInsert (S (size models)) (model_name emodel) emodel None models)
    ∅.

End Program.
End Program.

(** ** The parameters of a model, as [Main] and [Model] read them *)

Module Main.
Section Main.
Context `{Host}.

(** Lines 34-41: [MX], [MY] and [MZ]. *)
Definition dims (emodel : Element) : Z * Z * Z :=
  let linearSize := JS.or_num (JS.parseInt (getAttribute emodel "size")) (-1) in
  let dimension := JS.or_num (JS.parseInt (getAttribute emodel "d")) 2 in
  let MX := JS.or_num (JS.parseInt (getAttribute emodel "length")) linearSize in
  let MY := JS.or_num (JS.parseInt (getAttribute emodel "width")) linearSize in
  let MZ :=
    JS.or_num (JS.parseInt (getAttribute emodel "height"))
      (if decide (dimension = 2) then 1 else linearSize) in
  (MX, MY, MZ).

(** Lines 27-30, on the query string: [qs.get] answers [null] for a
    missing parameter. *)
Definition modelStr (qs : string → option string) : string :=
  match qs "model" with
  | Some s => if decide (s = EmptyString) then "Growth"%string else s
  | None => "Growth"%string
  end.

Definition speed (qs : string → option string) : Z :=
  JS.or_num (JS.parseInt (qs "speed")) 1.

Definition delay (qs : string → option string) : Z :=
  JS.or_num (JS.parseInt (qs "delay")) 0.

Definition overwriteSteps (qs : string → option string) : Z :=
  JS.or_num (JS.parseInt (qs "steps")) 0.

(** Lines 66-67: [overwriteSteps || parseInt(...) || 50000]. *)
Definition steps (qs : string → option string) (emodel : Element) : Z :=
  JS.or_num (Some (overwriteSteps qs))
    (JS.or_num (JS.parseInt (getAttribute emodel "steps")) 50000).

(** Lines 60-61: [seedString?.split(" ").map((s) => parseInt(s))];
    [None] is [undefined]. *)
Definition seeds (emodel : Element) : option (list (option Z)) :=
  (λ seedString, JS.parseInt_string <$> JSLib.split " " seedString) <$>
    getAttribute emodel "seeds".

(** Line 77: [seeds?.[k] || meta.int32()]; the generator is asked only
    when the seed listed is missing, [NaN] or 0. *)
Definition seed (emodel : Element) (k : Z) (meta : PRNG) : Z * PRNG :=
  match l ← seeds emodel; JS.get l k with
  | Some (Some v) => if decide (v = 0) then int32 meta else (v, meta)
  | _ => int32 meta
  end.

(** What is done with the pictures of a run. *)
Inductive Drawing :=
| RenderBitmap (p : Picture)
| Wait (delay : Z).

(** Lines 79-101: the body of [for (... of interpreter.run(...))] on the
    pictures the run yields, with the counter [rendered]. *)
Fixpoint frames (speed delay : Z) (iso : bool) (pictures : list Picture)
    (rendered : Z) : list Drawing * Z :=
  match pictures with
  | [] => ([], rendered)
  | p :: rest =>
      let skip := JSLib.truthy (JSLib.rem rendered speed) in
      let rendered := rendered + 1 in
      if skip then frames speed delay iso rest rendered
      else
        let drawn :=
          if bool_decide (Picture_FZ p = 1) || iso then [RenderBitmap p]
          else [] in
        let '(later, rendered) := frames speed delay iso rest rendered in
        (drawn ++ Wait delay :: later, rendered)
  end.

(** What [frames] does with the picture it counts as number [k]: it
    handles the multiples of the speed. *)
Definition drawing_of (speed delay : Z) (iso : bool) (k : Z) (p : Picture)
  : list Drawing :=
  if decide (k mod speed = 0) then
    (if bool_decide (Picture_FZ p = 1) || iso then [RenderBitmap p]
     else []) ++ [Wait delay]
  else [].

(** Lines 32-56 and 125: the loop over the [model] elements up to the
    [break].  It answers the paths it asked [Loader.xml] for and, when a
    model was loaded, its element and interpreter. *)
Fixpoint models (modelStr : string) (emodels : list Element)
    (fetched : list string) : list string * option (Element * IP) :=
  match emodels with
  | [] => (fetched, None)
  | emodel :: rest =>
      let name := getAttribute emodel "name" in
      let '(MX, MY, MZ) := dims emodel in
      if decide (name ≠ Some modelStr) then models modelStr rest fetched
      else
        let path :=
          ("models/" +:+ JSLib.string_or_null name +:+ ".xml")%string in
        let fetched := fetched ++ [path] in
        match Loader_xml path with
        | None => models modelStr rest fetched
        | Some mdoc =>
            match Interpreter_load mdoc MX MY MZ with
            | None => models modelStr rest fetched
            | Some interpreter => (fetched, Some (emodel, interpreter))
            end
        end
  end.

End Main.
End Main.

(** ** [Model] *)

Module Model.
Section Model.
Context `{Host}.

(** The generator object that [ip.run] returns. *)
Inductive RunGenerator :=
| RunSuspended (fr : RunFrame)
| RunCompleted.

(** What [next()] answers: a picture, or [done]. *)
Inductive RunResult :=
| RunYield (p : Picture)
| RunDone.

(** An entry of [nodes]: the node of the interpreter it stands for
    ([state.source]) and its [breakpoint] flag. *)
Record NodeStateInfo := {
  source : Node;
  breakpoint : bool;
}.

(** What [loop] does to the page and to the interpreter's view. *)
Inductive Effect :=
| Next
| Sync (node : Node)
| Render (p : Picture)
| Log (timer : Millis)
| SetTimeout (delay : Z)
| RequestAnimationFrame.

(** The fields of a [Model] that [loop] and the handlers use ([palette] is
    [renderer.palette]), the clock of the page and the effects so far, the
    latest last. *)
Record t := {
  name : option string;
  ip : option IP;
  breakpoints : gset Node;
  palette : gmap string Color;
  _curr : option RunGenerator;
  _seed : option Z;
  _speed : Z;
  _delay : Z;
  _paused : bool;
  _timer : Millis;
  _steps : Z;
  rendered : Z;
  output : option (string * VoxBuffer);
  nodes : list NodeStateInfo;
  curr_node_index : Z;
  clock : Clock;
  effects : list Effect;
}.

(** Assignments to the fields, [this.f = v]. *)
Definition set_ip (v : option IP) (m : t) : t :=
  {| name := name m; ip := v; breakpoints := breakpoints m;
     palette := palette m; _curr := _curr m; _seed := _seed m;
     _speed := _speed m; _delay := _delay m; _paused := _paused m;
     _timer := _timer m; _steps := _steps m; rendered := rendered m;
     output := output m; nodes := nodes m;
     curr_node_index := curr_node_index m; clock := clock m;
     effects := effects m |}.

Definition set_breakpoints (v : gset Node) (m : t) : t :=
  {| name := name m; ip := ip m; breakpoints := v; palette := palette m;
     _curr := _curr m; _seed := _seed m; _speed := _speed m;
     _delay := _delay m; _paused := _paused m; _timer := _timer m;
     _steps := _steps m; rendered := rendered m; output := output m;
     nodes := nodes m; curr_node_index := curr_node_index m;
     clock := clock m; effects := effects m |}.

Definition set__curr (v : option RunGenerator) (m : t) : t :=
  {| name := name m; ip := ip m; breakpoints := breakpoints m;
     palette := palette m; _curr := v; _seed := _seed m; _speed := _speed m;
     _delay := _delay m; _paused := _paused m; _timer := _timer m;
     _steps := _steps m; rendered := rendered m; output := output m;
     nodes := nodes m; curr_node_index := curr_node_index m;
     clock := clock m; effects := effects m |}.

Definition set__seed (v : option Z) (m : t) : t :=
  {| name := name m; ip := ip m; breakpoints := breakpoints m;
     palette := palette m; _curr := _curr m; _seed := v; _speed := _speed m;
     _delay := _delay m; _paused := _paused m; _timer := _timer m;
     _steps := _steps m; rendered := rendered m; output := output m;
     nodes := nodes m; curr_node_index := curr_node_index m;
     clock := clock m; effects := effects m |}.

Definition set__speed (v : Z) (m : t) : t :=
  {| name := name m; ip := ip m; breakpoints := breakpoints m;
     palette := palette m; _curr := _curr m; _seed := _seed m; _speed := v;
     _delay := _delay m; _paused := _paused m; _timer := _timer m;
     _steps := _steps m; rendered := rendered m; output := output m;
     nodes := nodes m; curr_node_index := curr_node_index m;
     clock := clock m; effects := effects m |}.

Definition set__delay (v : Z) (m : t) : t :=
  {| name := name m; ip := ip m; breakpoints := breakpoints m;
     palette := palette m; _curr := _curr m; _seed := _seed m;
     _speed := _speed m; _delay := v; _paused := _paused m;
     _timer := _timer m; _steps := _steps m; rendered := rendered m;
     output := output m; nodes := nodes m;
     curr_node_index := curr_node_index m; clock := clock m;
     effects := effects m |}.

Definition set__paused (v : bool) (m : t) : t :=
  {| name := name m; ip := ip m; breakpoints := breakpoints m;
     palette := palette m; _curr := _curr m; _seed := _seed m;
     _speed := _speed m; _delay := _delay m; _paused := v;
     _timer := _timer m; _steps := _steps m; rendered := rendered m;
     output := output m; nodes := nodes m;
     curr_node_index := curr_node_index m; clock := clock m;
     effects := effects m |}.

Definition set__timer (v : Millis) (m : t) : t :=
  {| name := name m; ip := ip m; breakpoints := breakpoints m;
     palette := palette m; _curr := _curr m; _seed := _seed m;
     _speed := _speed m; _delay := _delay m; _paused := _paused m;
     _timer := v; _steps := _steps m; rendered := rendered m;
     output := output m; nodes := nodes m;
     curr_node_index := curr_node_index m; clock := clock m;
     effects := effects m |}.

Definition set_rendered (v : Z) (m : t) : t :=
  {| name := name m; ip := ip m; breakpoints := breakpoints m;
     palette := palette m; _curr := _curr m; _seed := _seed m;
     _speed := _speed m; _delay := _delay m; _paused := _paused m;
     _timer := _timer m; _steps := _steps m; rendered := v;
     output := output m; nodes := nodes m;
     curr_node_index := curr_node_index m; clock := clock m;
     effects := effects m |}.

Definition set_output (v : option (string * VoxBuffer)) (m : t) : t :=
  {| name := name m; ip := ip m; breakpoints := breakpoints m;
     palette := palette m; _curr := _curr m; _seed := _seed m;
     _speed := _speed m; _delay := _delay m; _paused := _paused m;
     _timer := _timer m; _steps := _steps m; rendered := rendered m;
     output := v; nodes := nodes m; curr_node_index := curr_node_index m;
     clock := clock m; effects := effects m |}.

Definition set_nodes (v : list NodeStateInfo) (m : t) : t :=
  {| name := name m; ip := ip m; breakpoints := breakpoints m;
     palette := palette m; _curr := _curr m; _seed := _seed m;
     _speed := _speed m; _delay := _delay m; _paused := _paused m;
     _timer := _timer m; _steps := _steps m; rendered := rendered m;
     output := output m; nodes := v; curr_node_index := curr_node_index m;
     clock := clock m; effects := effects m |}.

Definition set_curr_node_index (v : Z) (m : t) : t :=
  {| name := name m; ip := ip m; breakpoints := breakpoints m;
     palette := palette m; _curr := _curr m; _seed := _seed m;
     _speed := _speed m; _delay := _delay m; _paused := _paused m;
     _timer := _timer m; _steps := _steps m; rendered := rendered m;
     output := output m; nodes := nodes m; curr_node_index := v;
     clock := clock m; effects := effects m |}.

Definition set_clock (v : Clock) (m : t) : t :=
  {| name := name m; ip := ip m; breakpoints := breakpoints m;
     palette := palette m; _curr := _curr m; _seed := _seed m;
     _speed := _speed m; _delay := _delay m; _paused := _paused m;
     _timer := _timer m; _steps := _steps m; rendered := rendered m;
     output := output m; nodes := nodes m;
     curr_node_index := curr_node_index m; clock := v;
     effects := effects m |}.

Definition set_effects (v : list Effect) (m : t) : t :=
  {| name := name m; ip := ip m; breakpoints := breakpoints m;
     palette := palette m; _curr := _curr m; _seed := _seed m;
     _speed := _speed m; _delay := _delay m; _paused := _paused m;
     _timer := _timer m; _steps := _steps m; rendered := rendered m;
     output := output m; nodes := nodes m;
     curr_node_index := curr_node_index m; clock := clock m; effects := v |}.


(** Lines 155-162: [DIM], an [Int32Array]. *)
Definition DIM (emodel : Element) : Z * Z * Z :=
  let size := JS.or_num (JS.parseInt (getAttribute emodel "size")) (-1) in
  let dimension := JS.or_num (JS.parseInt (getAttribute emodel "d")) 2 in
  (JS.toInt32 (JS.or_num (JS.parseInt (getAttribute emodel "length")) size),
   JS.toInt32 (JS.or_num (JS.parseInt (getAttribute emodel "width")) size),
   JS.toInt32
     (JS.or_num (JS.parseInt (getAttribute emodel "height"))
        (if decide (dimension = 2) then 1 else size))).


(** [set speed(n)], lines 238-246, for an integer [n]; [~~n] is
    [ToInt32]. *)
Definition set_speed (n : Z) (m : t) : t :=
  if decide (n ≤ 0) then set__delay (Z.abs n) (set__speed 0 m)
  else set__delay 0 (set__speed (JS.toInt32 n) m).

(** [get speed()], [get paused()], [get running()] *)
Definition speed (m : t) : Z :=
  if decide (_delay m ≠ 0) then - _delay m else _speed m.

Definition paused (m : t) : bool := _paused m.

Definition running (m : t) : bool := bool_decide (is_Some (_curr m)).

(** [toggleBreakpoint], lines 432-442. *)
Definition toggleBreakpoint (index : Z) (m : t) : t :=
  match JS.get (nodes m) index with
  | None => m
  | Some node =>
      let node :=
        {| source := source node; breakpoint := negb (breakpoint node) |} in
      let m := set_nodes (<[Z.to_nat index := node]> (nodes m)) m in
      if breakpoint node
      then set_breakpoints (breakpoints m ∪ {[source node]}) m
      else set_breakpoints (breakpoints m ∖ {[source node]}) m
  end.

(** The set of breakpoints and the flags of the nodes as
    [toggleBreakpoint] keeps them: the entries of [nodes] stand for
    different nodes, and a node is in the set iff its entry is
    flagged. *)
Definition breakpoints_ok (m : t) : Prop :=
  NoDup (source <$> nodes m) ∧
  ∀ v, v ∈ breakpoints m ↔
       ∃ node, node ∈ nodes m ∧ source node = v ∧ breakpoint node = true.

Definition effect (e : Effect) (m : t) : t :=
  set_effects (effects m ++ [e]) m.

(** [this._curr.next()]: the coroutine works on the interpreter; a
    finished generator answers [done] and does nothing.  [None] is the
    [TypeError] of a missing generator or interpreter. *)
Definition next (m : t) : option (RunResult * t) :=
  gen ← _curr m;
  let m := effect Next m in
  match gen with
  | RunCompleted => Some (RunDone, m)
  | RunSuspended fr =>
      i ← ip m;
      match Interpreter_resume fr i with
      | (inl (p, fr'), i') =>
          Some (RunYield p,
                set_ip (Some i') (set__curr (Some (RunSuspended fr')) m))
      | (inr _, i') =>
          Some (RunDone, set_ip (Some i') (set__curr (Some RunCompleted) m))
      end
  end.

(** [checkBreakpoint], lines 317-333. *)
Definition checkBreakpoint (once : bool) (m : t) : option (bool * t) :=
  if once then Some (false, m)
  else
    i ← ip m;
    match Interpreter_current i with
    | None => Some (false, m)
    | Some (br, n, children) =>
        if decide (n < 0 ∨ n >= Z.of_nat (length children))
        then Some (false, m)
        else
          if bool_decide (br ∈ breakpoints m) ||
             match JS.get children n with
             | Some child => bool_decide (child ∈ breakpoints m)
             | None => false
             end
          then Some (true, set__paused true m)
          else Some (false, m)
    end.

(** The [for] loop of lines 339-344, with [rounds] rounds to go. *)
Fixpoint burst (rounds : nat) (once : bool) (start : Millis)
    (result : RunResult) (m : t) : option (RunResult * t) :=
  match rounds with
  | O => Some (result, m)
  | S rounds' =>
      '(result, m) ← next m;
      '(bp, m) ← checkBreakpoint once m;
      if (bp : bool) then Some (result, m)
      else
        let '(t1, clock') := now (clock m) in
        let m := set_clock clock' m in
        if over_20 (Millis_sub t1 start) then Some (result, m)
        else burst rounds' once start result m
  end.

(** The callback of [findIndex], lines 347-353. *)
Definition is_current (i : IP) (node : NodeStateInfo) : bool :=
  match Interpreter_current i with
  | None => false
  | Some (br, n, children) =>
      if decide (n < 0 ∨ n >= Z.of_nat (length children))
      then bool_decide (source node = br)
      else bool_decide (JS.get children n = Some (source node))
  end.

(** [arr.findIndex(f)]: -1 when no element passes. *)
Definition findIndex {A} (f : A → bool) (l : list A) : Z :=
  match list_find (λ a, f a = true) l with
  | Some (i, _) => Z.of_nat i
  | None => -1
  end.

(** [ip.onRender()] and the three calls to the renderer. *)
Definition render (p : Picture) (m : t) : option t :=
  i ← ip m;
  let m := set_ip (Some (Interpreter_onRender i)) m in
  Some (set_rendered (rendered m + 1) (effect (Render p) m)).

(** Lines 373-378: the name and the buffer of [output]. *)
Definition vox_output (p : Picture) (m : t) : string * VoxBuffer :=
  let colors :=
    (λ c, palette m !! String c EmptyString) <$>
      list_ascii_of_string (Picture_chars p) in
  ((JSLib.string_or_null (name m) +:+ "_" +:+
    match _seed m with
    | Some s => JSLib.toString s
    | None => "null"
    end +:+ ".vox")%string,
   Vox_serialize p colors).

(** Line 314: the generator of a new run, when there is none and the
    interpreter is loaded ([this.ip?.run]). *)
Definition ensure_run (m : t) : t :=
  match _curr m with
  | Some _ => m
  | None =>
      set__curr
        ((λ _, RunSuspended (Interpreter_run (_seed m) (_steps m))) <$> ip m)
        m
  end.

(** Lines 335-345: the first resumption and the burst. *)
Definition resumptions (once : bool) (start : Millis) (m : t)
  : option (RunResult * t) :=
  '(result, m) ← next m;
  '(bp, m) ← checkBreakpoint once m;
  if negb (bp : bool) && bool_decide (_speed m > 0)
  then burst (Z.to_nat (_speed m)) once start result m
  else Some (result, m).

(** Lines 347-358: the index of the current node, the [sync] of every
    node and the time spent. *)
Definition survey (start : Millis) (m : t) : option t :=
  i ← ip m;
  let m := set_curr_node_index (findIndex (is_current i) (nodes m)) m in
  let m := foldl (λ m node, effect (Sync (source node)) m) m (nodes m) in
  let '(end_, clock') := now (clock m) in
  let m := set_clock clock' m in
  Some (set__timer (Millis_add (_timer m) (Millis_sub end_ start)) m).

(** Lines 361-381: the run is over. *)
Definition finish_run (m : t) : option t :=
  let m := set__curr None m in
  i ← ip m;
  let p := Interpreter_state i in
  m ← render p m;
  let m :=
    if decide (Picture_FZ p > 1) then set_output (Some (vox_output p m)) m
    else m in
  Some (effect (Log (_timer m)) m).

(** Lines 383-401: the run goes on. *)
Definition go_on (once render_ : bool) (p : Picture) (m : t) : option t :=
  let m :=
    if once then m
    else if decide (_delay m ≠ 0) then effect (SetTimeout (_delay m)) m
         else effect RequestAnimationFrame m in
  if render_ then render p m else Some m.

(** [loop], lines 310-403. *)
Definition loop (once render_ : bool) (m : t) : option t :=
  if negb once && _paused m then Some m
  else
    let '(start, clock') := now (clock m) in
    let m := set_clock clock' m in
    let m := ensure_run m in
    match _curr m with
    | None => Some m
    | Some _ =>
        '(result, m) ← resumptions once start m;
        m ← survey start m;
        match result with
        | RunDone => finish_run m
        | RunYield p => go_on once render_ p m
        end
    end.

(** *** Vocabulary of the properties

    What [loop] never assigns. *)
Definition settings (m : t) :=
  (name m, breakpoints m, palette m, _seed m, _speed m, _delay m, _steps m,
   nodes m).

(** The generator is in the state its last answer tells. *)
Definition agrees (result : RunResult) (m : t) : Prop :=
  match result with
  | RunDone => _curr m = Some RunCompleted
  | RunYield _ => ∃ fr, _curr m = Some (RunSuspended fr)
  end.

(** The calls of [state.sync()], one for each entry of [nodes]. *)
Definition syncs (m : t) : list Effect :=
  (λ node, Sync (source node)) <$> nodes m.

(** The callback [loop] leaves behind when it is to go on: a timeout when
    there is a delay, an animation frame otherwise. *)
Definition callback (m : t) : Effect :=
  if decide (_delay m ≠ 0) then SetTimeout (_delay m)
  else RequestAnimationFrame.

(** A [setTimeout] or [requestAnimationFrame] of a further [loop]. *)
Definition is_callback (e : Effect) : bool :=
  match e with
  | SetTimeout _ | RequestAnimationFrame => true
  | _ => false
  end.

(** [pause], [resume] and [step], lines 288-303. *)
Definition pause (m : t) : t := set__paused true m.

Definition resume (m : t) : option t := loop false true (set__paused false m).

Definition step (m : t) : option t := loop true true (set__paused true m).

End Model.
End Model.

(** ** Small instances for the further properties *)

(** The small instance of the collaborators, with a search that returns a
    trajectory at its second resumption. *)
Module ToySearch.

Definition resume (fr : Z * Z)
  : (Z * (Z * Z)) + option (list (list Z)) :=
  let '(k, l) := fr in
  if decide (1 ≤ k) then inr (Some [[0]]) else inl (k, (k + 1, l)).

#[export] Instance collaborators : Collaborators := {|
  Element := Toy.elem;
  getAttribute := Toy.attr;
  childrenByTag := Toy.by_tag;
  matchTags := Toy.by_tag;
  Symmetry := unit;
  getSymmetry := λ _ s _, Toy.symmetry_of s;
  Rule_load := λ _ _ _, Some Toy.rule_B;
  symmetries := λ rule _ _, [rule];
  JSFloat := Z;
  parseFloat := λ _, 0;
  float_truthy := λ x, bool_decide (x ≠ 0);
  float_zero := 0;
  float_half := 5;
  Field := Toy.field;
  Field_new := λ _ _, (true, true, true);
  recompute := λ f, f.1.1;
  essential := λ f, f.1.2;
  Field_compute := Toy.field_compute;
  Observation := unit;
  Observation_new := λ _ _ _, tt;
  computeFutureSetPresent := Toy.future_present;
  computeBackwardPotentials := λ pots _ _ _ _ _, Toy.backward pots;
  Trajectory := list (list Z);
  Array2D_from := λ rows, rows;
  SearchFrame := Z * Z;
  Search_run := λ _ _ _ _ _ _ _ _ limit _ _, (0, limit);
  Search_resume := resume;
  PRNG := Z;
  int32 := λ s, (s, s + 1);
|}.

(** A node in search mode whose coroutine is under way. *)
Definition searching_on : RuleNode :=
  {| rules := [Toy.rule_B]; counter := 0; steps := 0;
     matches := []; matchCount := 0; lastMatchedTurn := -1;
     matchMask := Some [[false]];
     potentials := None; fields := None;
     observations := Some [Some tt; None];
     temperature := 0; search := true; futureComputed := false;
     future := [0]; trajectory := None; limit := -1;
     depthCoefficient := 0; last := [0]; visited := 0;
     searching := Some (Suspended (0, -1)); searchTries := 0;
     isAllNode := false |}.

(** The same node, its coroutine one resumption from its trajectory. *)
Definition found_at_once : RuleNode :=
  set_searching (Some (Suspended (1, -1))) searching_on.

End ToySearch.

(** Nodes and elements of the small instance: a node past its first step
    with a field that does not ask to be recomputed, an element of unknown
    symmetry and one with two [rule] children. *)
Module ToyNodes.
Import Toy.

Definition idle_fields : RuleNode :=
  set_counter 1
    (set_potentials (Some [[0]; [0]])
       (set_fields (Some [Some (false, true, true); None])
          (blank [rule_B] 1))).

Definition unknown_symmetry : elem :=
  {| tag := "one"; attrs := [("symmetry", "?")]%string; kids := [] |}.

Definition two_rules : elem :=
  {| tag := "one"; attrs := [];
     kids := [("rule", []); ("rule", [])]%string |}.

End ToyNodes.

(** The front ends on the elements of the small instance.  The
    interpreter is the number of steps it has made, a run the number of
    steps it has left, a picture the number of the step that made it, and
    the clock ticks once for each reading. *)
Module ToyHost.

Definition run_resume (fr i : Z) : (Z * Z + unit) * Z :=
  if decide (0 < fr) then (inl (i + 1, fr - 1), i + 1) else (inr tt, i).

(** The root, node 0, works on its child number [i]. *)
Definition current (i : Z) : option (nat * Z * list nat) :=
  Some (0%nat, i, [1; 2; 3]%nat).

Definition Element : Type := @Element Toy.collaborators.

Definition by_tag : Element → string → list Element := Toy.by_tag.

Definition load_xml (path : string) : option Element :=
  if decide (path = "models/A.xml"%string)
  then Some {| Toy.tag := "sequence"; Toy.attrs := []; Toy.kids := [] |}
  else None.

Definition load_interpreter (mdoc : Element) (MX MY MZ : Z) : option Z :=
  if decide (0 < MX) then Some 0 else None.

#[export] Instance host : @Host Toy.collaborators := {|
  toUpperCase := λ s, s;
  Color := string;
  hex2rgba := λ value, value;
  querySelectorAll := by_tag;
  Loader_xml := load_xml;
  Node := nat;
  IP := Z;
  Interpreter_load := load_interpreter;
  Interpreter_current := current;
  Picture := Z;
  Picture_FZ := λ _, 1;
  Picture_chars := λ _, "BW"%string;
  Interpreter_state := λ i, i;
  Interpreter_onRender := λ i, i;
  RunFrame := Z;
  Interpreter_run := λ _ steps, steps;
  Interpreter_resume := run_resume;
  Clock := Z;
  Millis := Z;
  now := λ c, (c, c + 1);
  Millis_sub := Z.sub;
  Millis_add := Z.add;
  over_20 := λ d, bool_decide (d > 20);
  VoxBuffer := unit;
  Vox_serialize := λ _ _, tt;
|}.

(** A document of two [color] elements for one symbol, and one of three
    models, two of them of one name. *)
Definition black : string * list (string * string) :=
  ("color", [("symbol", "B"); ("value", "000000")])%string.

Definition navy : string * list (string * string) :=
  ("color", [("symbol", "B"); ("value", "1D2B53")])%string.

Definition colors : Element :=
  {| Toy.tag := "colors"; Toy.attrs := []; Toy.kids := [black; navy] |}.

Definition model_A : string * list (string * string) :=
  ("model", [("name", "A"); ("size", "3"); ("seeds", "42 7")])%string.

Definition model_B : string * list (string * string) :=
  ("model", [("name", "B"); ("length", "0")])%string.

Definition models (kids : list (string * list (string * string)))
  : Element :=
  {| Toy.tag := "models"; Toy.attrs := []; Toy.kids := kids |}.

Definition element (kid : string * list (string * string)) : Element :=
  {| Toy.tag := kid.1; Toy.attrs := kid.2; Toy.kids := [] |}.

(** The values of the small instance at the types of the class. *)
Definition at_step (i : Z) : @IP Toy.collaborators host := i.
Definition node (k : nat) : @Node Toy.collaborators host := k.
Definition millis (t : Z) : @Millis Toy.collaborators host := t.
Definition tick (c : Z) : @Clock Toy.collaborators host := c.
Definition run_of (left : Z) : @RunFrame Toy.collaborators host := left.

(** A loaded model that is not running: three nodes, a run of [steps]
    steps to come. *)
Definition model (speed steps : Z)
  (breakpoints : gset (@Node Toy.collaborators host))
  : @Model.t Toy.collaborators host :=
  {| Model.name := Some "A"%string; Model.ip := Some (at_step 0);
     Model.breakpoints := breakpoints; Model.palette := ∅;
     Model._curr := None; Model._seed := Some 42;
     Model._speed := speed; Model._delay := 0; Model._paused := false;
     Model._timer := millis 0; Model._steps := steps; Model.rendered := 0;
     Model.output := None;
     Model.nodes :=
       [ {| Model.source := node 1; Model.breakpoint := false |};
         {| Model.source := node 2; Model.breakpoint := false |};
         {| Model.source := node 3; Model.breakpoint := false |} ];
     Model.curr_node_index := -1; Model.clock := tick 0;
     Model.effects := [] |}.

(** The same model with a run under way that has [left] steps left. *)
Definition under_way (speed left : Z)
  (breakpoints : gset (@Node Toy.collaborators host))
  : @Model.t Toy.collaborators host :=
  Model.set__curr (Some (Model.RunSuspended (run_of left)))
    (model speed left breakpoints).

End ToyHost.

(** * Properties *)

Section Claims.
Context `{Collaborators}.

(** ** [load] *)

Lemma load_rules_early g symmetry es acc early :
  load_rules g symmetry es acc = inl early → early ≠ LoadTrue.
Proof.
  revert acc. induction es as [|e es IH]; intros acc; cbn; [done|].
  destruct (Rule_load e g g); [|by intros [= <-]].
  destruct (getSymmetry _ _ _); [by apply IH|by intros [= <-]].
Qed.

(** What a successful [load] leaves in the node. *)
Lemma load_true_inv elem ps g n n' :
  load elem ps g n = Some (LoadTrue, n') →
  steps n' = JS.or_num (JS.parseInt (getAttribute elem "steps")) 0 ∧
  (childrenByTag elem "observe" ≠ [] →
     search n' =
       bool_decide (getAttribute elem "search" = Some "True"%string) ∧
     is_Some (observations n') ∧
     (search n' = false → is_Some (potentials n'))).
Proof.
  unfold load. intros Hl.
  destruct (getSymmetry _ _ _) as [symmetry|]; [|by simplify_eq].
  destruct (load_rules _ _ _ _) as [early|ruleList] eqn:Hr.
  { apply load_rules_early in Hr. by simplify_eq. }
  apply bind_Some in Hl as (n1 & Hf & Hl).
  apply bind_Some in Hl as (n2 & Ho & Hl).
  simplify_eq.
  assert (steps n1 =
          JS.or_num (JS.parseInt (getAttribute elem "steps")) 0) as Hs.
  { destruct (decide _) in Hf; [|by simplify_eq].
    apply bind_Some in Hf as (fs & _ & ?). by simplify_eq. }
  destruct (decide (0 < length (childrenByTag elem "observe"))%nat)
    as [Hlen|Hlen].
  - apply bind_Some in Ho as (obs & _ & Ho). simplify_eq. cbn.
    split; [|intros _].
    + destruct (bool_decide _); cbn; [done|].
      by destruct (potentials n1).
    + destruct (bool_decide _); cbn; [by eauto|].
      destruct (potentials n1) eqn:Hp; cbn; rewrite ?Hp; by eauto.
  - simplify_eq. split; [done|]. intros Hne.
    destruct (childrenByTag elem "observe"); [done|]. cbn in Hlen. lia.
Qed.

(** ** Frames: what the stages of [run] leave alone *)

#[local] Instance matcher_frame_preorder : PreOrder matcher_frame.
Proof.
  split.
  - intros n. exists (matchMask n), (matches n), (matchCount n).
    by destruct n.
  - intros n1 n2 n3 (m & buf & c & ->) (m' & buf' & c' & ->).
    by exists m', buf', c'.
Qed.

Lemma for_each_preserved {A S} (R : S → S → Prop) `{!PreOrder R}
    (l : list A) (body : A → S → option S) s s' :
  (∀ a s s', a ∈ l → body a s = Some s' → R s s') →
  for_each l body s = Some s' → R s s'.
Proof.
  revert s. induction l as [|a l IH]; intros s Hbody; cbn.
  - by intros [= ->].
  - intros (s1 & H1 & H2)%bind_Some. etrans.
    + eapply Hbody; [left|done].
    + eapply IH; [|done]. intros ????. apply Hbody. by right.
Qed.

Lemma add_frame g r x y z maskr n n' :
  add g r x y z maskr n = Some n' → matcher_frame n n'.
Proof.
  unfold add. intros (row & -> & Hadd)%bind_Some. cbn in Hadd.
  repeat case_decide; simplify_eq; by eexists _, _, _.
Qed.

Lemma scan_changes_frame g ip n n' :
  scan_changes g ip n = Some n' → matcher_frame n n'.
Proof.
  intros (cs & _ & Hl)%bind_Some. revert Hl.
  apply for_each_preserved; [apply _|]. intros [[x y] z] s1 s1' _.
  apply for_each_preserved; [apply _|]. intros [r rule] s2 s2' _.
  intros (maskr & _ & (shifts & _ & Hl)%bind_Some)%bind_Some. revert Hl.
  apply for_each_preserved; [apply _|].
  intros [[dx dy] dz] s3 s3' _. unfold scan_change_shift.
  repeat case_match; first [by intros [= ->]|apply add_frame].
Qed.

Lemma scan_grid_frame g n n' :
  scan_grid g n = Some n' → matcher_frame n n'.
Proof.
  unfold scan_grid. intros Hl. trans (set_matchCount 0 n).
  { by exists (matchMask n), (matches n), 0. }
  revert Hl. apply for_each_preserved; [apply _|].
  intros [r rule] s s' _. unfold scan_rule.
  apply for_each_preserved; [apply _|]. intros z s1 s1' _.
  apply for_each_preserved; [apply _|]. intros y s2 s2' _.
  apply for_each_preserved; [apply _|]. intros x s3 s3' _.
  intros (shifts & _ & Hl)%bind_Some. revert Hl.
  apply for_each_preserved; [apply _|].
  intros [[dx dy] dz] s4 s4' _. unfold scan_cell_shift.
  repeat case_match; first [by intros [= ->]|apply add_frame].
Qed.

Lemma refresh_frame g ip n n' :
  refresh_matches g ip n = Some n' → matcher_frame n n'.
Proof.
  unfold refresh_matches. case_decide;
    [apply scan_changes_frame|apply scan_grid_frame].
Qed.

(** The loop over the fields writes [potentials] only.  Its calls are
    appended to those made before; each new call is for a field that is
    present and due, and carries the answer of [compute]. *)
Lemma compute_fields_spec g n fs c anys anyc calls flow n' calls' :
  compute_fields g n fs c anys anyc calls = Some (flow, n', calls') →
  (∃ p, n' = set_potentials p n) ∧
  ∃ new, calls' = calls ++ new ∧
    (∀ i ok, (i, ok) ∈ new → (c ≤ i)%nat ∧ ∃ field row,
        fs !! (i - c)%nat = Some (Some field) ∧
        (counter n = 0 ∨ recompute field = true) ∧
        ok = (Field_compute field row g).1) ∧
    (∀ i field, (i, false) ∈ new → fs !! (i - c)%nat = Some (Some field) →
        essential field = true → flow = Return FAIL) ∧
    (∀ r, flow = Return r → r = FAIL) ∧
    (flow = Continue → anyc = true ∨ new ≠ [] →
        anys = true ∨ ∃ i, (i, true) ∈ new).
Proof.
  revert n c anys anyc calls.
  induction fs as [|o fs IH]; intros n c anys anyc calls.
  { cbn. intros Hr.
    assert (n' = n ∧ calls' = calls ∧
            (flow = Return FAIL ∧ anyc = true ∧ anys = false ∨
             flow = Continue ∧ (anyc = false ∨ anys = true)))
      as (-> & -> & Hcase).
    { destruct anyc, anys; cbn in Hr; simplify_eq; intuition. }
    split; [exists (potentials n); by destruct n|].
    exists []. rewrite app_nil_r. split; [done|].
    split; [by intros ?? ?%elem_of_nil|].
    split; [by intros ?? ?%elem_of_nil|].
    split; [intros r ->; by destruct Hcase as [(? & _)|(? & _)]; simplify_eq|].
    intros -> [?|?]; destruct Hcase as [(? & _)|(_ & [?|?])]; simplify_eq; by left. }
  assert (∀ i, (S c ≤ i)%nat → (o :: fs) !! (i - c)%nat = fs !! (i - S c)%nat)
    as Hshift.
  { intros i Hi. by replace (i - c)%nat with (S (i - S c)) by lia. }
  assert (compute_fields g n fs (S c) anys anyc calls = Some (flow, n', calls')
          → (∃ p, n' = set_potentials p n) ∧
            ∃ new, calls' = calls ++ new ∧
              (∀ i ok, (i, ok) ∈ new → (c ≤ i)%nat ∧ ∃ field row,
                  (o :: fs) !! (i - c)%nat = Some (Some field) ∧
                  (counter n = 0 ∨ recompute field = true) ∧
                  ok = (Field_compute field row g).1) ∧
              (∀ i field, (i, false) ∈ new →
                  (o :: fs) !! (i - c)%nat = Some (Some field) →
                  essential field = true → flow = Return FAIL) ∧
              (∀ r, flow = Return r → r = FAIL) ∧
              (flow = Continue → anyc = true ∨ new ≠ [] →
                  anys = true ∨ ∃ i, (i, true) ∈ new)) as Hskip.
  { intros (Hp & new & -> & Hnew & Hess & Hret & Hany)%IH.
    split; [done|]. exists new. split; [done|].
    split; [|split; [|done]].
    - intros i ok [Hle Hin]%Hnew. split; [lia|]. by rewrite Hshift.
    - intros i f Hin. destruct (Hnew _ _ Hin) as [Hle _].
      rewrite Hshift; [|done]. by apply Hess. }
  destruct o as [field|]; cbn; [|done].
  destruct (bool_decide (counter n = 0) || recompute field) eqn:Hdue;
    [|done].
  intros (pots & Hp & Hr)%bind_Some.
  destruct (Field_compute field (default [] (pots !! c)) g)
    as [success row] eqn:Hc.
  assert (counter n = 0 ∨ recompute field = true) as Hdue'.
  { apply orb_true_iff in Hdue as [?%bool_decide_eq_true|?]; eauto. }
  assert (∀ ok, (c, ok) = (c, success) → (c ≤ c)%nat ∧ ∃ f r,
            (Some field :: fs) !! (c - c)%nat = Some (Some f) ∧
            (counter n = 0 ∨ recompute f = true) ∧
            ok = (Field_compute f r g).1) as Hhead.
  { intros ok [= ->]. split; [done|].
    exists field, (default [] (pots !! c)).
    by rewrite Nat.sub_diag, Hc. }
  destruct (negb success && essential field) eqn:Hfail.
  - simplify_eq. split; [by eexists|].
    apply andb_true_iff in Hfail as [->%negb_true_iff Hfail].
    exists [(c, false)]. split; [done|].
    split; [by intros i ok [= -> ->]%list_elem_of_singleton; apply Hhead|].
    split; [done|]. split; [by intros ? [= <-]|done].
  - apply IH in Hr as ([p ->] & new & -> & Hnew & Hess & Hret & Hany).
    split; [by eexists|].
    exists ((c, success) :: new). split; [by rewrite <- (assoc_L (++))|].
    split; [|split; [|split; [done|]]].
    + intros i ok [[= -> ->]|Hin]%elem_of_cons; [by apply Hhead|].
      apply Hnew in Hin as [Hle Hin]. split; [lia|]. by rewrite Hshift.
    + intros i f [[= -> <-]|Hin]%elem_of_cons Hl Hes.
      * rewrite Nat.sub_diag in Hl. simplify_eq/=.
        by rewrite Hes in Hfail.
      * destruct (Hnew _ _ Hin) as [Hle _].
        rewrite Hshift in Hl; [|done]. by eapply Hess.
    + intros Hf _. destruct Hany as [Hany|[i Hi]]; [done|by left| |].
      * apply orb_true_iff in Hany as [?|Hs]; [by left|]. rewrite Hs.
        right. exists c. left.
      * right. exists i. by right.
Qed.

Lemma run_fields_frame g n flow n' calls :
  run_fields g n = Some (flow, n', calls) → ∃ p, n' = set_potentials p n.
Proof.
  unfold run_fields. destruct (fields n).
  - by intros [? _]%compute_fields_spec.
  - intros [= _ <- _]. exists (potentials n). by destruct n.
Qed.

(** The observation stage leaves the matcher, the fields and the step
    counters alone. *)
Lemma observe_frame g ip n flow n' ip' :
  observe g ip n = Some (flow, n', ip') →
  rules n' = rules n ∧ counter n' = counter n ∧ steps n' = steps n ∧
  fields n' = fields n ∧ matches n' = matches n ∧
  matchCount n' = matchCount n ∧ matchMask n' = matchMask n ∧
  lastMatchedTurn n' = lastMatchedTurn n ∧
  first ip' = first ip ∧ changes ip' = changes ip.
Proof.
  unfold observe, start_search. intros Ho.
  repeat (case_match; simplify_eq/=); try done.
  all: try (apply bind_Some in Ho as (? & ? & ?); simplify_eq/=; done).
Qed.

(** ** The step limit *)

(** C4.  When [steps] is positive and [counter >= steps] at entry, [run]
    returns FAIL (having only cleared [last]).  When [steps] is 0, [run]
    is the rest of [run] past the test of the step limit, whatever
    [counter] is; and 0 is what [load] stores in [steps] for an element
    with no [steps] attribute. *)
Theorem C4_step_limit (g : Grid) (ip : Interpreter PRNG) (n : RuleNode) :
  (steps n > 0 → counter n >= steps n →
     run g ip n =
       Some (Build_Outcome FAIL (set_last (JS.fill0 (last n)) n) ip [])) ∧
  (steps n = 0 →
     run g ip n = run_unlimited g ip (set_last (JS.fill0 (last n)) n)) ∧
  (∀ elem parentSymmetry n0,
     load elem parentSymmetry g n0 = Some (LoadTrue, n) →
     getAttribute elem "steps" = None → steps n = 0).
Proof.
  split; [|split].
  - intros Hpos Hge. unfold run, step_limit_reached. cbn.
    by rewrite !bool_decide_eq_true_2.
  - intros Hz. unfold run, step_limit_reached. cbn.
    rewrite Hz. by rewrite (bool_decide_eq_false_2 (0 > 0)).
  - intros elem ps n0 [-> _]%load_true_inv ->. reflexivity.
Qed.

(** ** Observations without search *)

Lemma finish_frame g ip n out :
  finish g ip n = Some out →
  ∃ m buf c p, node out = set_potentials p (with_matcher m buf c n).
Proof.
  unfold finish. intros (n1 & (m & buf & c & ->)%refresh_frame & Hf)%bind_Some.
  apply bind_Some in Hf as ([[flow n2] calls] & [p ->]%run_fields_frame & Hf).
  exists m, buf, c, p. destruct flow; by simplify_eq.
Qed.

(** C5 (as amended).  A node with observations, search disabled,
    [futureComputed] false, whose step limit is not reached and whose
    [potentials] are allocated (as [load] leaves them): if the future set
    of the current grid state is unsatisfiable, [run] returns FAIL and
    [futureComputed] stays false; otherwise [run] is the refresh of the
    matches and the rest, started from the node in which [futureComputed]
    is true and [potentials] hold the backward potentials, and
    [futureComputed] is true in whatever [run] leaves. *)
Theorem C5_future_then_potentials (g : Grid) (ip : Interpreter PRNG)
    (n : RuleNode) obs pots :
  observations n = Some obs → search n = false → futureComputed n = false →
  step_limit_reached n = false → potentials n = Some pots →
  let present := (computeFutureSetPresent (future n) (state g) obs).1 in
  let fut := (computeFutureSetPresent (future n) (state g) obs).2 in
  let n0 := set_future fut (set_last (JS.fill0 (last n)) n) in
  (present = false →
     run g ip n = Some (Build_Outcome FAIL n0 ip []) ∧
     futureComputed n0 = false) ∧
  (present = true →
     run g ip n =
       finish g ip
         (set_potentials
            (Some (computeBackwardPotentials pots fut
                     (MX g) (MY g) (MZ g) (rules n)))
            (set_futureComputed true n0)) ∧
     ∀ out, run g ip n = Some out → futureComputed (node out) = true).
Proof.
  intros Hobs Hsearch Hfc Hlim Hpots present fut n0.
  assert (run g ip n =
          run_unlimited g ip (set_last (JS.fill0 (last n)) n)) as Hrun.
  { unfold run. by replace (step_limit_reached _) with false. }
  unfold run_unlimited, observe in Hrun. cbn in Hrun.
  rewrite Hobs, Hfc, Hsearch in Hrun. cbn in Hrun.
  subst present fut n0.
  destruct (computeFutureSetPresent _ _ _) as [present fut]. cbn.
  split; intros ->; cbn in Hrun.
  - by rewrite Hfc.
  - rewrite Hpots in Hrun. cbn in Hrun. split; [done|].
    intros out. rewrite Hrun.
    by intros (m & buf & c & p & ->)%finish_frame.
Qed.

(** ** Fields *)

(** C7.  Of a [run] that returns: every call to [field.compute] it made
    was for a field of the node, at a time when [counter] was 0 or the
    field had [recompute] set, and is recorded with the answer of
    [compute]; if the computation of an essential field failed, [run]
    returned FAIL; and if some field was computed but none succeeded,
    [run] returned FAIL. *)
Theorem C7_fields (g : Grid) (ip : Interpreter PRNG) (n : RuleNode)
    (out : Outcome) :
  run g ip n = Some out →
  (∀ c ok, (c, ok) ∈ computed out →
     ∃ fs field row, fields n = Some fs ∧ fs !! c = Some (Some field) ∧
       (counter n = 0 ∨ recompute field = true) ∧
       ok = (Field_compute field row g).1) ∧
  (∀ c fs field, (c, false) ∈ computed out →
     fields n = Some fs → fs !! c = Some (Some field) →
     essential field = true → returned out = FAIL) ∧
  (computed out ≠ [] → (∀ c ok, (c, ok) ∈ computed out → ok = false) →
     returned out = FAIL).
Proof.
  assert (computed out = [] →
    (∀ c ok, (c, ok) ∈ computed out →
       ∃ fs field row, fields n = Some fs ∧ fs !! c = Some (Some field) ∧
         (counter n = 0 ∨ recompute field = true) ∧
         ok = (Field_compute field row g).1) ∧
    (∀ c fs field, (c, false) ∈ computed out →
       fields n = Some fs → fs !! c = Some (Some field) →
       essential field = true → returned out = FAIL) ∧
    (computed out ≠ [] → (∀ c ok, (c, ok) ∈ computed out → ok = false) →
       returned out = FAIL)) as Hnone.
  { intros ->. split_and!; [by intros ?? ?%elem_of_nil|by intros ??? ?%elem_of_nil|done]. }
  unfold run. destruct (step_limit_reached _).
  { intros [= <-]. by apply Hnone. }
  unfold run_unlimited.
  intros ([[flow n1] ip1] & Hobs & Hrun)%bind_Some.
  apply observe_frame in Hobs as (_ & Hcounter & _ & Hfields & _).
  cbn in Hcounter, Hfields.
  destruct flow.
  { simplify_eq. by apply Hnone. }
  clear Hnone. unfold finish in Hrun.
  apply bind_Some in Hrun as (n2 & (m & buf & c & ->)%refresh_frame & Hrun).
  apply bind_Some in Hrun as ([[flow n3] calls] & Hf & Hrun).
  assert (computed out = calls ∧
          (∀ r, flow = Return r → returned out = r)) as [Hcalls Hret].
  { destruct flow; simplify_eq; cbn; split; try done; by intros ? [= ->]. }
  rewrite Hcalls. clear Hrun Hcalls.
  unfold run_fields in Hf. cbn in Hf. rewrite Hfields in Hf.
  destruct (fields n) as [fs|]; cycle 1.
  { simplify_eq. split_and!; [by intros ?? ?%elem_of_nil|by intros ??? ?%elem_of_nil|done]. }
  apply compute_fields_spec in Hf
    as (_ & new & Hnew & Hdue & Hess & Hfail & Hany).
  cbn in Hnew, Hdue. rewrite Hcounter in Hdue. subst calls.
  split_and!.
  - intros i ok (_ & field & row & Hl & ? & ?)%Hdue.
    rewrite Nat.sub_0_r in Hl. by exists fs, field, row.
  - intros i fs' field Hin [= <-] Hl Hes. apply Hret.
    eapply Hess; [done| |done]. by rewrite Nat.sub_0_r.
  - intros Hne Hall. destruct flow as [r|].
    + rewrite (Hret r eq_refl). by apply Hfail.
    + destruct Hany as [?|[i Hi]]; [done|by right|done|].
      by apply Hall in Hi.
Qed.

(** C10.  After a successful [load] of an element with [observe]
    children, [search] is set iff the [search] attribute is exactly
    ["True"].  With any other value [search] is false, [observations] and
    [potentials] are allocated, and the observation stage of [run] on the
    node, once [reset], takes the branch of the backward potentials: FAIL
    when the future set is unsatisfiable, otherwise [futureComputed] is
    set and [potentials] receive the backward potentials. *)
Theorem C10_search_attribute (elem : Element) (parentSymmetry : Symmetry)
    (g : Grid) (n n' : RuleNode) :
  load elem parentSymmetry g n = Some (LoadTrue, n') →
  childrenByTag elem "observe" ≠ [] →
  (search n' = true ↔ getAttribute elem "search" = Some "True"%string) ∧
  (getAttribute elem "search" ≠ Some "True"%string →
     search n' = false ∧
     ∃ obs pots, observations n' = Some obs ∧ potentials n' = Some pots ∧
       ∀ g' ip,
         let future_set :=
           computeFutureSetPresent (future n') (state g') obs in
         observe g' ip (reset n') =
           if future_set.1 then
             Some (Continue,
                   set_potentials
                     (Some (computeBackwardPotentials pots future_set.2
                              (MX g') (MY g') (MZ g') (rules n')))
                     (set_futureComputed true
                        (set_future future_set.2 (reset n'))), ip)
           else Some (Return FAIL, set_future future_set.2 (reset n'), ip)).
Proof.
  intros [_ Hobs]%load_true_inv Hne.
  destruct (Hobs Hne) as (Hsearch & [obs Ho] & Hpots). clear Hobs.
  split.
  - rewrite Hsearch. apply bool_decide_eq_true.
  - intros Hattr.
    assert (search n' = false) as Hs.
    { rewrite Hsearch. by apply bool_decide_eq_false. }
    split; [done|]. destruct (Hpots Hs) as [pots Hp].
    exists obs, pots. split_and!; [done..|].
    intros g' ip. unfold observe. cbn. rewrite Ho, Hs. cbn.
    destruct (computeFutureSetPresent _ _ _) as [[] fut]; cbn; [|done].
    by rewrite Hp.
Qed.

(** ** Search *)


Lemma resumed_S k gen : resumed (S k) gen = resumed k (next gen).2.
Proof. unfold resumed. by rewrite Nat.iter_succ_r. Qed.

Lemma drive_resumes rounds result gen :
  ∃ k, (k ≤ rounds)%nat ∧ (drive rounds result gen).2 = resumed k gen ∧
       (0 < rounds → 0 < k)%nat.
Proof.
  revert result gen. induction rounds as [|rounds IH]; intros result gen.
  - exists 0%nat. cbn. split_and!; [done..|lia].
  - cbn. destruct (next gen) as [result' gen'] eqn:Hnext.
    destruct (is_done result').
    + exists 1%nat. cbn. rewrite Hnext. split_and!; [lia|done|lia].
    + destruct (IH result' gen') as (k & Hk & Heq & _).
      exists (S k). rewrite resumed_S, Hnext. split_and!; [lia|done|lia].
Qed.

(** One call of [run] resumes the coroutine at least twice and at most
    257 times: once before the loop and up to 256 times in it. *)
Lemma advance_resumes gen :
  ∃ k, (2 ≤ k ≤ 257)%nat ∧ (advance gen).2 = resumed k gen.
Proof.
  unfold advance. destruct (next gen) as [result gen'] eqn:Hnext.
  destruct (drive_resumes 256 result gen') as (k & Hk & Heq & Hpos).
  exists (S k). rewrite resumed_S, Hnext. split; [lia|done].
Qed.

(** A search that is under way and not done after the resumptions of this
    call: [run] stores the value yielded last in [visited], keeps the
    coroutine where it stopped, and returns HALT. *)
Lemma run_search_halt g ip n obs gen v gen' :
  step_limit_reached n = false → observations n = Some obs →
  futureComputed n = false → search n = true → searching n = Some gen →
  advance gen = (Yield v, gen') →
  run g ip n =
    Some (Build_Outcome HALT
            (set_visited v
               (set_searching (Some gen') (set_last (JS.fill0 (last n)) n)))
            ip []).
Proof.
  intros Hlim Hobs Hfc Hs Hgen Hadv. unfold run.
  replace (step_limit_reached _) with false.
  unfold run_unlimited, observe, start_search. cbn.
  rewrite Hobs, Hfc, Hs, Hgen. cbn. by rewrite Hadv.
Qed.

(** ** [searchTries] is written and never read *)


Lemma for_each_commute {A S} (φ : S → S) (l : list A) body s :
  (∀ a s, a ∈ l → body a (φ s) = φ <$> body a s) →
  for_each l body (φ s) = φ <$> for_each l body s.
Proof.
  revert s. induction l as [|a l IH]; intros s Hbody; cbn; [done|].
  rewrite Hbody by left. destruct (body a s) as [s1|]; cbn; [|done].
  apply IH. intros ???. apply Hbody. by right.
Qed.

Lemma add_tries d g r x y z maskr n :
  add g r x y z maskr (shift_tries d n) =
  shift_tries d <$> add g r x y z maskr n.
Proof.
  unfold add. destruct maskr as [row|]; cbn; [|done].
  repeat case_decide; done.
Qed.

Lemma scan_changes_tries d g ip n :
  scan_changes g ip (shift_tries d n) =
  shift_tries d <$> scan_changes g ip n.
Proof.
  unfold scan_changes. cbn.
  destruct (changes_since ip (lastMatchedTurn n)) as [cs|]; cbn; [|done].
  apply for_each_commute. intros [[x y] z] s _. cbn.
  apply for_each_commute. intros [r rule] s1 _. cbn.
  destruct (matchMask s1); cbn; [|done].
  destruct (shifts_of rule _); cbn; [|done].
  apply for_each_commute. intros [[dx dy] dz] s2 _. cbn.
  unfold maskr_get. cbn.
  repeat case_match; try done; apply add_tries.
Qed.

Lemma scan_grid_tries d g n :
  scan_grid g (shift_tries d n) = shift_tries d <$> scan_grid g n.
Proof.
  unfold scan_grid. cbn.
  apply (for_each_commute (shift_tries d) _ _ (set_matchCount 0 n)).
  intros [r rule] s _. cbn.
  apply for_each_commute. intros z s1 _.
  apply for_each_commute. intros y s2 _.
  apply for_each_commute. intros x s3 _.
  unfold scan_cell.
  destruct (shifts_of rule _); cbn; [|done].
  apply for_each_commute. intros [[dx dy] dz] s4 _. cbn.
  repeat case_match; try done; apply add_tries.
Qed.

Lemma refresh_tries d g ip n :
  refresh_matches g ip (shift_tries d n) =
  shift_tries d <$> refresh_matches g ip n.
Proof.
  unfold refresh_matches. cbn.
  case_decide; [apply scan_changes_tries|apply scan_grid_tries].
Qed.

Lemma compute_fields_tries d g n fs c anys anyc calls :
  compute_fields g (shift_tries d n) fs c anys anyc calls =
  (λ '(flow, n', calls'), (flow, shift_tries d n', calls')) <$>
    compute_fields g n fs c anys anyc calls.
Proof.
  revert n c anys anyc calls.
  induction fs as [|[field|] fs IH]; intros n c anys anyc calls; cbn.
  - by destruct (anyc && negb anys).
  - destruct (bool_decide (counter n = 0) || recompute field); [|apply IH].
    destruct (potentials n) as [pots|]; cbn; [|done].
    destruct (Field_compute _ _ _) as [success row].
    destruct (negb success && essential field); [done|].
    apply (IH (set_potentials _ n)).
  - apply IH.
Qed.

Lemma finish_tries d g ip n :
  finish g ip (shift_tries d n) = shift_outcome d <$> finish g ip n.
Proof.
  unfold finish. rewrite refresh_tries.
  destruct (refresh_matches g ip n) as [n1|]; cbn; [|done].
  unfold run_fields. cbn.
  destruct (fields n1) as [fs|]; cbn; [|done].
  rewrite compute_fields_tries.
  destruct (compute_fields _ _ _ _ _ _ _) as [[[[] n2] calls]|]; done.
Qed.

Lemma observe_tries d g ip n :
  observe g ip (shift_tries d n) =
  (λ '(flow, n', ip'), (flow, shift_tries d n', ip')) <$> observe g ip n.
Proof.
  unfold observe, start_search. cbn.
  destruct (observations n) as [obs|]; cbn; [|done].
  destruct (futureComputed n); cbn; [done|].
  destruct (search n); cbn.
  - destruct (searching n) as [gen|]; cbn.
    + destruct (advance gen) as [[v|v] gen']; cbn; [done|].
      destruct (Array2D_from v); cbn; [done|].
      unfold shift_tries. cbn.
      by replace (searchTries n + d + 1) with (searchTries n + 1 + d)
        by lia.
    + destruct (computeFutureSetPresent _ _ _) as [[] fut]; cbn; [|done].
      destruct (int32 (rng ip)) as [seed rng']; cbn.
      destruct (advance _) as [[v|v] gen']; cbn; [done|].
      destruct (Array2D_from v); cbn; [done|].
      unfold shift_tries. cbn.
      by replace (searchTries n + d + 1) with (searchTries n + 1 + d)
        by lia.
  - destruct (computeFutureSetPresent _ _ _) as [[] fut]; cbn; [|done].
    by destruct (potentials n).
Qed.

Lemma run_tries d g ip n :
  run g ip (shift_tries d n) = shift_outcome d <$> run g ip n.
Proof.
  unfold run.
  change (set_last (JS.fill0 (last (shift_tries d n))) (shift_tries d n))
    with (shift_tries d (set_last (JS.fill0 (last n)) n)).
  change (step_limit_reached (shift_tries d ?m))
    with (step_limit_reached m).
  destruct (step_limit_reached _); [done|].
  unfold run_unlimited. rewrite observe_tries.
  destruct (observe g ip _) as [[[[r|] n1] ip1]|]; cbn; [done| |done].
  apply finish_tries.
Qed.

Lemma load_tries d elem ps g n :
  load elem ps g (shift_tries d n) =
  (λ '(r, n'), (r, shift_tries d n')) <$> load elem ps g n.
Proof.
  unfold load.
  destruct (getSymmetry _ _ _) as [symmetry|]; [|done].
  destruct (load_rules _ _ _ _) as [early|ruleList]; [done|].
  cbn.
  destruct (decide (0 < length (matchTags elem "field"))%nat);
    destruct (decide (0 < length (childrenByTag elem "observe"))%nat);
    cbn; repeat (destruct (for_each _ _ _); cbn); try done.
  all: destruct (bool_decide _); cbn; try done.
  all: by destruct (potentials n).
Qed.

(** C8.  In a search-mode node, when the coroutine completes without a
    trajectory ([Array2D.from] of what it returned is [null]), [run]
    returns FAIL, [futureComputed] stays false and [searchTries] grows by
    one.  And [searchTries] is never read: moving it by any [d] before
    [reset], [add], [load] or [run] moves it by [d] in what they leave and
    changes nothing else. *)
Theorem C8_search_exhausted (g : Grid) (ip : Interpreter PRNG)
    (n : RuleNode) :
  (∀ obs n1 ip1 gen gen' v,
     step_limit_reached n = false → observations n = Some obs →
     futureComputed n = false → search n = true →
     start_search g ip obs (set_last (JS.fill0 (last n)) n)
       = (n1, ip1, Some gen) →
     advance gen = (Done v, gen') → Array2D_from v = None →
     ∃ out, run g ip n = Some out ∧ returned out = FAIL ∧
            futureComputed (node out) = false ∧
            searchTries (node out) = searchTries n + 1 ∧
            searching (node out) = None) ∧
  (∀ d,
     reset (shift_tries d n) = shift_tries d (reset n) ∧
     (∀ r x y z maskr,
        add g r x y z maskr (shift_tries d n) =
        shift_tries d <$> add g r x y z maskr n) ∧
     (∀ elem parentSymmetry,
        load elem parentSymmetry g (shift_tries d n) =
        (λ '(r, n'), (r, shift_tries d n')) <$>
          load elem parentSymmetry g n) ∧
     run g ip (shift_tries d n) = shift_outcome d <$> run g ip n).
Proof.
  split.
  - intros obs n1 ip1 gen gen' v Hlim Hobs Hfc Hs Hstart Hadv Hnull.
    unfold run. replace (step_limit_reached _) with false.
    unfold run_unlimited, observe. cbn [observations set_last futureComputed search].
    rewrite Hobs, Hfc, Hs. cbn [negb].
    rewrite Hstart, Hadv. cbn. rewrite Hnull. cbn.
    eexists. split; [done|]. cbn.
    unfold start_search in Hstart. cbn in Hstart.
    destruct (searching n).
    + by simplify_eq.
    + destruct (computeFutureSetPresent _ _ _) as [[] fut];
        cbn in Hstart; [|done].
      destruct (int32 _). by simplify_eq.
  - intros d. split_and!.
    + done.
    + intros. apply add_tries.
    + intros. apply load_tries.
    + apply run_tries.
Qed.

(** ** Typed arrays and the buffer of matches *)

Lemma shl_small a k :
  0 ≤ k < 32 → 0 ≤ a * 2 ^ k < 2 ^ 31 → JS.shl a k = a * 2 ^ k.
Proof.
  intros Hk Ha. unfold JS.shl, JS.toInt32.
  rewrite (Z.mod_small k) by lia. rewrite Z.mod_small; lia.
Qed.

Lemma get_Some_range {A} (l : list A) i x :
  JS.get l i = Some x → 0 ≤ i < Z.of_nat (length l).
Proof.
  unfold JS.get. case_decide; [|done].
  intros ?%lookup_lt_Some. lia.
Qed.

Lemma get_is_Some {A} (l : list A) i :
  0 ≤ i < Z.of_nat (length l) → is_Some (JS.get l i).
Proof.
  intros Hi. unfold JS.get. rewrite decide_True by lia.
  apply lookup_lt_is_Some. lia.
Qed.

Lemma get_elem_of {A} (l : list A) i x : JS.get l i = Some x → x ∈ l.
Proof.
  unfold JS.get. case_decide; [|done]. apply list_elem_of_lookup_2.
Qed.

Lemma get_app_l {A} (l k : list A) i :
  i < Z.of_nat (length l) → JS.get (l ++ k) i = JS.get l i.
Proof.
  intros Hi. unfold JS.get. case_decide; [|done].
  apply lookup_app_l. lia.
Qed.

Lemma length_u32_set l i v : length (JS.u32_set l i v) = length l.
Proof. unfold JS.u32_set. case_decide; [apply length_insert|done]. Qed.

Lemma get_u32_set_eq l i v :
  0 ≤ i < Z.of_nat (length l) →
  JS.get (JS.u32_set l i v) i = Some (v mod 2 ^ 32).
Proof.
  intros Hi. unfold JS.get, JS.u32_set. rewrite !decide_True by lia.
  apply list_lookup_insert_eq. lia.
Qed.

Lemma get_u32_set_ne l i j v :
  i ≠ j → JS.get (JS.u32_set l i v) j = JS.get l j.
Proof.
  intros Hij. unfold JS.get, JS.u32_set.
  repeat case_decide; try done. apply list_lookup_insert_ne. lia.
Qed.

Lemma length_write_quad buf offset r x y z :
  length (write_quad buf offset r x y z) = length buf.
Proof. unfold write_quad. by rewrite !length_u32_set. Qed.

Lemma quad_at_write_quad_eq buf c r x y z :
  0 ≤ c → 4 * c + 3 < Z.of_nat (length buf) →
  0 ≤ r < 2 ^ 32 → 0 ≤ x < 2 ^ 32 → 0 ≤ y < 2 ^ 32 → 0 ≤ z < 2 ^ 32 →
  quad_at (write_quad buf (4 * c) r x y z) c = (r, x, y, z).
Proof.
  intros Hc Hlen Hr Hx Hy Hz. unfold quad_at, write_quad.
  replace (4 * c) with (4 * c + 0) at 5 by lia.
  rewrite !get_u32_set_ne by lia.
  rewrite get_u32_set_eq by lia.
  rewrite (get_u32_set_ne _ (4 * c + 3) (4 * c + 1)) by lia.
  rewrite (get_u32_set_ne _ (4 * c + 2) (4 * c + 1)) by lia.
  rewrite get_u32_set_eq by (rewrite length_u32_set; lia).
  rewrite (get_u32_set_ne _ (4 * c + 3) (4 * c + 2)) by lia.
  rewrite get_u32_set_eq by (rewrite !length_u32_set; lia).
  rewrite get_u32_set_eq by (rewrite !length_u32_set; lia).
  cbn. by rewrite !Z.mod_small by lia.
Qed.

Lemma quad_at_write_quad_ne buf c k r x y z :
  k ≠ c → quad_at (write_quad buf (4 * c) r x y z) k = quad_at buf k.
Proof.
  intros Hk. unfold quad_at, write_quad.
  by rewrite !get_u32_set_ne by lia.
Qed.

Lemma quad_at_app buf ext k :
  4 * k + 3 < Z.of_nat (length buf) →
  quad_at (buf ++ ext) k = quad_at buf k.
Proof. intros Hk. unfold quad_at. by rewrite !get_app_l by lia. Qed.


(** [add] appends the match and sets its bit. *)
Lemma add_spec g r x y z row m n :
  buffer_ok n → 8 * matchCount n + 16 ≤ 2 ^ 30 - 5 →
  0 ≤ r < 2 ^ 32 → 0 ≤ x < 2 ^ 32 → 0 ≤ y < 2 ^ 32 → 0 ≤ z < 2 ^ 32 →
  matchMask n = Some m →
  ∃ n', add g r x y z (Some row) n = Some n' ∧
    n' = with_matcher (Some (mask_set m row (cell_index g x y z)))
           (matches n') (matchCount n + 1) n ∧
    buffer_ok n' ∧
    match_list n' = match_list n ++ [(r, x, y, z)].
Proof.
  intros (Hc & Hlo & Hhi) Hcap Hr Hx Hy Hz Hm.
  unfold add. cbn. rewrite Hm. cbn.
  rewrite shl_small by lia.
  assert (∀ buf, 4 * matchCount n + 4 ≤ Z.of_nat (length buf) →
            (∀ k, 0 ≤ k < matchCount n →
               quad_at buf k = quad_at (matches n) k) →
            quad_at (write_quad buf (4 * matchCount n) r x y z)
              <$> zrange (matchCount n + 1) =
            match_list n ++ [(r, x, y, z)]) as Hlist.
  { intros buf Hlen Hold. unfold match_list, zrange.
    rewrite seqZ_app, fmap_app by lia. f_equal.
    - apply list_fmap_ext. intros i k Hk%list_elem_of_lookup_2.
      apply elem_of_seqZ in Hk.
      rewrite quad_at_write_quad_ne by lia. apply Hold. lia.
    - rewrite Z.add_0_l, seqZ_cons, seqZ_nil by lia. cbn [fmap list_fmap].
      by rewrite quad_at_write_quad_eq by lia. }
  replace (matchCount n * 2 ^ 2) with (4 * matchCount n) by lia.
  case_decide as Hfit.
  - eexists. split; [done|]. cbn. split; [done|].
    split; [unfold buffer_ok; cbn; rewrite length_write_quad; lia|].
    unfold match_list at 1. cbn. apply Hlist; [lia|done].
  - rewrite shl_small by lia.
    rewrite decide_False by lia.
    eexists. split; [done|]. cbn. split; [done|].
    assert (Z.of_nat (length (matches n ++
              replicate (Z.to_nat ((Z.of_nat (length (matches n)) + 4) * 2 ^ 1)
                         - length (matches n)) 0)) =
            2 * Z.of_nat (length (matches n)) + 8) as Hlen.
    { rewrite length_app, length_replicate. lia. }
    split; [unfold buffer_ok; cbn; rewrite length_write_quad; lia|].
    unfold match_list at 1. cbn. apply Hlist; [lia|].
    intros k Hk. apply quad_at_app. lia.
Qed.

(** ** Loops *)

Lemma for_each_app {A S} (l1 l2 : list A) (body : A → S → option S) s :
  for_each (l1 ++ l2) body s = s' ← for_each l1 body s; for_each l2 body s'.
Proof.
  revert s. induction l1 as [|a l1 IH]; intros s; cbn; [done|].
  destruct (body a s); cbn; [apply IH|done].
Qed.

Lemma for_each_ext {A S} (P : S → Prop) (l : list A)
    (body1 body2 : A → S → option S) s :
  P s →
  (∀ a s s', a ∈ l → P s → body2 a s = Some s' → P s') →
  (∀ a s, a ∈ l → P s → body1 a s = body2 a s) →
  for_each l body1 s = for_each l body2 s.
Proof.
  revert s. induction l as [|a l IH]; intros s Hs Hpres Hbody; cbn; [done|].
  rewrite Hbody by (done || left).
  destruct (body2 a s) as [s'|] eqn:Hstep; cbn; [|done].
  apply IH.
  - eapply Hpres; [left|done..].
  - intros ?????. eapply Hpres; [by right|done..].
  - intros ????. apply Hbody; [by right|done].
Qed.

Lemma for_each_invariant {A S} (P : S → Prop) (l : list A)
    (body : A → S → option S) s s' :
  P s →
  (∀ a s s', a ∈ l → P s → body a s = Some s' → P s') →
  for_each l body s = Some s' → P s'.
Proof.
  revert s. induction l as [|a l IH]; intros s Hs Hpres; cbn.
  - by intros [= <-].
  - intros (s1 & H1 & H2)%bind_Some. eapply IH; [|
      intros ?????; eapply Hpres; [by right|done..]|done].
    eapply Hpres; [left|done..].
Qed.

(** Nested loops run their bodies on the concatenation of what the inner
    loops range over. *)
Lemma for_each_bind {A B S} (P : S → Prop) (l : list A) (f : A → list B)
    (body1 : A → S → option S) (body2 : B → S → option S) s :
  P s →
  (∀ b s s', P s → body2 b s = Some s' → P s') →
  (∀ a s, a ∈ l → P s → body1 a s = for_each (f a) body2 s) →
  for_each l body1 s = for_each (l ≫= f) body2 s.
Proof.
  revert s. induction l as [|a l IH]; intros s Hs Hpres Hbody; cbn; [done|].
  rewrite for_each_app, Hbody by (done || left).
  destruct (for_each (f a) body2 s) as [s'|] eqn:Hstep; cbn; [|done].
  apply IH; [|done|].
  - eapply for_each_invariant; [exact Hs| |done]. intros ??? _. apply Hpres.
  - intros ????. apply Hbody; [by right|done].
Qed.

Lemma for_each_fmap {A B S} (f : A → B) (l : list A)
    (body : B → S → option S) s :
  for_each (f <$> l) body s = for_each l (λ a, body (f a)) s.
Proof.
  revert s. induction l as [|a l IH]; intros s; cbn; [done|].
  destruct (body (f a) s); cbn; [apply IH|done].
Qed.

Lemma for_each_filter {A S} (P : A → Prop) `{∀ a, Decision (P a)}
    (l : list A) (body : A → S → option S) s :
  for_each (filter P l) body s =
  for_each l (λ a s, if decide (P a) then body a s else Some s) s.
Proof.
  revert s. induction l as [|a l IH]; intros s; [done|].
  rewrite filter_cons. cbn. case_decide; cbn; [|apply IH].
  destruct (body a s); cbn; [apply IH|done].
Qed.

(** The values of [for (i = a - 1; i < m; i += a)]: the last cell of each
    block of [a] cells. *)
Lemma elem_of_stride_fuel fuel start stop step x :
  1 ≤ step → (Z.to_nat (stop - start) ≤ fuel)%nat →
  x ∈ stride_fuel fuel start stop step ↔
  start ≤ x < stop ∧ (x - start) mod step = 0.
Proof.
  intros Hstep. revert start.
  induction fuel as [|fuel IH]; intros start Hfuel; cbn.
  - rewrite elem_of_nil. lia.
  - case_decide as Hlt; [|rewrite elem_of_nil; lia].
    rewrite elem_of_cons, IH by lia. split.
    + intros [->|[Hx Hmod]].
      * split; [lia|]. by rewrite Z.sub_diag.
      * split; [lia|].
        replace (x - start) with (x - (start + step) + 1 * step) by lia.
        by rewrite Z.mod_add by lia.
    + intros [Hx Hmod]. destruct (decide (x = start)) as [|Hne]; [by left|].
      right.
      assert (step ≤ x - start).
      { destruct (decide (x - start < step)); [|lia].
        rewrite Z.mod_small in Hmod by lia. lia. }
      split; [lia|].
      replace (x - (start + step)) with (x - start + (-1) * step) by lia.
      by rewrite Z.mod_add by lia.
Qed.

Lemma elem_of_stride a m x :
  1 ≤ a → x ∈ stride (a - 1) m a ↔ a - 1 ≤ x < m ∧ (x + 1) mod a = 0.
Proof.
  intros Ha. unfold stride. rewrite elem_of_stride_fuel by lia.
  replace (x - (a - 1)) with (x + 1 + (-1) * a) by lia.
  by rewrite Z.mod_add by lia.
Qed.

Lemma NoDup_stride_fuel fuel start stop step :
  1 ≤ step → NoDup (stride_fuel fuel start stop step).
Proof.
  intros Hstep. revert start.
  assert (∀ fuel start x,
            x ∈ stride_fuel fuel start stop step → start ≤ x) as Hge.
  { clear fuel. induction fuel as [|fuel IH]; intros start x; cbn.
    - by intros ?%elem_of_nil.
    - case_decide; [|by intros ?%elem_of_nil].
      intros [->|?%IH]%elem_of_cons; lia. }
  induction fuel as [|fuel IH]; intros start; cbn; [constructor|].
  case_decide; constructor; [|apply IH]. intros ?%Hge. lia.
Qed.

(** A block of [a] consecutive cells holds exactly one cell of the
    stride. *)
Lemma stride_unique a x x' s :
  1 ≤ a → (x + 1) mod a = 0 → (x' + 1) mod a = 0 →
  s ≤ x < s + a → s ≤ x' < s + a → x = x'.
Proof.
  intros Ha [k Hk]%Z.mod_divide [k' Hk']%Z.mod_divide Hx Hx'; [|lia..].
  assert (k = k') by nia. lia.
Qed.

Lemma stride_exists a s :
  1 ≤ a → 0 ≤ s → ∃ x, s ≤ x < s + a ∧ (x + 1) mod a = 0 ∧ a - 1 ≤ x.
Proof.
  intros Ha Hs. exists (s + a - 1 - (s + a) mod a).
  pose proof (Z.mod_pos_bound (s + a) a ltac:(lia)) as Hb.
  split; [lia|]. split.
  - replace (s + a - 1 - (s + a) mod a + 1) with (s + a - (s + a) mod a)
      by lia.
    rewrite Zminus_mod, Zmod_mod, Z.sub_diag. done.
  - pose proof (Z.mod_le (s + a) a ltac:(lia) ltac:(lia)).
    assert ((s + a) mod a = s mod a) as Hm.
    { replace (s + a) with (s + 1 * a) by lia. by rewrite Z.mod_add by lia. }
    pose proof (Z.mod_le s a ltac:(lia) ltac:(lia)). lia.
Qed.

(** ** Cells and anchors *)

Lemma cell_index_range g x y z :
  0 < MX g → 0 < MY g →
  0 ≤ x < MX g → 0 ≤ y < MY g → 0 ≤ z < MZ g →
  0 ≤ cell_index g x y z < MX g * MY g * MZ g.
Proof.
  intros HX HY Hx Hy Hz. unfold cell_index.
  assert (0 ≤ y * MX g) by nia.
  assert (y * MX g ≤ (MY g - 1) * MX g) by nia.
  assert (0 ≤ z * (MX g * MY g)) by nia.
  assert (z * (MX g * MY g) ≤ (MZ g - 1) * (MX g * MY g)) by nia.
  nia.
Qed.

Lemma cell_index_inj g x y z x' y' z' :
  0 ≤ x < MX g → 0 ≤ y < MY g → 0 ≤ x' < MX g → 0 ≤ y' < MY g →
  cell_index g x y z = cell_index g x' y' z' →
  x = x' ∧ y = y' ∧ z = z'.
Proof.
  unfold cell_index. intros Hx Hy Hx' Hy' Heq.
  assert (x + MX g * (y + MY g * z) = x' + MX g * (y' + MY g * z'))
    as Heq' by lia.
  assert (y + MY g * z = y' + MY g * z') as Hyz by nia.
  assert (z = z') by nia. nia.
Qed.

Lemma outside_false g rule x y z :
  outside g rule x y z = false ↔ fits g rule x y z.
Proof.
  unfold outside, fits. rewrite bool_decide_eq_false. lia.
Qed.

(** The value of a cell of the grid has a row in the table of shifts. *)
Lemma shifts_of_cell g rule x y z :
  grid_ok g → rule_ok g rule →
  0 ≤ x < MX g → 0 ≤ y < MY g → 0 ≤ z < MZ g →
  ∃ v sh, JS.get (state g) (cell_index g x y z) = Some v ∧
          JS.get (ishifts rule) v = Some sh.
Proof.
  intros [] (_ & _ & _ & Hlen & _) Hx Hy Hz.
  destruct (get_is_Some (state g) (cell_index g x y z)) as [v Hv].
  { rewrite state_length0. by apply cell_index_range. }
  destruct (get_is_Some (ishifts rule) v) as [sh Hsh].
  { apply get_elem_of, state_values0 in Hv. lia. }
  by exists v, sh.
Qed.

Lemma for_each_ext_all {A S} (l : list A)
    (body1 body2 : A → S → option S) s :
  (∀ a s, a ∈ l → body1 a s = body2 a s) →
  for_each l body1 s = for_each l body2 s.
Proof.
  intros Hbody. apply (for_each_ext (λ _, True)); [done..|].
  intros ????. by apply Hbody.
Qed.

(** ** The scans as single loops over their candidates *)

Lemma add_match_mask g q n n' :
  add_match g q n = Some n' → is_Some (matchMask n) → is_Some (matchMask n').
Proof.
  destruct q as [[[r x] y] z]. unfold add_match, add. cbn.
  intros Hadd [m Hm]. rewrite Hm in Hadd. cbn in Hadd.
  repeat case_decide; simplify_eq; by eexists.
Qed.

Lemma scan_cell_eq g r rule x y z n :
  is_Some (shifts_of rule (JS.get (state g) (cell_index g x y z))) →
  scan_cell g r rule (Some r) z y x n =
  for_each (filter (hit g rule) (cell_anchors g r rule x y z))
    (add_match g) n.
Proof.
  intros [sh Hsh]. unfold scan_cell, cell_anchors. rewrite Hsh. cbn.
  rewrite for_each_filter, for_each_fmap.
  apply for_each_ext_all. intros [[dx dy] dz] s _.
  unfold scan_cell_shift.
  change (anchor r x y z (dx, dy, dz)) with (r, x - dx, y - dy, z - dz).
  case_decide as Hhit.
  - destruct Hhit as [Hin Hmatch]. unfold inside in Hin.
    cbn in Hin, Hmatch. by rewrite Hin, Hmatch.
  - unfold hit, inside in Hhit. cbn in Hhit.
    destruct (outside g rule _ _ _); [done|].
    destruct (matches_at g rule _ _ _); [|done]. by destruct Hhit.
Qed.

Lemma scan_rule_eq g r rule n :
  grid_ok g → rule_ok g rule → is_Some (matchMask n) →
  scan_rule g (r, rule) n =
  for_each (full_cands_rule g (r, rule)) (add_match g) n.
Proof.
  intros Hg Hrule [m Hm]. unfold scan_rule, full_cands_rule.
  rewrite Hm. cbn [fmap option_fmap option_map fst snd].
  destruct Hrule as (HX & HY & HZ & Hsh).
  apply (for_each_bind (λ _, True)); [done..|]. intros z s Hz _.
  apply (for_each_bind (λ _, True)); [done..|]. intros y s1 Hy _.
  apply (for_each_bind (λ _, True)); [done..|]. intros x s2 Hx _.
  apply elem_of_stride in Hx, Hy, Hz; [|done..].
  apply scan_cell_eq.
  destruct (shifts_of_cell g rule x y z) as (v & sh & Hv & Hs);
    [done|done|lia..|].
  unfold shifts_of. rewrite Hv. cbn. by eexists.
Qed.

Lemma elem_of_indexed {A} (l : list A) r (a : A) :
  (r, a) ∈ indexed l ↔ JS.get l r = Some a.
Proof.
  unfold indexed, JS.get. rewrite elem_of_lookup_imap. split.
  - intros (i & x & [= -> ->] & Hl).
    rewrite decide_True by lia. by rewrite Nat2Z.id.
  - case_decide; [|done]. intros Hl.
    exists (Z.to_nat r), a. split; [|done]. f_equal. lia.
Qed.

Lemma scan_grid_eq g n :
  grid_ok g → (∀ rule, rule ∈ rules n → rule_ok g rule) →
  is_Some (matchMask n) →
  scan_grid g n =
  for_each (full_cands g (rules n)) (add_match g) (set_matchCount 0 n).
Proof.
  intros Hg Hrules Hm. unfold scan_grid, full_cands. cbn.
  apply (for_each_bind (λ s, is_Some (matchMask s))); [done| |].
  - intros q s s' ? Hadd. by eapply add_match_mask.
  - intros [r rule] s Hin Hs. apply scan_rule_eq; [done| |done].
    apply Hrules. apply elem_of_indexed in Hin. by eapply get_elem_of.
Qed.

(** ** What the full scan finds *)

Lemma forallb_zrange (f : Z → bool) n :
  forallb f (zrange n) = true ↔ ∀ i, 0 ≤ i < n → f i = true.
Proof.
  rewrite <- Is_true_true, forallb_True, Forall_forall. unfold zrange.
  setoid_rewrite elem_of_seqZ. setoid_rewrite Is_true_true.
  split; intros Hf i Hi; apply Hf; lia.
Qed.

(** [grid.matches] cell by cell. *)
Lemma matches_at_true g rule x y z :
  matches_at g rule x y z = true ↔
  ∀ i j k, 0 ≤ i < IMX rule → 0 ≤ j < IMY rule → 0 ≤ k < IMZ rule →
    ∃ v, JS.get (state g) (cell_index g (x + i) (y + j) (z + k)) = Some v ∧
         input_accepts rule i j k v = true.
Proof.
  unfold matches_at. rewrite forallb_zrange.
  setoid_rewrite forallb_zrange. setoid_rewrite forallb_zrange.
  split.
  - intros Hm i j k Hi Hj Hk. specialize (Hm k Hk j Hj i Hi).
    destruct (JS.get (state g) _) as [v|]; [by exists v|done].
  - intros Hm k Hk j Hj i Hi. by destruct (Hm i j k Hi Hj Hk) as (v & -> & ?).
Qed.

(** The anchors read off a cell: the cell lies in the box of each, at an
    offset whose input cell accepts the value of the cell. *)
Lemma elem_of_cell_anchors g r rule x y z q :
  grid_ok g → rule_ok g rule →
  0 ≤ x < MX g → 0 ≤ y < MY g → 0 ≤ z < MZ g →
  q ∈ cell_anchors g r rule x y z ↔
  mr q = r ∧
  (0 ≤ x - mx q < IMX rule ∧ 0 ≤ y - my q < IMY rule ∧
   0 ≤ z - mz q < IMZ rule) ∧
  ∃ v, JS.get (state g) (cell_index g x y z) = Some v ∧
       input_accepts rule (x - mx q) (y - my q) (z - mz q) v = true.
Proof.
  intros Hg Hrule Hx Hy Hz.
  destruct (shifts_of_cell g rule x y z) as (v & sh & Hv & Hsh); [done..|].
  destruct Hrule as (_ & _ & _ & _ & Hok).
  destruct (Hok v sh Hsh) as [_ Hin].
  unfold cell_anchors, shifts_of. rewrite Hv. cbn. rewrite Hsh. cbn.
  rewrite list_elem_of_fmap. split.
  - intros ([[dx dy] dz] & -> & [Hbox Hacc]%Hin).
    unfold anchor, mr, mx, my, mz. cbn.
    replace (x - (x - dx)) with dx by lia.
    replace (y - (y - dy)) with dy by lia.
    replace (z - (z - dz)) with dz by lia.
    split; [done|]. split; [done|]. by exists v.
  - intros (Hr & Hbox & v' & [= <-] & Hacc).
    exists (x - mx q, y - my q, z - mz q). split.
    + destruct q as [[[r' sx] sy] sz]. unfold anchor, mr, mx, my, mz in *.
      cbn in *. subst r'. repeat f_equal; lia.
    + by apply Hin.
Qed.

Lemma NoDup_cell_anchors g r rule x y z :
  rule_ok g rule → NoDup (cell_anchors g r rule x y z).
Proof.
  intros (_ & _ & _ & _ & Hok). unfold cell_anchors.
  apply NoDup_fmap_2.
  { intros [[dx dy] dz] [[dx' dy'] dz']. unfold anchor. cbn.
    intros [=]. repeat f_equal; lia. }
  destruct (shifts_of rule _) as [sh|] eqn:Hsh; cbn; [|constructor].
  unfold shifts_of in Hsh. apply bind_Some in Hsh as (v & _ & Hsh).
  by destruct (Hok v sh Hsh).
Qed.

Lemma elem_of_full_cands_rule g r rule q :
  grid_ok g → rule_ok g rule →
  q ∈ full_cands_rule g (r, rule) ↔
  mr q = r ∧ fits g rule (mx q) (my q) (mz q) ∧
  matches_at g rule (mx q) (my q) (mz q) = true.
Proof.
  intros Hg Hrule. pose proof Hrule as (HX & HY & HZ & _).
  unfold full_cands_rule. cbn [fst snd]. split.
  - intros (z & (y & (x & Hq & Hx)%list_elem_of_bind & Hy)%list_elem_of_bind
              & Hz)%list_elem_of_bind.
    apply elem_of_stride in Hx, Hy, Hz; [|done..].
    apply list_elem_of_filter in Hq as [[Hin Hm] Hq].
    apply elem_of_cell_anchors in Hq as (Hr & _); [|done|done|lia..].
    by apply outside_false in Hin.
  - intros (Hr & Hfits & Hm). pose proof Hfits as (?&?&?&?&?&?).
    destruct (stride_exists (IMX rule) (mx q)) as (x & Hx & Hxm & Hx0);
      [done..|].
    destruct (stride_exists (IMY rule) (my q)) as (y & Hy & Hym & Hy0);
      [done..|].
    destruct (stride_exists (IMZ rule) (mz q)) as (z & Hz & Hzm & Hz0);
      [done..|].
    apply list_elem_of_bind. exists z. split;
      [|apply elem_of_stride; [done|]; split; [lia|done]].
    apply list_elem_of_bind. exists y. split;
      [|apply elem_of_stride; [done|]; split; [lia|done]].
    apply list_elem_of_bind. exists x. split;
      [|apply elem_of_stride; [done|]; split; [lia|done]].
    apply list_elem_of_filter. split.
    { split; [by apply outside_false|done]. }
    apply elem_of_cell_anchors; [done|done|lia..|].
    split; [done|]. split; [lia|].
    pose proof (proj1 (matches_at_true _ _ _ _ _) Hm
                  (x - mx q) (y - my q) (z - mz q)) as (v & Hv & Hacc);
      [lia..|].
    replace (mx q + (x - mx q)) with x in Hv by lia.
    replace (my q + (y - my q)) with y in Hv by lia.
    replace (mz q + (z - mz q)) with z in Hv by lia.
    by exists v.
Qed.

Lemma NoDup_full_cands_rule g r rule :
  grid_ok g → rule_ok g rule → NoDup (full_cands_rule g (r, rule)).
Proof.
  intros Hg Hrule. pose proof Hrule as (HX & HY & HZ & _).
  unfold full_cands_rule. cbn [fst snd].
  assert (∀ x y z q,
            x ∈ stride (IMX rule - 1) (MX g) (IMX rule) →
            y ∈ stride (IMY rule - 1) (MY g) (IMY rule) →
            z ∈ stride (IMZ rule - 1) (MZ g) (IMZ rule) →
            q ∈ filter (hit g rule) (cell_anchors g r rule x y z) →
            ((x + 1) mod IMX rule = 0 ∧ mx q ≤ x < mx q + IMX rule) ∧
            ((y + 1) mod IMY rule = 0 ∧ my q ≤ y < my q + IMY rule) ∧
            ((z + 1) mod IMZ rule = 0 ∧ mz q ≤ z < mz q + IMZ rule))
    as Hbox.
  { intros x y z q Hx Hy Hz [_ Hq]%list_elem_of_filter.
    apply elem_of_stride in Hx, Hy, Hz; [|done..].
    apply elem_of_cell_anchors in Hq as (_ & Hb & _); [|done|done|lia..].
    lia. }
  apply NoDup_bind; [| |by apply NoDup_stride_fuel].
  { intros z1 z2 q Hz1 Hz2.
    intros (y1 & (x1 & Hq1 & Hx1)%list_elem_of_bind & Hy1)%list_elem_of_bind.
    intros (y2 & (x2 & Hq2 & Hx2)%list_elem_of_bind & Hy2)%list_elem_of_bind.
    destruct (Hbox _ _ _ _ Hx1 Hy1 Hz1 Hq1) as (_ & _ & ? & ?).
    destruct (Hbox _ _ _ _ Hx2 Hy2 Hz2 Hq2) as (_ & _ & ? & ?).
    by eapply (stride_unique (IMZ rule) z1 z2 (mz q)). }
  intros z Hz. apply NoDup_bind; [| |by apply NoDup_stride_fuel].
  { intros y1 y2 q Hy1 Hy2.
    intros (x1 & Hq1 & Hx1)%list_elem_of_bind.
    intros (x2 & Hq2 & Hx2)%list_elem_of_bind.
    destruct (Hbox _ _ _ _ Hx1 Hy1 Hz Hq1) as (_ & (? & ?) & _).
    destruct (Hbox _ _ _ _ Hx2 Hy2 Hz Hq2) as (_ & (? & ?) & _).
    by eapply (stride_unique (IMY rule) y1 y2 (my q)). }
  intros y Hy. apply NoDup_bind; [| |by apply NoDup_stride_fuel].
  { intros x1 x2 q Hx1 Hx2 Hq1 Hq2.
    destruct (Hbox _ _ _ _ Hx1 Hy Hz Hq1) as ((? & ?) & _).
    destruct (Hbox _ _ _ _ Hx2 Hy Hz Hq2) as ((? & ?) & _).
    by eapply (stride_unique (IMX rule) x1 x2 (mx q)). }
  intros x Hx. apply NoDup_filter. by eapply NoDup_cell_anchors.
Qed.

Lemma NoDup_indexed {A} (l : list A) : NoDup (indexed l).
Proof.
  apply NoDup_alt. intros i j [r a]. unfold indexed.
  rewrite !list_lookup_imap.
  intros (a1 & _ & [= ? ?])%fmap_Some (a2 & _ & [= ? ?])%fmap_Some. lia.
Qed.

(** The candidates of the full scan are the matches of the grid, each
    listed once. *)
Lemma full_cands_spec g rs :
  grid_ok g → (∀ rule, rule ∈ rs → rule_ok g rule) →
  NoDup (full_cands g rs) ∧
  ∀ q, q ∈ full_cands g rs ↔ is_match g rs q.
Proof.
  intros Hg Hrules. unfold full_cands. split.
  - apply NoDup_bind; [| |apply NoDup_indexed].
    + intros [r1 rule1] [r2 rule2] q Hin1 Hin2 Hq1 Hq2.
      pose proof Hin1 as Hg1%elem_of_indexed.
      pose proof Hin2 as Hg2%elem_of_indexed.
      apply elem_of_full_cands_rule in Hq1 as [Hr1 _];
        [|done|by eapply Hrules, get_elem_of].
      apply elem_of_full_cands_rule in Hq2 as [Hr2 _];
        [|done|by eapply Hrules, get_elem_of].
      subst r1 r2. by simplify_eq.
    + intros [r rule] Hin%elem_of_indexed.
      apply NoDup_full_cands_rule; [done|].
      by eapply Hrules, get_elem_of.
  - intros q. rewrite list_elem_of_bind. unfold is_match. split.
    + intros ([r rule] & Hq & Hin%elem_of_indexed).
      apply elem_of_full_cands_rule in Hq as (<- & ? & ?);
        [|done|by eapply Hrules, get_elem_of].
      by exists rule.
    + intros (rule & Hget & Hfits & Hm). exists (mr q, rule).
      split; [|by apply elem_of_indexed].
      apply elem_of_full_cands_rule; [done|by eapply Hrules, get_elem_of|].
      done.
Qed.

(** ** The mask *)

Lemma mask_set_ok g rs m r i :
  mask_ok g rs m → mask_ok g rs (mask_set m r i).
Proof.
  intros [Hlen Hrows]. unfold mask_set. case_decide; [|done]. split.
  - by rewrite length_alter.
  - apply Forall_forall. intros row (k & Hk)%list_elem_of_lookup.
    rewrite Forall_forall in Hrows.
    destruct (decide (k = Z.to_nat r)) as [->|Hne].
    + rewrite list_lookup_alter_eq in Hk.
      apply fmap_Some in Hk as (row0 & Hrow0 & ->).
      rewrite length_insert. by eapply Hrows, list_elem_of_lookup_2.
    + rewrite list_lookup_alter_ne in Hk by done.
      by eapply Hrows, list_elem_of_lookup_2.
Qed.

Lemma mask_get_set g rs m r i r' i' :
  mask_ok g rs m →
  0 ≤ r < Z.of_nat (length rs) → 0 ≤ i < Z.of_nat (length (state g)) →
  mask_get (mask_set m r i) r' i' = true ↔
  (r' = r ∧ i' = i) ∨ mask_get m r' i' = true.
Proof.
  intros [Hlen Hrows] Hr Hi. unfold mask_get, mask_set, JS.get.
  rewrite (decide_True (P := 0 ≤ r ∧ 0 ≤ i)) by lia.
  destruct (lookup_lt_is_Some_2 m (Z.to_nat r)) as [row Hrow]; [lia|].
  assert (length row = length (state g)) as Hrowlen.
  { rewrite Forall_forall in Hrows. by eapply Hrows, list_elem_of_lookup_2. }
  destruct (decide (0 ≤ r')) as [Hr'|]; cbn;
    [|split; [done|intros [[-> _]|?]; [lia|done]]].
  destruct (decide (Z.to_nat r' = Z.to_nat r)) as [Heq|Hne].
  - assert (r' = r) as -> by lia.
    rewrite list_lookup_alter_eq, Hrow. cbn.
    destruct (decide (0 ≤ i')) as [Hi'|]; cbn;
      [|split; [done|intros [[_ ->]|?]; [lia|done]]].
    destruct (decide (Z.to_nat i' = Z.to_nat i)) as [Heqi|Hnei].
    + assert (i' = i) as -> by lia.
      rewrite list_lookup_insert_eq by lia. cbn. split; [by left|done].
    + rewrite list_lookup_insert_ne by done.
      split; [by right|]. intros [[_ ->]|?]; done.
  - rewrite list_lookup_alter_ne by done.
    split; [by right|]. intros [[-> _]|?]; done.
Qed.

Lemma mask_with_cons g m q l :
  mask_with g m (q :: l) =
  mask_with g (mask_set m (mr q) (cell_index g (mx q) (my q) (mz q))) l.
Proof. done. Qed.

Lemma mask_with_ok g rs m l :
  mask_ok g rs m → mask_ok g rs (mask_with g m l).
Proof.
  revert m. induction l as [|q l IH]; intros m Hm; [done|].
  rewrite mask_with_cons. by apply IH, mask_set_ok.
Qed.

Lemma in_range_index g rs q :
  grid_ok g → in_range g rs q →
  0 ≤ cell_index g (mx q) (my q) (mz q) < Z.of_nat (length (state g)).
Proof.
  intros [] (_ & ? & ? & ?). rewrite state_length0.
  by apply cell_index_range.
Qed.

(** The bits of [mask_with] are those of the mask and those of the
    matches. *)
Lemma mask_with_get g rs m l r i :
  grid_ok g → mask_ok g rs m → (∀ q, q ∈ l → in_range g rs q) →
  mask_get (mask_with g m l) r i = true ↔
  mask_get m r i = true ∨
  ∃ q, q ∈ l ∧ mr q = r ∧ cell_index g (mx q) (my q) (mz q) = i.
Proof.
  intros Hg. revert m. induction l as [|q l IH]; intros m Hm Hl.
  - cbn. split; [by left|]. intros [?|(? & ?%elem_of_nil & _)]; done.
  - rewrite mask_with_cons. rewrite IH; [|by apply mask_set_ok|intros ??; apply Hl; by right].
    rewrite (mask_get_set g rs);
      [|done|apply Hl; left|eapply in_range_index, Hl; [done|left]].
    split.
    + intros [[[-> ->]|?]|(q' & ? & ? & ?)].
      * right. exists q. split; [left|done].
      * by left.
      * right. exists q'. split; [by right|done].
    + intros [?|(q' & [->|?]%elem_of_cons & <- & <-)].
      * left. by right.
      * left. by left.
      * right. by exists q'.
Qed.

(** ** Adding a list of matches *)

Lemma in_range_u32 g rs q :
  capacity g rs < 2 ^ 32 → 0 < MX g → 0 < MY g → 0 < MZ g →
  in_range g rs q →
  0 ≤ mr q < 2 ^ 32 ∧ 0 ≤ mx q < 2 ^ 32 ∧ 0 ≤ my q < 2 ^ 32 ∧
  0 ≤ mz q < 2 ^ 32.
Proof.
  unfold capacity. intros Hcap HX HY HZ (Hr & Hx & Hy & Hz).
  assert (1 ≤ Z.of_nat (length rs)) by lia.
  assert (MX g ≤ MX g * MY g) by nia.
  assert (MY g ≤ MX g * MY g) by nia.
  assert (MX g * MY g ≤ MX g * MY g * MZ g) by nia.
  assert (MZ g ≤ MX g * MY g * MZ g) by nia.
  assert (MX g * MY g * MZ g ≤ Z.of_nat (length rs) * (MX g * MY g * MZ g))
    by nia.
  assert (Z.of_nat (length rs) ≤ Z.of_nat (length rs) * (MX g * MY g * MZ g))
    by nia.
  lia.
Qed.

Lemma add_all_spec g n l m :
  grid_ok g → capacity g (rules n) < 2 ^ 32 →
  buffer_ok n → matchMask n = Some m →
  (∀ q, q ∈ l → in_range g (rules n) q) →
  8 * (matchCount n + Z.of_nat (length l)) + 8 ≤ 2 ^ 30 - 5 →
  ∃ n', for_each l (add_match g) n = Some n' ∧
    matcher_frame n n' ∧ buffer_ok n' ∧
    match_list n' = match_list n ++ l ∧
    matchMask n' = Some (mask_with g m l).
Proof.
  intros Hg. revert n m.
  induction l as [|q l IH]; intros n m Hcap Hbuf Hm Hl Hsize.
  - exists n. split_and!; [done|done|done|by rewrite app_nil_r|done].
  - destruct (in_range_u32 g (rules n) q) as (Hr & Hx & Hy & Hz);
      [done|by destruct Hg..|apply Hl; left|].
    rewrite mask_with_cons.
    change (for_each (q :: l) (add_match g) n)
      with (s' ← add_match g q n; for_each l (add_match g) s').
    rewrite length_cons in Hsize.
    destruct q as [[[r x] y] z]. unfold mr, mx, my, mz in *.
    cbn [fst snd] in *.
    change (add_match g (r, x, y, z) n) with (add g r x y z (Some r) n).
    destruct (add_spec g r x y z r m n) as (n1 & -> & Hn1 & Hbuf1 & Hlist1);
      [done|destruct Hbuf; lia|done..|].
    cbn [mbind option_bind].
    destruct (IH n1 (mask_set m r (cell_index g x y z)))
      as (n' & -> & Hframe & Hbuf' & Hlist' & Hmask').
    { by rewrite Hn1. }
    { done. }
    { by rewrite Hn1. }
    { intros q' Hq'. rewrite Hn1. cbn. apply Hl. by right. }
    { rewrite Hn1. cbn. lia. }
    exists n'. split_and!; [done| |done| |done].
    + trans n1; [|done]. rewrite Hn1. by eexists _, _, _.
    + by rewrite Hlist', Hlist1, <- (assoc_L (++)).
Qed.

(** A list without duplicates of matches in range is no longer than the
    capacity. *)
Lemma NoDup_length_capacity g rs l :
  grid_ok g → NoDup l → (∀ q, q ∈ l → in_range g rs q) →
  Z.of_nat (length l) ≤ capacity g rs.
Proof.
  intros [] Hnd Hl.
  set (φ := λ q : Match, (mr q, (mx q, (my q, mz q)))).
  set (box := cprod (seqZ 0 (Z.of_nat (length rs)))
                (cprod (seqZ 0 (MX g))
                   (cprod (seqZ 0 (MY g)) (seqZ 0 (MZ g))))).
  assert (length (φ <$> l) ≤ length box)%nat as Hle.
  { apply submseteq_length, NoDup_submseteq.
    - apply NoDup_fmap_2; [|done].
      intros [[[??]?]?] [[[??]?]?]. unfold φ, mr, mx, my, mz. cbn.
      by intros [= -> -> -> ->].
    - intros p (q & -> & Hq%Hl)%list_elem_of_fmap.
      destruct Hq as (? & ? & ? & ?). unfold box, φ.
      rewrite !list_elem_of_cprod, !elem_of_seqZ. cbn. lia. }
  rewrite length_fmap in Hle. unfold box in Hle.
  rewrite !list_cprod_list_prod, !List.length_prod, !length_seqZ in Hle.
  unfold capacity. nia.
Qed.

(** ** The full rescan *)

Lemma is_match_in_range g rs q :
  (∀ rule, rule ∈ rs → rule_ok g rule) →
  is_match g rs q → in_range g rs q.
Proof.
  intros Hrules (rule & Hget & Hfits & _).
  destruct (Hrules rule) as (? & ? & ? & _); [by eapply get_elem_of|].
  apply get_Some_range in Hget. unfold fits in Hfits. unfold in_range. lia.
Qed.

(** The full scan returns, with the matches of the grid as its list, each
    once, and their bits set on top of the bits that were set. *)
Lemma scan_grid_spec g n m :
  grid_ok g → (∀ rule, rule ∈ rules n → rule_ok g rule) →
  matchMask n = Some m →
  Z.of_nat (length (matches n)) ≤ 2 ^ 30 - 5 →
  8 * capacity g (rules n) + 8 ≤ 2 ^ 30 - 5 →
  ∃ n', scan_grid g n = Some n' ∧ matcher_frame n n' ∧ buffer_ok n' ∧
    match_list n' = full_cands g (rules n) ∧
    matchMask n' = Some (mask_with g m (full_cands g (rules n))).
Proof.
  intros Hg Hrules Hm Hlen Hcap.
  destruct (full_cands_spec g (rules n) Hg Hrules) as [Hnd Hin].
  assert (∀ q, q ∈ full_cands g (rules n) → in_range g (rules n) q) as Hr.
  { intros q Hq. by apply is_match_in_range, Hin. }
  pose proof (NoDup_length_capacity g (rules n) _ Hg Hnd Hr) as Hle.
  rewrite scan_grid_eq by (done || by eexists).
  destruct (add_all_spec g (set_matchCount 0 n) (full_cands g (rules n)) m)
    as (n' & Hrun & Hframe & Hbuf & Hlist & Hmask).
  - done.
  - cbn. lia.
  - unfold buffer_ok. cbn. lia.
  - done.
  - done.
  - cbn. lia.
  - exists n'. split_and!; [done| |done|done|done].
    trans (set_matchCount 0 n); [|done].
    by exists (matchMask n), (matches n), 0.
Qed.

Lemma observe_return g ip n r n' ip' :
  observe g ip n = Some (Return r, n', ip') → r = FAIL ∨ r = HALT.
Proof.
  unfold observe, start_search. intros Ho.
  repeat (case_match; simplify_eq/=); eauto.
  all: apply bind_Some in Ho as (? & ? & ?); simplify_eq/=.
Qed.

(** A call of [run] that returns SUCCESS went through the refresh of the
    matches: from a node that has the matcher of the node at entry, to a
    node that has the matcher of the node at exit. *)
Lemma run_success_inv g ip n out :
  run g ip n = Some out → returned out = SUCCESS →
  ∃ n1 n2,
    (rules n1 = rules n ∧ matches n1 = matches n ∧
     matchCount n1 = matchCount n ∧ matchMask n1 = matchMask n ∧
     lastMatchedTurn n1 = lastMatchedTurn n) ∧
    (first (interpreter out) = first ip ∧
     changes (interpreter out) = changes ip) ∧
    refresh_matches g (interpreter out) n1 = Some n2 ∧
    match_list (node out) = match_list n2 ∧
    matchMask (node out) = matchMask n2.
Proof.
  unfold run. destruct (step_limit_reached _); [by intros [= <-]|].
  unfold run_unlimited.
  intros ([[flow n1] ip1] & Hobs & Hrun)%bind_Some Hret.
  destruct flow as [r|].
  { apply observe_return in Hobs. simplify_eq/=. by destruct Hobs. }
  apply observe_frame in Hobs
    as (? & _ & _ & _ & ? & ? & ? & ? & ? & ?). cbn in *.
  unfold finish in Hrun.
  apply bind_Some in Hrun as (n2 & Hscan & Hrun).
  apply bind_Some in Hrun as ([[flow n3] calls] & [p ->]%run_fields_frame & Hrun).
  exists n1, n2.
  assert (out = Build_Outcome (returned out) (set_potentials p n2) ip1 calls)
    as ->.
  { destruct flow; by simplify_eq. }
  done.
Qed.

(** C3.  On a grid and rules as [load] makes them, with the mask allocated
    and the buffer of matches below 2^30 numbers, the refresh of the
    matches of a node with [lastMatchedTurn < 0] returns, and leaves in
    [matches[0..matchCount)] exactly the tuples [(r, sx, sy, sz)] whose
    box fits in the grid and where [grid.matches] holds for rule [r], each
    once.  So does every [run] of such a node that returns SUCCESS. *)
Theorem C3_full_rescan (g : Grid) (ip : Interpreter PRNG) (n : RuleNode) :
  grid_ok g → (∀ rule, rule ∈ rules n → rule_ok g rule) →
  is_Some (matchMask n) →
  Z.of_nat (length (matches n)) ≤ 2 ^ 30 - 5 →
  8 * capacity g (rules n) + 8 ≤ 2 ^ 30 - 5 →
  lastMatchedTurn n < 0 →
  let exact (n' : RuleNode) :=
    NoDup (match_list n') ∧
    ∀ r sx sy sz, (r, sx, sy, sz) ∈ match_list n' ↔
      ∃ rule, JS.get (rules n) r = Some rule ∧ fits g rule sx sy sz ∧
              matches_at g rule sx sy sz = true in
  (∃ n', refresh_matches g ip n = Some n' ∧ exact n') ∧
  (∀ out, run g ip n = Some out → returned out = SUCCESS →
     exact (node out)).
Proof.
  intros Hg Hrules [m Hm] Hlen Hcap Hturn exact.
  assert (∀ n1 ip1 n2,
            rules n1 = rules n → matches n1 = matches n →
            matchMask n1 = matchMask n →
            lastMatchedTurn n1 = lastMatchedTurn n →
            refresh_matches g ip1 n1 = Some n2 →
            NoDup (match_list n2) ∧
            ∀ q, q ∈ match_list n2 ↔ is_match g (rules n) q) as Hscan.
  { intros n1 ip1 n2 Hr Hb Hmask Hl. unfold refresh_matches.
    rewrite decide_False by lia.
    destruct (scan_grid_spec g n1 m) as (n' & Hs & _ & _ & Hl' & _);
      [done|by rewrite Hr|by rewrite Hmask|by rewrite Hb|by rewrite Hr|].
    rewrite Hs. intros [= <-]. rewrite Hl', Hr. by apply full_cands_spec. }
  split.
  - unfold refresh_matches. rewrite decide_False by lia.
    destruct (scan_grid_spec g n m) as (n' & Hrun & _); [done..|].
    exists n'. split; [done|].
    destruct (Hscan n ip n') as [Hnd Hin]; [done..| |].
    { unfold refresh_matches. by rewrite decide_False by lia. }
    split; [done|]. intros r sx sy sz. apply (Hin (r, sx, sy, sz)).
  - intros out Hrun Hret.
    destruct (run_success_inv g ip n out Hrun Hret)
      as (n1 & n2 & (? & ? & ? & ? & ?) & _ & Hrefresh & Hlist & _).
    destruct (Hscan n1 (interpreter out) n2) as [Hnd Hin]; [done..|].
    unfold exact. rewrite Hlist. split; [done|].
    intros r sx sy sz. apply (Hin (r, sx, sy, sz)).
Qed.

(** ** The incremental rescan *)

Lemma try_add_frame g cand n n' :
  try_add g cand n = Some n' → matcher_frame n n'.
Proof.
  destruct cand as [rule [[[r x] y] z]]. unfold try_add, add_match.
  case_match; [apply add_frame|by intros [= ->]].
Qed.

Lemma try_add_mask g cand n n' :
  try_add g cand n = Some n' → is_Some (matchMask n) →
  is_Some (matchMask n').
Proof.
  destruct cand as [rule q]. unfold try_add.
  case_match; [apply add_match_mask|by intros [= ->]].
Qed.

Lemma scan_change_rule_eq g x y z v r rule n :
  is_Some (matchMask n) → is_Some (JS.get (ishifts rule) v) →
  JS.get (state g) (cell_index g x y z) = Some v →
  scan_change_rule g x y z (Some v) (r, rule) n =
  for_each ((λ q, (rule, q)) <$>
              filter (inside g rule) (cell_anchors g r rule x y z))
    (try_add g) n.
Proof.
  intros [m Hm] [sh Hsh] Hv. unfold scan_change_rule, cell_anchors.
  rewrite Hm, Hv. cbn. rewrite Hsh. cbn.
  rewrite for_each_fmap, for_each_filter, for_each_fmap.
  apply for_each_ext_all. intros [[dx dy] dz] s _.
  unfold scan_change_shift, try_add.
  change (anchor r x y z (dx, dy, dz)) with (r, x - dx, y - dy, z - dz).
  case_decide as Hin; unfold inside in Hin; cbn in Hin.
  - by rewrite Hin.
  - by destruct (outside g rule _ _ _).
Qed.

Lemma scan_changes_eq g n cs :
  grid_ok g → (∀ rule, rule ∈ rules n → rule_ok g rule) →
  is_Some (matchMask n) →
  (∀ c, c ∈ cs → 0 ≤ c.1.1 < MX g ∧ 0 ≤ c.1.2 < MY g ∧ 0 ≤ c.2 < MZ g) →
  for_each cs (scan_change g) n =
  for_each (inc_cands g (rules n) cs) (try_add g) n.
Proof.
  intros Hg Hrules Hm Hcs. unfold inc_cands.
  apply (for_each_bind
           (λ s, is_Some (matchMask s) ∧ rules s = rules n)); [done| |].
  { intros cand s s' [Hs Hr] Hstep. split; [by eapply try_add_mask|].
    apply try_add_frame in Hstep as (? & ? & ? & ->). done. }
  intros [[x y] z] s Hc [Hs Hr]. unfold scan_change. rewrite Hr.
  apply Hcs in Hc. cbn in Hc.
  apply (for_each_bind (λ s, is_Some (matchMask s))); [done| |].
  { intros ?????. by eapply try_add_mask. }
  intros [r rule] s1 Hin%elem_of_indexed Hs1.
  destruct (shifts_of_cell g rule x y z) as (v & sh & Hv & Hsh);
    [done|by eapply Hrules, get_elem_of|lia..|].
  rewrite Hv. by apply scan_change_rule_eq.
Qed.

Lemma changes_since_ok g ip turn :
  log_ok g ip →
  ∃ cs, changes_since ip turn = Some cs ∧
    (∀ c, c ∈ cs → 0 ≤ c.1.1 < MX g ∧ 0 ≤ c.1.2 < MY g ∧ 0 ≤ c.2 < MZ g) ∧
    ∀ start, JS.get (first ip) turn = Some start →
             cs = drop (Z.to_nat start) (changes ip).
Proof.
  intros [Hfirst Hchanges]. unfold changes_since.
  destruct (JS.get (first ip) turn) as [start|] eqn:Hstart.
  - apply get_elem_of, Hfirst in Hstart. rewrite decide_False by lia.
    eexists. split; [done|]. split; [|by intros ? [= <-]].
    intros c Hc. apply Hchanges. by eapply subseteq_drop.
  - exists []. split; [done|]. split; [|done]. by intros ? ?%elem_of_nil.
Qed.

(** The anchors the incremental scan examines. *)
Lemma elem_of_inc_cands g rs cs rule q :
  grid_ok g → (∀ rule, rule ∈ rs → rule_ok g rule) →
  (∀ c, c ∈ cs → 0 ≤ c.1.1 < MX g ∧ 0 ≤ c.1.2 < MY g ∧ 0 ≤ c.2 < MZ g) →
  (rule, q) ∈ inc_cands g rs cs ↔
  JS.get rs (mr q) = Some rule ∧ fits g rule (mx q) (my q) (mz q) ∧
  ∃ x y z v, (x, y, z) ∈ cs ∧
    (0 ≤ x - mx q < IMX rule ∧ 0 ≤ y - my q < IMY rule ∧
     0 ≤ z - mz q < IMZ rule) ∧
    JS.get (state g) (cell_index g x y z) = Some v ∧
    input_accepts rule (x - mx q) (y - my q) (z - mz q) v = true.
Proof.
  intros Hg Hrules Hcs. unfold inc_cands. rewrite list_elem_of_bind. split.
  - intros ([[x y] z] & ([r rule'] & Hq & Hin%elem_of_indexed)
                         %list_elem_of_bind & Hc).
    apply list_elem_of_fmap in Hq as (q' & [= <- <-] & Hq).
    apply list_elem_of_filter in Hq as [Hfits%outside_false Hq].
    pose proof (Hcs _ Hc) as Hrange. cbn in Hrange, Hq.
    apply elem_of_cell_anchors in Hq as (<- & Hbox & v & Hv & Hacc);
      [|done|by eapply Hrules, get_elem_of|lia..].
    split; [done|]. split; [done|]. by exists x, y, z, v.
  - intros (Hget & Hfits & x & y & z & v & Hc & Hbox & Hv & Hacc).
    exists (x, y, z). split; [|done]. apply list_elem_of_bind.
    exists (mr q, rule). split; [|by apply elem_of_indexed].
    apply list_elem_of_fmap. exists q. split; [done|].
    apply list_elem_of_filter. split; [by apply outside_false|].
    pose proof (Hcs _ Hc) as Hrange. cbn in Hrange. cbn.
    apply elem_of_cell_anchors;
      [done|by eapply Hrules, get_elem_of|lia..|].
    split; [done|]. split; [done|]. by exists v.
Qed.

Lemma for_each_prefix {A S} (I : list A → S → Prop) (l : list A)
    (body : A → S → option S) s :
  I [] s →
  (∀ done a s, (∃ rest, l = done ++ a :: rest) → I done s →
     ∃ s', body a s = Some s' ∧ I (done ++ [a]) s') →
  ∃ s', for_each l body s = Some s' ∧ I l s'.
Proof.
  intros Hinit Hstep.
  assert (∀ rest done s, l = done ++ rest → I done s →
            ∃ s', for_each rest body s = Some s' ∧ I l s') as Hgen.
  { induction rest as [|a rest IH]; intros done s0 Hl Hdone; cbn.
    - exists s0. rewrite app_nil_r in Hl. by subst.
    - destruct (Hstep done a s0) as (s1 & -> & Hs1); [by exists rest|done|].
      cbn. apply (IH (done ++ [a])); [|done].
      by rewrite <- (assoc_L (++)). }
  by apply (Hgen l []).
Qed.

Lemma length_match_list n :
  0 ≤ matchCount n → Z.of_nat (length (match_list n)) = matchCount n.
Proof.
  intros Hc. unfold match_list, zrange.
  rewrite length_fmap, length_seqZ. lia.
Qed.

(** One candidate of the incremental scan: the matcher stays in order,
    matches are only appended, and afterwards the candidate is listed if
    it matches. *)
Lemma try_add_step g n rule q :
  grid_ok g → 8 * capacity g (rules n) + 8 ≤ 2 ^ 30 - 5 →
  matcher_ok g n →
  JS.get (rules n) (mr q) = Some rule →
  fits g rule (mx q) (my q) (mz q) → 1 ≤ IMX rule → 1 ≤ IMY rule →
  1 ≤ IMZ rule →
  ∃ n', try_add g (rule, q) n = Some n' ∧ matcher_frame n n' ∧
    matcher_ok g n' ∧
    (match_list n' = match_list n ∨
     match_list n' = match_list n ++ [q] ∧
     matches_at g rule (mx q) (my q) (mz q) = true) ∧
    (matches_at g rule (mx q) (my q) (mz q) = true → q ∈ match_list n').
Proof.
  intros Hg Hcap (Hbuf & (m & Hm & Hmok) & Hagree & Hnd & Hrange) Hget
    Hfits HX HY HZ.
  assert (in_range g (rules n) q) as Hq.
  { apply get_Some_range in Hget. unfold fits in Hfits.
    unfold in_range. lia. }
  destruct Hagree as (m' & Hm' & Hbits). rewrite Hm in Hm'.
  injection Hm' as <-.
  unfold try_add, maskr_get. rewrite Hm.
  change (default [] (Some m)) with m.
  destruct (mask_get m (mr q) (cell_index g (mx q) (my q) (mz q)))
    eqn:Hbit; cbn [negb andb].
  { exists n. split_and!; [done|done| |by left|].
    - split_and!; [done|by exists m|by exists m|done|done].
    - intros _. apply Hbits in Hbit as (q' & Hq' & Hr & Hi).
      pose proof (Hrange q' Hq') as (_ & ? & ? & _).
      destruct Hq as (_ & ? & ? & _).
      apply cell_index_inj in Hi as (? & ? & ?); [|done..].
      destruct q as [[[??]?]?], q' as [[[??]?]?].
      unfold mr, mx, my, mz in *. cbn in *. by subst. }
  destruct (matches_at g rule _ _ _) eqn:Hmatch.
  2:{ exists n. split_and!; [done|done| |by left|done].
      split_and!; [done|by exists m|by exists m|done|done]. }
  assert (q ∉ match_list n) as Hnew.
  { intros Hin. assert (mask_get m (mr q)
             (cell_index g (mx q) (my q) (mz q)) = true) as Hset.
    { apply Hbits. by exists q. }
    by rewrite Hset in Hbit. }
  assert (NoDup (match_list n ++ [q])) as Hnd'.
  { apply NoDup_app. split_and!; [done| |apply NoDup_singleton].
    intros q' Hq' ->%list_elem_of_singleton. done. }
  assert (∀ q', q' ∈ match_list n ++ [q] → in_range g (rules n) q')
    as Hrange'.
  { intros q' [?| ->%list_elem_of_singleton]%elem_of_app; auto. }
  pose proof (NoDup_length_capacity g (rules n) _ Hg Hnd' Hrange') as Hle.
  rewrite length_app, Nat2Z.inj_add, length_match_list in Hle
    by (by destruct Hbuf).
  cbn in Hle.
  destruct (in_range_u32 g (rules n) q) as (Hr & Hx & Hy & Hz);
    [lia|by destruct Hg..|done|].
  destruct q as [[[r x] y] z]. unfold mr, mx, my, mz in *.
  cbn [fst snd] in *.
  change (add_match g (r, x, y, z) n) with (add g r x y z (Some r) n).
  destruct (add_spec g r x y z r m n) as (n' & -> & Hn' & Hbuf' & Hlist');
    [done|lia|done..|].
  exists n'. split_and!; [done| | |by right|].
  - rewrite Hn'. by eexists _, _, _.
  - assert (rules n' = rules n) as Hrules by (by rewrite Hn').
    assert (matchMask n' = Some (mask_set m r (cell_index g x y z)))
      as Hmask by (by rewrite Hn').
    unfold matcher_ok, mask_agrees.
    rewrite Hrules, Hmask, Hlist'.
    split_and!; [done| | |done|done].
    + eexists. split; [done|]. by apply mask_set_ok.
    + eexists. split; [done|]. intros r' i'.
      rewrite (mask_get_set g (rules n));
        [|done|by destruct Hq|by apply (in_range_index g (rules n) (r, x, y, z))].
      rewrite Hbits. split.
      * intros [[-> ->]|(q' & ? & ? & ?)].
        -- exists (r, x, y, z). split; [|done].
           apply elem_of_app. right. left.
        -- exists q'. split; [|done]. apply elem_of_app. by left.
      * intros (q' & [?| ->%list_elem_of_singleton]%elem_of_app & <- & <-).
        -- right. by exists q'.
        -- by left.
  - intros _. rewrite Hlist'. apply elem_of_app. right. left.
Qed.

Lemma match_list_same a b :
  matches a = matches b → matchCount a = matchCount b →
  match_list a = match_list b.
Proof. unfold match_list. by intros -> ->. Qed.

Lemma matcher_ok_same g a b :
  same_matcher a b → matcher_ok g a → matcher_ok g b.
Proof.
  intros (Hr & Hb & Hc & Hm & _).
  unfold matcher_ok, mask_agrees, buffer_ok.
  by rewrite (match_list_same a b), Hr, Hb, Hc, Hm.
Qed.

(** The incremental scan returns; it keeps the matcher in order, only
    appends matches of the grid, and leaves listed every anchor it
    examined that matches. *)
Lemma scan_changes_spec g ip n :
  grid_ok g → (∀ rule, rule ∈ rules n → rule_ok g rule) → log_ok g ip →
  8 * capacity g (rules n) + 8 ≤ 2 ^ 30 - 5 → matcher_ok g n →
  ∃ n' cs, changes_since ip (lastMatchedTurn n) = Some cs ∧
    scan_changes g ip n = Some n' ∧ matcher_frame n n' ∧
    matcher_ok g n' ∧
    (∃ added, match_list n' = match_list n ++ added ∧
              ∀ q, q ∈ added → is_match g (rules n) q) ∧
    (∀ rule q, (rule, q) ∈ inc_cands g (rules n) cs →
       matches_at g rule (mx q) (my q) (mz q) = true →
       q ∈ match_list n').
Proof.
  intros Hg Hrules Hlog Hcap Hok.
  destruct (changes_since_ok g ip (lastMatchedTurn n) Hlog)
    as (cs & Hcs & Hrange & _).
  unfold scan_changes. rewrite Hcs. cbn [mbind option_bind].
  rewrite scan_changes_eq; [|done|done| |done].
  2:{ destruct Hok as (_ & (m & -> & _) & _). by eexists. }
  destruct (for_each_prefix
    (λ done s, matcher_frame n s ∧ matcher_ok g s ∧
       (∃ added, match_list s = match_list n ++ added ∧
                 ∀ q, q ∈ added → is_match g (rules n) q) ∧
       (∀ rule q, (rule, q) ∈ done →
          matches_at g rule (mx q) (my q) (mz q) = true →
          q ∈ match_list s))
    (inc_cands g (rules n) cs) (try_add g) n) as (n' & Hrun & Hn').
  - split_and!; [done|done| |by intros ?? ?%elem_of_nil].
    exists []. split; [by rewrite app_nil_r|by intros ? ?%elem_of_nil].
  - intros done [rule q] s [rest Hl]
      (Hframe & Hs & (added & Hadded & Hmatch) & Hdone).
    assert ((rule, q) ∈ inc_cands g (rules n) cs) as Hcand.
    { rewrite Hl. apply elem_of_app. right. left. }
    apply elem_of_inc_cands in Hcand as (Hget & Hfits & _); [|done..].
    assert (rules s = rules n) as Hrs.
    { by destruct Hframe as (? & ? & ? & ->). }
    destruct (Hrules rule) as (? & ? & ? & _); [by eapply get_elem_of|].
    destruct (try_add_step g s rule q)
      as (s' & Hstep & Hframe' & Hs' & Hlist & Hnow);
      [done|by rewrite Hrs|done|by rewrite Hrs|done..|].
    exists s'. split; [done|]. split_and!.
    + by trans s.
    + done.
    + destruct Hlist as [->|[-> Hm]]; [by exists added|].
      exists (added ++ [q]). split; [by rewrite Hadded, (assoc_L (++))|].
      intros q' [?| ->%list_elem_of_singleton]%elem_of_app; [by auto|].
      by exists rule.
    + intros rule' q' [Hin|Heq%list_elem_of_singleton]%elem_of_app Hm;
        [|injection Heq as -> ->; by auto].
      specialize (Hdone _ _ Hin Hm).
      destruct Hlist as [->|[-> _]]; [done|]. apply elem_of_app. by left.
  - exists n', cs. by destruct Hn' as (? & ? & ? & ?).
Qed.

(** What a call of [run] that returns did to the matcher: nothing, or the
    refresh of the matches. *)
Lemma run_inv g ip n out :
  run g ip n = Some out →
  first (interpreter out) = first ip ∧
  changes (interpreter out) = changes ip ∧
  ∃ n1, same_matcher n n1 ∧
    (same_matcher n1 (node out) ∨
     ∃ n2, refresh_matches g (interpreter out) n1 = Some n2 ∧
           same_matcher n2 (node out)).
Proof.
  unfold run. destruct (step_limit_reached _).
  { intros [= <-]. cbn. split_and!; [done..|].
    exists n. split; [done|]. by left. }
  unfold run_unlimited.
  intros ([[flow n1] ip1] & Hobs & Hrun)%bind_Some.
  apply observe_frame in Hobs
    as (? & _ & _ & _ & ? & ? & ? & ? & ? & ?). cbn in *.
  destruct flow as [r|].
  { simplify_eq. cbn. split_and!; [done..|].
    exists n1. split; [done|]. by left. }
  unfold finish in Hrun.
  apply bind_Some in Hrun as (n2 & Hscan & Hrun).
  apply bind_Some in Hrun
    as ([[flow n3] calls] & [p ->]%run_fields_frame & Hrun).
  assert (out = Build_Outcome (returned out) (set_potentials p n2) ip1 calls)
    as ->.
  { destruct flow; by simplify_eq. }
  cbn. split_and!; [done..|]. exists n1. split; [done|].
  right. by exists n2.
Qed.

(** ** The mask and the match list *)

(** C9 (as amended).  Take a node whose matcher is in order, on a grid,
    rules and change log as the interpreter makes them, and a call of
    [run] that returns.  If [lastMatchedTurn >= 0] (incremental rescan),
    then afterwards a bit [matchMask[r][i]] is set iff some
    [(r, x, y, z)] with [x + y*MX + z*MX*MY = i] occurs in
    [matches[0..matchCount)].  If [lastMatchedTurn < 0] (full rescan, as
    after [reset]), the bits set at entry stay set: afterwards a bit is
    set iff it was set at entry or a listed match has it; so the link
    holds again when every match listed at entry is still a match of the
    grid.  [reset] itself changes neither the list nor the mask. *)
Theorem C9_mask_and_matches (g : Grid) (ip : Interpreter PRNG)
    (n : RuleNode) (out : Outcome) :
  grid_ok g → (∀ rule, rule ∈ rules n → rule_ok g rule) → log_ok g ip →
  8 * capacity g (rules n) + 8 ≤ 2 ^ 30 - 5 →
  matcher_ok g n →
  run g ip n = Some out →
  (lastMatchedTurn n >= 0 →
     mask_agrees g (node out) ∧ matcher_ok g (node out)) ∧
  (lastMatchedTurn n < 0 →
     (∃ m m', matchMask n = Some m ∧ matchMask (node out) = Some m' ∧
        ∀ r i, mask_get m' r i = true ↔
          mask_get m r i = true ∨
          ∃ q, q ∈ match_list (node out) ∧ mr q = r ∧
               cell_index g (mx q) (my q) (mz q) = i) ∧
     ((∀ q, q ∈ match_list n → is_match g (rules n) q) →
        mask_agrees g (node out))) ∧
  (match_list (reset n) = match_list n ∧
   matchMask (reset n) = matchMask n ∧ lastMatchedTurn (reset n) = -1).
Proof.
  intros Hg Hrules Hlog Hcap Hok Hrun.
  destruct (run_inv g ip n out Hrun) as (Hfirst & Hchanges & n1 & Hn1 & Hout).
  pose proof (matcher_ok_same g n n1 Hn1 Hok) as Hok1.
  pose proof Hn1 as (Hr1 & Hb1 & Hc1 & Hm1 & Hl1).
  assert (log_ok g (interpreter out)) as Hlog'.
  { unfold log_ok. by rewrite Hfirst, Hchanges. }
  pose proof Hok as (Hbuf & (m & Hm & Hmok) & Hagree & Hnd & Hrange).
  split; [|split; [|done]].
  - intros Hturn. destruct Hout as [Hsame|(n2 & Hscan & Hsame)].
    + pose proof (matcher_ok_same g n1 _ Hsame Hok1) as Hok'.
      split; [|done]. by destruct Hok' as (_ & _ & ? & _).
    + unfold refresh_matches in Hscan.
      rewrite decide_True in Hscan by lia.
      destruct (scan_changes_spec g (interpreter out) n1)
        as (n' & cs & _ & Hscan' & _ & Hok2 & _);
        [done|by rewrite <- Hr1|done|by rewrite <- Hr1|done|].
      rewrite Hscan' in Hscan. injection Hscan as ->.
      pose proof (matcher_ok_same g n2 _ Hsame Hok2) as Hok'.
      split; [|done]. by destruct Hok' as (_ & _ & ? & _).
  - intros Hturn.
    assert (∃ m', matchMask (node out) = Some m' ∧
              (∀ r i, mask_get m' r i = true ↔
                 mask_get m r i = true ∨
                 ∃ q, q ∈ match_list (node out) ∧ mr q = r ∧
                      cell_index g (mx q) (my q) (mz q) = i) ∧
              ((∀ q, q ∈ match_list n → is_match g (rules n) q) →
               ∀ q, q ∈ match_list n → q ∈ match_list (node out)))
      as (m' & Hm' & Hbits & Hkept).
    { destruct Hout as [Hsame|(n2 & Hscan & Hsame)].
      - destruct Hsame as (_ & Hb & Hc & Hmask & _).
        exists m. rewrite <- Hmask, <- Hm1.
        rewrite <- (match_list_same n1 (node out)) by done.
        rewrite <- (match_list_same n n1) by done.
        split; [done|]. split; [|done].
        destruct Hagree as (m0 & Hm0 & Hbits). rewrite Hm in Hm0.
        injection Hm0 as <-. intros r i. rewrite Hbits. tauto.
      - unfold refresh_matches in Hscan.
        rewrite decide_False in Hscan by lia.
        destruct (scan_grid_spec g n1 m)
          as (n' & Hscan' & _ & _ & Hlist & Hmask);
          [done|by rewrite <- Hr1|by rewrite <- Hm1|
           rewrite <- Hb1; by destruct Hbuf as (_ & _ & ?)|
           by rewrite <- Hr1|].
        rewrite Hscan' in Hscan. injection Hscan as ->.
        destruct Hsame as (_ & Hb & Hc & Hmask' & _).
        rewrite <- Hr1 in Hlist, Hmask.
        destruct (full_cands_spec g (rules n) Hg Hrules) as [_ Hin].
        exists (mask_with g m (full_cands g (rules n))).
        rewrite <- Hmask', <- (match_list_same n2 (node out)), Hlist by done.
        split; [done|]. split.
        + intros r i. apply (mask_with_get g (rules n)); [done..|].
          intros q Hq. by apply is_match_in_range, Hin.
        + intros Hstill q Hq. by apply Hin, Hstill. }
    split; [by exists m, m'|].
    intros Hstill. exists m'. split; [done|].
    intros r i. rewrite Hbits. split; [|by right].
    intros [Hbit|?]; [|done].
    destruct Hagree as (m0 & Hm0 & Hbits0). rewrite Hm in Hm0.
    injection Hm0 as <-.
    apply Hbits0 in Hbit as (q & Hq & ? & ?). exists q.
    split; [by apply Hkept|done].
Qed.

(** ** Incremental and full rescan *)

Lemma elem_of_offsets rule i j k :
  (i, j, k) ∈ offsets rule ↔
  0 ≤ i < IMX rule ∧ 0 ≤ j < IMY rule ∧ 0 ≤ k < IMZ rule.
Proof.
  unfold offsets, zrange. rewrite list_elem_of_bind. split.
  - intros (k' & (j' & (i' & Heq%list_elem_of_singleton & Hi)
                          %list_elem_of_bind & Hj)%list_elem_of_bind & Hk).
    injection Heq as -> -> ->. apply elem_of_seqZ in Hi, Hj, Hk. lia.
  - intros (Hi & Hj & Hk). exists k. split; [|apply elem_of_seqZ; lia].
    apply list_elem_of_bind. exists j. split; [|apply elem_of_seqZ; lia].
    apply list_elem_of_bind. exists i. split; [|apply elem_of_seqZ; lia].
    left.
Qed.

(** [grid.matches] looks at the cells of the box only. *)
Lemma matches_at_ext g g' rule x y z :
  (∀ i j k, 0 ≤ i < IMX rule → 0 ≤ j < IMY rule → 0 ≤ k < IMZ rule →
     JS.get (state g) (cell_index g (x + i) (y + j) (z + k)) =
     JS.get (state g') (cell_index g' (x + i) (y + j) (z + k))) →
  matches_at g rule x y z = matches_at g' rule x y z.
Proof.
  intros Hsame. apply eq_true_iff_eq. rewrite !matches_at_true.
  split; intros Hm i j k Hi Hj Hk;
    destruct (Hm i j k Hi Hj Hk) as (v & Hv & Hacc); exists v;
    (split; [|done]); [rewrite <- Hsame|rewrite Hsame]; done.
Qed.

(** A match of the new state that was none of the old has in its box a
    cell that changed. *)
Lemma new_match_changed_cell g g' rule x y z :
  matches_at g rule x y z ≠ true → matches_at g' rule x y z = true →
  ∃ i j k, (0 ≤ i < IMX rule ∧ 0 ≤ j < IMY rule ∧ 0 ≤ k < IMZ rule) ∧
    JS.get (state g) (cell_index g (x + i) (y + j) (z + k)) ≠
    JS.get (state g') (cell_index g' (x + i) (y + j) (z + k)).
Proof.
  intros Hold Hnew.
  destruct (decide (Forall (λ d : Z * Z * Z,
      JS.get (state g) (cell_index g (x + d.1.1) (y + d.1.2) (z + d.2)) =
      JS.get (state g') (cell_index g' (x + d.1.1) (y + d.1.2) (z + d.2)))
    (offsets rule))) as [Hall|Hex].
  - destruct Hold. rewrite <- Hnew. apply matches_at_ext.
    intros i j k Hi Hj Hk. rewrite Forall_forall in Hall.
    apply (Hall (i, j, k)). by apply elem_of_offsets.
  - apply not_Forall_Exists in Hex; [|apply _].
    apply Exists_exists in Hex as ([[i j] k] & Hin%elem_of_offsets & Hne).
    by exists i, j, k.
Qed.

(** C1 (as amended).  Let the node list every match of the grid as it
    was, its matcher in order, and let the cells changed since be in
    [changes[first[lastMatchedTurn]..]].  Then the incremental rescan
    ([lastMatchedTurn >= 0]) and the full rescan of the same grid state
    (the node after [reset]) both return, and the matches the incremental
    rescan leaves listed that still hold on the grid are, as a multiset,
    the matches the full rescan lists.  (The incremental rescan removes
    nothing: matches that no longer hold stay listed.) *)
Theorem C1_incremental_full (g0 g : Grid) (ip : Interpreter PRNG)
    (n : RuleNode) (cs : list (Z * Z * Z)) :
  grid_ok g → same_shape g0 g →
  (∀ rule, rule ∈ rules n → rule_ok g rule) → log_ok g ip →
  8 * capacity g (rules n) + 8 ≤ 2 ^ 30 - 5 →
  matcher_ok g n → (∀ q, is_match g0 (rules n) q → q ∈ match_list n) →
  lastMatchedTurn n >= 0 →
  changes_since ip (lastMatchedTurn n) = Some cs → edits_logged g0 g cs →
  ∃ n_inc n_full,
    refresh_matches g ip n = Some n_inc ∧
    refresh_matches g ip (reset n) = Some n_full ∧
    filter (is_match g (rules n)) (match_list n_inc) ≡ₚ match_list n_full.
Proof.
  intros Hg (HX & HY & HZ & HC) Hrules Hlog Hcap Hok Hcover Hturn Hcs Hlogged.
  pose proof Hok as (Hbuf & (m & Hm & Hmok) & _ & Hnd & Hrange).
  destruct (scan_changes_spec g ip n)
    as (n_inc & cs' & Hcs' & Hinc & _ & Hok' & (added & Hlist & _) & Hseen);
    [done..|].
  rewrite Hcs in Hcs'. injection Hcs' as <-.
  destruct (scan_grid_spec g (reset n) m)
    as (n_full & Hfull & _ & _ & Hlistf & _);
    [done|done|done|by destruct Hbuf as (_ & _ & ?)|done|].
  cbn in Hlistf.
  exists n_inc, n_full. split_and!.
  - unfold refresh_matches. by rewrite decide_True by lia.
  - unfold refresh_matches. by rewrite decide_False by (cbn; lia).
  - destruct (full_cands_spec g (rules n) Hg Hrules) as [Hndf Hin].
    rewrite Hlistf. apply NoDup_Permutation; [|done|].
    { apply NoDup_filter. by destruct Hok' as (_ & _ & _ & ? & _). }
    intros q. rewrite list_elem_of_filter, Hin.
    split; [by intros [? _]|]. intros Hq. split; [done|].
    destruct Hq as (rule & Hget & Hfits & Hmatch).
    destruct (decide (matches_at g0 rule (mx q) (my q) (mz q) = true))
      as [Hold|Hold].
    + rewrite Hlist. apply elem_of_app. left. apply Hcover.
      exists rule. split; [done|]. split; [|done].
      unfold fits in *. rewrite HX, HY, HZ. done.
    + destruct (new_match_changed_cell g0 g rule _ _ _ Hold Hmatch)
        as (i & j & k & Hbox & Hne).
      destruct (Hrules rule) as (? & ? & ? & _); [by eapply get_elem_of|].
      unfold fits in Hfits.
      apply Hlogged in Hne; [|lia..].
      apply (Hseen rule); [|done].
      apply elem_of_inc_cands; [done|done| |].
      { destruct (changes_since_ok g ip (lastMatchedTurn n))
          as (cs'' & Hcs'' & Hr'' & _); [done|].
        rewrite Hcs in Hcs''. by injection Hcs'' as <-. }
      split; [done|]. split; [done|].
      pose proof (proj1 (matches_at_true _ _ _ _ _) Hmatch i j k)
        as (v & Hv & Hacc); [lia..|].
      exists (mx q + i), (my q + j), (mz q + k), v.
      replace (mx q + i - mx q) with i by lia.
      replace (my q + j - my q) with j by lia.
      replace (mz q + k - mz q) with k by lia.
      done.
Qed.

(** ** The table of shifts of the spec

    The table built as the spec describes it is one the scans can rely
    on. *)
Lemma NoDup_offsets rule : NoDup (offsets rule).
Proof.
  unfold offsets, zrange.
  apply NoDup_bind; [| |apply NoDup_seqZ].
  { intros k1 k2 [[i j] k] _ _.
    intros (? & (? & [= _ _ ->]%list_elem_of_singleton & _)
                  %list_elem_of_bind & _)%list_elem_of_bind.
    intros (? & (? & [= _ _ ->]%list_elem_of_singleton & _)
                  %list_elem_of_bind & _)%list_elem_of_bind.
    done. }
  intros k _. apply NoDup_bind; [| |apply NoDup_seqZ].
  { intros j1 j2 [[i j] k'] _ _.
    intros (? & [= _ -> _]%list_elem_of_singleton & _)%list_elem_of_bind.
    intros (? & [= _ -> _]%list_elem_of_singleton & _)%list_elem_of_bind.
    done. }
  intros j _. apply NoDup_bind; [| |apply NoDup_seqZ].
  { intros i1 i2 [[i j'] k'] _ _.
    intros [= -> _ _]%list_elem_of_singleton.
    by intros [= -> _ _]%list_elem_of_singleton. }
  intros i _. apply NoDup_singleton.
Qed.

Lemma make_ishifts_ok c rule :
  0 ≤ c → ishifts rule = make_ishifts c rule → ishifts_ok c rule.
Proof.
  intros Hc Heq. unfold ishifts_ok. rewrite Heq. unfold make_ishifts.
  split; [unfold zrange; by rewrite length_fmap, length_seqZ|].
  intros v sh Hv. unfold JS.get in Hv. case_decide; [|done].
  rewrite list_lookup_fmap in Hv.
  apply fmap_Some in Hv as (v' & Hv' & ->).
  apply lookup_seqZ in Hv' as [-> _].
  rewrite Z.add_0_l, Z2Nat.id by done.
  split; [apply NoDup_filter, NoDup_offsets|].
  intros dx dy dz. rewrite list_elem_of_filter, elem_of_offsets. cbn.
  tauto.
Qed.

(** ** The first full scan

    From a clear mask the full scan puts the matcher in order. *)
Lemma scan_grid_establishes g n m :
  grid_ok g → (∀ rule, rule ∈ rules n → rule_ok g rule) →
  matchMask n = Some m → mask_ok g (rules n) m →
  (∀ r i, mask_get m r i = false) →
  Z.of_nat (length (matches n)) ≤ 2 ^ 30 - 5 →
  8 * capacity g (rules n) + 8 ≤ 2 ^ 30 - 5 →
  ∃ n', scan_grid g n = Some n' ∧ matcher_frame n n' ∧ matcher_ok g n' ∧
    ∀ q, q ∈ match_list n' ↔ is_match g (rules n) q.
Proof.
  intros Hg Hrules Hm Hmok Hclear Hlen Hcap.
  destruct (scan_grid_spec g n m) as (n' & Hscan & Hframe & Hbuf & Hlist & Hmask);
    [done..|].
  destruct (full_cands_spec g (rules n) Hg Hrules) as [Hnd Hin].
  assert (rules n' = rules n) as Hr.
  { by destruct Hframe as (? & ? & ? & ->). }
  assert (∀ q, q ∈ full_cands g (rules n) → in_range g (rules n) q)
    as Hrange.
  { intros q Hq. by apply is_match_in_range, Hin. }
  exists n'. split_and!; [done|done| |by rewrite Hlist].
  unfold matcher_ok, mask_agrees. rewrite Hr, Hlist, Hmask.
  split_and!; [done| | |done|done].
  - eexists. split; [done|]. by apply mask_with_ok.
  - eexists. split; [done|]. intros r i.
    rewrite (mask_with_get g (rules n)) by done.
    rewrite Hclear. split; [intros [?|?]; done|by right].
Qed.

Lemma mask_get_clear rows cols r i :
  mask_get (replicate rows (replicate cols false)) r i = false.
Proof.
  unfold mask_get.
  destruct (JS.get _ r) as [row|] eqn:Hrow; cbn; [|done].
  apply get_elem_of, elem_of_replicate in Hrow as [-> _].
  destruct (JS.get _ i) as [b|] eqn:Hb; cbn; [|done].
  by apply get_elem_of, elem_of_replicate in Hb as [-> _].
Qed.

Lemma mask_ok_clear g rs :
  mask_ok g rs (replicate (length rs) (replicate (length (state g)) false)).
Proof.
  split; [by rewrite length_replicate|].
  apply Forall_forall. intros row [-> _]%elem_of_replicate.
  by rewrite length_replicate.
Qed.

(** The matcher is in order whatever the state of the grid holds. *)
Lemma matcher_ok_shape g g' n :
  same_shape g g' → length (state g) = length (state g') →
  matcher_ok g n → matcher_ok g' n.
Proof.
  intros (HX & HY & HZ & _) Hlen.
  unfold matcher_ok, mask_agrees, mask_ok, in_range, cell_index.
  by rewrite HX, HY, HZ, Hlen.
Qed.

End Claims.

(** * Further properties of the rewrite node *)

Section Node.
Context `{Collaborators}.

(** ** [add] *)

Lemma get_app_r_zero (l : list Z) k i :
  Z.of_nat (length l) ≤ i < Z.of_nat (length l + k) →
  JS.get (l ++ replicate k 0) i = Some 0.
Proof.
  intros Hi. unfold JS.get. rewrite decide_True by lia.
  rewrite lookup_app_r by lia. apply lookup_replicate_2. lia.
Qed.

Lemma get_write_quad_ne buf offset r x y z i :
  ¬ (offset ≤ i < offset + 4) →
  JS.get (write_quad buf offset r x y z) i = JS.get buf i.
Proof.
  intros Hi. unfold write_quad. by rewrite !get_u32_set_ne by lia.
Qed.

(** X1.  [add] on a buffer that holds its [matchCount] matches (and is
    shorter than 2^30 numbers) returns.  It counts one match more and
    stores the tuple, each number modulo 2^32, in the four slots from
    [4 * matchCount] on.  The buffer keeps its length when
    [4 * matchCount + 4] is below it, and otherwise grows to twice its
    length plus 8, the new slots being 0; every other slot keeps its
    value, and afterwards the buffer is strictly longer than the matches
    it counts. *)
Theorem X1_add_buffer (g : Grid) (r x y z row : Z) (n : RuleNode) :
  buffer_ok n →
  ∃ n', add g r x y z (Some row) n = Some n' ∧
    matchCount n' = matchCount n + 1 ∧
    quad_at (matches n') (matchCount n) =
      (r mod 2 ^ 32, x mod 2 ^ 32, y mod 2 ^ 32, z mod 2 ^ 32) ∧
    Z.of_nat (length (matches n')) =
      (if decide (4 * matchCount n + 4 < Z.of_nat (length (matches n)))
       then Z.of_nat (length (matches n))
       else 2 * Z.of_nat (length (matches n)) + 8) ∧
    4 * matchCount n' < Z.of_nat (length (matches n')) ∧
    ∀ i, 0 ≤ i < Z.of_nat (length (matches n')) →
         ¬ (4 * matchCount n ≤ i < 4 * matchCount n + 4) →
         JS.get (matches n') i =
           if decide (i < Z.of_nat (length (matches n)))
           then JS.get (matches n) i else Some 0.
Proof.
  intros (Hc & Hlo & Hhi). unfold add. cbn.
  rewrite shl_small by lia.
  replace (matchCount n * 2 ^ 2) with (4 * matchCount n) by lia.
  assert (∀ buf, 4 * matchCount n + 4 ≤ Z.of_nat (length buf) →
            quad_at (write_quad buf (4 * matchCount n) r x y z)
              (matchCount n) =
            (r mod 2 ^ 32, x mod 2 ^ 32, y mod 2 ^ 32, z mod 2 ^ 32))
    as Hquad.
  { intros buf Hlen. unfold quad_at, write_quad.
    replace (4 * matchCount n) with (4 * matchCount n + 0) at 5 by lia.
    rewrite !get_u32_set_ne by lia.
    rewrite get_u32_set_eq by lia.
    rewrite (get_u32_set_ne _ (4 * matchCount n + 3) (4 * matchCount n + 1))
      by lia.
    rewrite (get_u32_set_ne _ (4 * matchCount n + 2) (4 * matchCount n + 1))
      by lia.
    rewrite get_u32_set_eq by (rewrite length_u32_set; lia).
    rewrite (get_u32_set_ne _ (4 * matchCount n + 3) (4 * matchCount n + 2))
      by lia.
    rewrite get_u32_set_eq by (rewrite !length_u32_set; lia).
    rewrite get_u32_set_eq by (rewrite !length_u32_set; lia).
    done. }
  case_decide as Hfit.
  - eexists. split; [done|]. cbn. rewrite length_write_quad.
    split_and!; [done|apply Hquad; lia|done|lia|].
    intros i Hi Hout. rewrite decide_True by lia.
    by apply get_write_quad_ne.
  - rewrite shl_small by lia. rewrite decide_False by lia.
    eexists. split; [done|]. cbn. rewrite length_write_quad.
    assert (Z.of_nat (length (matches n ++
              replicate (Z.to_nat ((Z.of_nat (length (matches n)) + 4) * 2 ^ 1)
                         - length (matches n)) 0)) =
            2 * Z.of_nat (length (matches n)) + 8) as Hlen.
    { rewrite length_app, length_replicate. lia. }
    rewrite Hlen.
    split_and!; [done|apply Hquad; lia|done|lia|].
    intros i Hi Hout. rewrite get_write_quad_ne by done.
    case_decide.
    + by apply get_app_l.
    + apply get_app_r_zero. lia.
Qed.

(** ** [run]: the refresh of the matches *)

(** X2.  The incremental rescan ([lastMatchedTurn >= 0]) of a node whose
    matcher is in order returns and only appends: the matches listed
    before stay where they are, in their order, and what is appended are
    matches of the current grid that were not listed, each once. *)
Theorem X2_incremental_appends (g : Grid) (ip : Interpreter PRNG)
    (n : RuleNode) :
  grid_ok g → (∀ rule, rule ∈ rules n → rule_ok g rule) → log_ok g ip →
  8 * capacity g (rules n) + 8 ≤ 2 ^ 30 - 5 → matcher_ok g n →
  lastMatchedTurn n >= 0 →
  ∃ n' added, refresh_matches g ip n = Some n' ∧
    match_list n' = match_list n ++ added ∧
    NoDup added ∧
    ∀ q, q ∈ added → is_match g (rules n) q ∧ q ∉ match_list n.
Proof.
  intros Hg Hrules Hlog Hcap Hok Hturn.
  destruct (scan_changes_spec g ip n)
    as (n' & cs & _ & Hscan & _ & Hok' & (added & Hlist & Hadded) & _);
    [done..|].
  exists n', added. unfold refresh_matches. rewrite decide_True by done.
  destruct Hok' as (_ & _ & _ & Hnd & _). rewrite Hlist in Hnd.
  apply NoDup_app in Hnd as (_ & Hnew & Hnd).
  split_and!; [done..|]. intros q Hq. split; [by apply Hadded|].
  intros Hin. by eapply Hnew.
Qed.

Lemma fill0_fill0 l : JS.fill0 (JS.fill0 l) = JS.fill0 l.
Proof. unfold JS.fill0. by rewrite length_replicate. Qed.

(** X3.  When nothing was logged since the turn of the last match (the
    entry of [ip.first] for [lastMatchedTurn] is the length of
    [ip.changes], or is missing), a node that has no observation to
    compute and no field is left as it is by [run], but for [last], which
    is cleared; [run] returns SUCCESS. *)
Theorem X3_nothing_changed (g : Grid) (ip : Interpreter PRNG)
    (n : RuleNode) :
  step_limit_reached n = false →
  observations n = None ∨ futureComputed n = true →
  fields n = None →
  lastMatchedTurn n >= 0 →
  (∀ start, JS.get (first ip) (lastMatchedTurn n) = Some start →
            Z.of_nat (length (changes ip)) ≤ start) →
  run g ip n =
    Some (Build_Outcome SUCCESS (set_last (JS.fill0 (last n)) n) ip []).
Proof.
  intros Hlimit Hobs Hfields Hturn Hlog. unfold run.
  assert (step_limit_reached (set_last (JS.fill0 (last n)) n) = false)
    as -> by done.
  unfold run_unlimited.
  assert (observe g ip (set_last (JS.fill0 (last n)) n) =
          Some (Continue, set_last (JS.fill0 (last n)) n, ip)) as ->.
  { unfold observe. cbn. destruct Hobs as [-> | ->]; [done|].
    by destruct (observations n). }
  cbn. unfold finish, refresh_matches. cbn.
  rewrite decide_True by done. unfold scan_changes, changes_since. cbn.
  destruct (JS.get (first ip) (lastMatchedTurn n)) as [start|] eqn:Hstart.
  - specialize (Hlog start eq_refl). rewrite decide_False by lia.
    rewrite drop_ge by lia. cbn. unfold run_fields. cbn.
    by rewrite Hfields.
  - cbn. unfold run_fields. cbn. by rewrite Hfields.
Qed.

(** ** [run]: what it leaves alone *)

Lemma observe_keeps g ip n flow n' ip' :
  observe g ip n = Some (flow, n', ip') →
  observations n' = observations n ∧ temperature n' = temperature n ∧
  search n' = search n ∧ limit n' = limit n ∧
  depthCoefficient n' = depthCoefficient n ∧ last n' = last n ∧
  isAllNode n' = isAllNode n.
Proof.
  unfold observe, start_search. intros Ho.
  repeat (case_match; simplify_eq/=); try done.
  all: try (apply bind_Some in Ho as (? & ? & ?); simplify_eq/=; done).
Qed.

(** X4.  A call of [run] that returns leaves the rules, [counter],
    [steps], [lastMatchedTurn], the fields, the observations and the
    parameters [temperature], [search], [limit] and [depthCoefficient] as
    they were; [last] is cleared on every path; the change log of the
    interpreter is not touched.  Advancing [counter] and
    [lastMatchedTurn] is left to the callers of [run]. *)
Theorem X4_run_frame (g : Grid) (ip : Interpreter PRNG) (n : RuleNode)
    (out : Outcome) :
  run g ip n = Some out →
  (rules (node out) = rules n ∧ counter (node out) = counter n ∧
   steps (node out) = steps n ∧
   lastMatchedTurn (node out) = lastMatchedTurn n) ∧
  (fields (node out) = fields n ∧
   observations (node out) = observations n ∧
   temperature (node out) = temperature n ∧ search (node out) = search n ∧
   limit (node out) = limit n ∧
   depthCoefficient (node out) = depthCoefficient n) ∧
  last (node out) = JS.fill0 (last n) ∧
  first (interpreter out) = first ip ∧
  changes (interpreter out) = changes ip.
Proof.
  unfold run. destruct (step_limit_reached _).
  { by intros [= <-]. }
  unfold run_unlimited.
  intros ([[flow n1] ip1] & Hobs & Hrun)%bind_Some.
  pose proof (observe_frame _ _ _ _ _ _ Hobs)
    as (? & ? & ? & ? & _ & _ & _ & ? & ? & ?).
  pose proof (observe_keeps _ _ _ _ _ _ Hobs)
    as (? & ? & ? & ? & ? & ? & _).
  cbn in *. destruct flow as [r|].
  { by simplify_eq. }
  pose proof (finish_frame _ _ _ _ Hrun) as (m & buf & c & p & Hnode).
  assert (interpreter out = ip1) as ->.
  { unfold finish in Hrun.
    apply bind_Some in Hrun as (n2 & _ & Hrun).
    apply bind_Some in Hrun as ([[flow n3] calls] & _ & Hrun).
    destruct flow; by simplify_eq. }
  rewrite Hnode. done.
Qed.

(** X5.  [run] draws from the generator of random numbers of the
    interpreter at most once, and only to seed a search it starts: when
    the generator has moved, the node is in search mode with observations,
    [futureComputed] was false and no coroutine was under way, and the
    generator is one [int32()] further. *)
Theorem X5_run_draws_once (g : Grid) (ip : Interpreter PRNG) (n : RuleNode)
    (out : Outcome) :
  run g ip n = Some out →
  rng (interpreter out) = rng ip ∨
  rng (interpreter out) = (int32 (rng ip)).2 ∧
  search n = true ∧ is_Some (observations n) ∧ futureComputed n = false ∧
  searching n = None ∧ step_limit_reached n = false.
Proof.
  unfold run.
  assert (step_limit_reached (set_last (JS.fill0 (last n)) n) =
          step_limit_reached n) as -> by done.
  destruct (step_limit_reached n) eqn:Hlimit.
  { intros [= <-]. by left. }
  unfold run_unlimited.
  intros ([[flow n1] ip1] & Hobs & Hrun)%bind_Some.
  assert (interpreter out = ip1) as ->.
  { destruct flow as [r|]; [by simplify_eq|].
    unfold finish in Hrun.
    apply bind_Some in Hrun as (n2 & _ & Hrun).
    apply bind_Some in Hrun as ([[flow n3] calls] & _ & Hrun).
    destruct flow; by simplify_eq. }
  clear Hrun. unfold observe in Hobs. cbn in Hobs.
  destruct (observations n) as [obs|]; [|simplify_eq; by left].
  destruct (futureComputed n); [simplify_eq; by left|].
  destruct (search n); cbn in Hobs.
  2:{ destruct (computeFutureSetPresent _ _ _) as [[] fut];
        cbn in Hobs; [|simplify_eq; by left].
      apply bind_Some in Hobs as (? & _ & ?). simplify_eq. by left. }
  unfold start_search in Hobs. cbn in Hobs.
  destruct (searching n) as [gen|].
  { left. repeat (case_match; simplify_eq/=); done. }
  destruct (computeFutureSetPresent _ _ _) as [[] fut]; cbn in Hobs;
    [|simplify_eq; by left].
  destruct (int32 (rng ip)) as [seed rng'] eqn:Hdraw.
  right. split; [|by eauto].
  repeat (case_match; simplify_eq/=); done.
Qed.

(** ** [run]: the end of a search *)

(** X6.  When the resumptions of this call end with the coroutine
    returning a trajectory, [run] stores it, sets [futureComputed], drops
    the coroutine and goes on to refresh the matches: it is the refresh
    and the rest, started from that node.  [searchTries] is not
    touched. *)
Theorem X6_search_found (g : Grid) (ip : Interpreter PRNG) (n : RuleNode)
    (obs : list (option Observation)) (gen gen' : Generator)
    (v : option (list (list Z))) (t : Trajectory) :
  step_limit_reached n = false →
  observations n = Some obs → futureComputed n = false →
  search n = true → searching n = Some gen →
  advance gen = (Done v, gen') → Array2D_from v = Some t →
  let found :=
    set_futureComputed true
      (set_trajectory (Some t)
         (set_searching None (set_last (JS.fill0 (last n)) n))) in
  run g ip n = finish g ip found ∧
  ∀ out, run g ip n = Some out →
    futureComputed (node out) = true ∧ searching (node out) = None ∧
    trajectory (node out) = Some t ∧
    searchTries (node out) = searchTries n ∧
    interpreter out = ip.
Proof.
  intros Hlimit Hobs Hfuture Hsearch Hgen Hadv Htraj found.
  assert (run g ip n = finish g ip found) as Hrun.
  { unfold run.
    assert (step_limit_reached (set_last (JS.fill0 (last n)) n) = false)
      as -> by done.
    unfold run_unlimited, observe, start_search. cbn.
    rewrite Hobs, Hfuture, Hsearch, Hgen. cbn. rewrite Hadv. cbn.
    rewrite Htraj. done. }
  split; [done|]. intros out. rewrite Hrun. intros Hfin.
  pose proof (finish_frame _ _ _ _ Hfin) as (m & buf & c & p & Hnode).
  rewrite Hnode. split_and!; [done..|].
  unfold finish in Hfin.
  apply bind_Some in Hfin as (n2 & _ & Hfin).
  apply bind_Some in Hfin as ([[flow n3] calls] & _ & Hfin).
  destruct flow; by simplify_eq.
Qed.

(** X7.  A coroutine that returns its trajectory at the first resumption
    of a call is resumed once more by the loop of line 250, and a finished
    generator answers [{done: true, value: undefined}]: where
    [Array2D.from] gives [null] for that, the trajectory is dropped and
    [run] returns FAIL, with [searchTries] one up. *)
Theorem X7_first_result_dropped (g : Grid) (ip : Interpreter PRNG)
    (n : RuleNode) (obs : list (option Observation)) (fr : SearchFrame)
    (rows : option (list (list Z))) :
  Array2D_from None = None →
  step_limit_reached n = false →
  observations n = Some obs → futureComputed n = false →
  search n = true → searching n = Some (Suspended fr) →
  Search_resume fr = inr rows →
  ∃ out, run g ip n = Some out ∧ returned out = FAIL ∧
    trajectory (node out) = None ∧ futureComputed (node out) = false ∧
    searching (node out) = None ∧
    searchTries (node out) = searchTries n + 1.
Proof.
  intros Hnull Hlimit Hobs Hfuture Hsearch Hgen Hres.
  eexists. split.
  - unfold run.
    assert (step_limit_reached (set_last (JS.fill0 (last n)) n) = false)
      as -> by done.
    unfold run_unlimited, observe, start_search. cbn.
    rewrite Hobs, Hfuture, Hsearch, Hgen. cbn.
    unfold advance. cbn. rewrite Hres. cbn. rewrite Hnull. cbn.
    reflexivity.
  - cbn. by rewrite Hfuture.
Qed.

(** ** [run]: fields *)

Lemma compute_fields_idle g n fs c anys anyc calls :
  counter n ≠ 0 → (∀ f, Some f ∈ fs → recompute f = false) →
  compute_fields g n fs c anys anyc calls =
    if anyc && negb anys then Some (Return FAIL, n, calls)
    else Some (Continue, n, calls).
Proof.
  intros Hc. revert c. induction fs as [|o fs IH]; intros c Hfs; [done|].
  destruct o as [f|]; cbn.
  - rewrite bool_decide_eq_false_2 by done.
    rewrite (Hfs f) by left. cbn. apply IH. intros ??. apply Hfs. by right.
  - apply IH. intros ??. apply Hfs. by right.
Qed.

(** X8.  After the first step of a node ([counter] is not 0), when none of
    its fields asks to be recomputed, the stage of the fields computes
    nothing, writes nothing and lets [run] go on to SUCCESS: the fields
    can make [run] fail at the first step only. *)
Theorem X8_fields_idle (g : Grid) (n : RuleNode) (fs : list (option Field)) :
  fields n = Some fs → counter n ≠ 0 →
  (∀ f, Some f ∈ fs → recompute f = false) →
  run_fields g n = Some (Continue, n, []) ∧
  ∀ ip out, run g ip n = Some out → computed out = [].
Proof.
  intros Hfs Hc Hre.
  assert (∀ n1, fields n1 = fields n → counter n1 = counter n →
            run_fields g n1 = Some (Continue, n1, [])) as Hidle.
  { intros n1 Hf1 Hc1. unfold run_fields. rewrite Hf1, Hfs.
    rewrite compute_fields_idle; [done|by rewrite Hc1|done]. }
  split; [by apply Hidle|].
  intros ip out. unfold run. destruct (step_limit_reached _).
  { by intros [= <-]. }
  unfold run_unlimited.
  intros ([[flow n1] ip1] & Hobs & Hrun)%bind_Some.
  destruct flow as [r|]; [by simplify_eq|].
  apply observe_frame in Hobs as (_ & Hc1 & _ & Hf1 & _).
  unfold finish in Hrun.
  apply bind_Some in Hrun as (n2 & (m & buf & c & ->)%refresh_frame & Hrun).
  rewrite Hidle in Hrun by done. cbn in Hrun. by simplify_eq.
Qed.

(** ** [reset] *)

(** X9.  [reset] is idempotent, and it re-arms the node: whatever
    [steps] and [counter] were, the next [run] is not stopped by the step
    limit, and its refresh of the matches is the full rescan. *)
Theorem X9_reset_rearms (g : Grid) (ip : Interpreter PRNG) (n : RuleNode) :
  reset (reset n) = reset n ∧
  run g ip (reset n) = run_unlimited g ip (reset n) ∧
  refresh_matches g ip (reset n) = scan_grid g (reset n).
Proof.
  split_and!.
  - unfold reset, JS.fill0. cbn. by rewrite length_replicate.
  - unfold run.
    assert (set_last (JS.fill0 (last (reset n))) (reset n) = reset n) as ->.
    { unfold reset, JS.fill0. cbn. by rewrite length_replicate. }
    unfold step_limit_reached. cbn.
    destruct (decide (steps n > 0)).
    + rewrite (bool_decide_eq_false_2 (0 >= steps n)) by lia.
      by rewrite andb_false_r.
    + by rewrite bool_decide_eq_false_2.
  - unfold refresh_matches. cbn. by rewrite decide_False by lia.
Qed.

(** ** [load] *)

(** X10.  A [load] that does not answer [true] (an unknown symmetry, a
    rule that fails to load) has assigned nothing: the node is as it
    was. *)
Theorem X10_load_failure (elem : Element) (parentSymmetry : Symmetry)
    (g : Grid) (n n' : RuleNode) (r : LoadResult) :
  load elem parentSymmetry g n = Some (r, n') → r ≠ LoadTrue → n' = n.
Proof.
  unfold load. intros Hl Hr.
  destruct (getSymmetry _ _ _) as [symmetry|]; [|by simplify_eq].
  destruct (load_rules _ _ _ _) as [early|ruleList]; [by simplify_eq|].
  apply bind_Some in Hl as (n1 & _ & Hl).
  apply bind_Some in Hl as (n2 & _ & Hl). by simplify_eq.
Qed.

Lemma load_rules_variants g symmetry es acc l :
  load_rules g symmetry es acc = inr l ↔
  ∃ vs, mapM (rule_variants g symmetry) es = Some vs ∧ l = acc ++ concat vs.
Proof.
  revert acc. induction es as [|e es IH]; intros acc.
  - cbn. split.
    + intros [= <-]. exists []. split; [done|]. cbn. by rewrite app_nil_r.
    + intros (vs & Hvs & ->). injection Hvs as <-. cbn. by rewrite app_nil_r.
  - cbn [load_rules mapM].
    destruct (rule_variants g symmetry e) as [v|] eqn:Hv;
      unfold rule_variants in Hv.
    + destruct (Rule_load e g g) as [rule|]; cbn in Hv; [|done].
      destruct (getSymmetry _ _ _) as [rs|]; cbn in Hv; [|done].
      injection Hv as <-. rewrite IH. cbn. split.
      * intros (vs & -> & ->). eexists. split; [done|].
        cbn. by rewrite <- (assoc_L (++)).
      * intros (vs & Hvs & ->).
        destruct (mapM _ es) as [vs'|]; cbn in Hvs; [|done].
        injection Hvs as <-. exists vs'. split; [done|].
        cbn. by rewrite <- (assoc_L (++)).
    + cbn. split; [|by intros (vs & ? & _)].
      destruct (Rule_load e g g) as [rule|]; cbn in Hv; [|done].
      by destruct (getSymmetry _ _ _).
Qed.

(** X11.  The rules of a node that loaded are the variants of its rule
    elements, in the order of the document: the [rule] children of the
    element, or the element itself when it has none.  Every rule element
    loaded, with a symmetry that is known; [last] has one 0 for each
    rule. *)
Theorem X11_load_rules (elem : Element) (parentSymmetry : Symmetry)
    (g : Grid) (n n' : RuleNode) :
  load elem parentSymmetry g n = Some (LoadTrue, n') →
  ∃ symmetry variants,
    getSymmetry (is2d g) (getAttribute elem "symmetry") parentSymmetry =
      Some symmetry ∧
    mapM (rule_variants g symmetry)
      (if decide (childrenByTag elem "rule" = []) then [elem]
       else childrenByTag elem "rule") = Some variants ∧
    rules n' = concat variants ∧
    last n' = replicate (length (rules n')) 0.
Proof.
  unfold load. intros Hl.
  destruct (getSymmetry _ _ _) as [symmetry|]; [|by simplify_eq].
  destruct (load_rules _ _ _ _) as [early|ruleList] eqn:Hr.
  { apply load_rules_early in Hr. by simplify_eq. }
  apply load_rules_variants in Hr as (variants & Hv & ->).
  exists symmetry, variants. split; [done|].
  assert ((if decide (0 < length (childrenByTag elem "rule"))%nat
           then childrenByTag elem "rule" else [elem]) =
          (if decide (childrenByTag elem "rule" = []) then [elem]
           else childrenByTag elem "rule")) as <-.
  { destruct (childrenByTag elem "rule"); [done|].
    rewrite decide_True by (cbn; lia). by rewrite decide_False. }
  split; [done|].
  apply bind_Some in Hl as (n1 & Hf & Hl).
  apply bind_Some in Hl as (n2 & Ho & Hl).
  injection Hl as <-.
  assert (rules n1 = concat variants ∧
          last n1 = replicate (length (concat variants)) 0) as [Hr1 Hl1].
  { destruct (decide _) in Hf.
    - apply bind_Some in Hf as (fs & _ & Hf). injection Hf as <-.
      split; reflexivity.
    - injection Hf as <-. split; reflexivity. }
  destruct (decide _) in Ho; [|injection Ho as <-; by rewrite Hr1, Hl1].
  apply bind_Some in Ho as (obs & _ & Ho). injection Ho as <-. cbn.
  destruct (bool_decide _); cbn; [by rewrite Hr1, Hl1|].
  destruct (potentials n1); cbn; by rewrite Hr1, Hl1.
Qed.

Lemma array_set_at_length {A} (l : list (option A)) (i : option Z) (v : A) :
  (length l ≤ length (array_set_at l i v))%nat.
Proof.
  unfold array_set_at, JS.array_set. destruct i as [i|]; [|done].
  repeat case_decide; [by rewrite length_insert| |done].
  rewrite length_app. lia.
Qed.

Lemma or_num_default (n : option Z) (d : Z) : d ≠ 0 → JS.or_num n d ≠ 0.
Proof. unfold JS.or_num. destruct n; [case_decide|]; done. Qed.

(** X12.  The buffers of a node that loaded.  With [field] elements, the
    potentials are [C] rows of zeros, one number for each cell, and there
    are at least [C] slots for the fields; without, the fields are as they
    were.  With [observe] children, [future] is one 0 for each cell, there
    are at least [C] slots for the observations, and in search mode the
    limit is not 0 (a missing, unreadable or zero [limit] is -1).  With
    neither, [load] touches none of the potentials, the observations and
    [future]. *)
Theorem X12_load_buffers (elem : Element) (parentSymmetry : Symmetry)
    (g : Grid) (n n' : RuleNode) :
  load elem parentSymmetry g n = Some (LoadTrue, n') →
  (matchTags elem "field" ≠ [] →
     potentials n' = Some (new_Array2D (length (state g)) (C g)) ∧
     ∃ fs, fields n' = Some fs ∧ (Z.to_nat (C g) ≤ length fs)%nat) ∧
  (matchTags elem "field" = [] → fields n' = fields n) ∧
  (childrenByTag elem "observe" ≠ [] →
     future n' = replicate (length (state g)) 0 ∧
     (∃ obs, observations n' = Some obs ∧
             (Z.to_nat (C g) ≤ length obs)%nat) ∧
     (search n' = true → limit n' ≠ 0)) ∧
  (matchTags elem "field" = [] → childrenByTag elem "observe" = [] →
     potentials n' = potentials n ∧ observations n' = observations n ∧
     future n' = future n ∧ search n' = search n ∧ limit n' = limit n).
Proof.
  unfold load. intros Hl.
  destruct (getSymmetry _ _ _) as [symmetry|]; [|by simplify_eq].
  destruct (load_rules _ _ _ _) as [early|ruleList] eqn:Hr.
  { apply load_rules_early in Hr. by simplify_eq. }
  apply bind_Some in Hl as (n1 & Hf & Hl).
  apply bind_Some in Hl as (n2 & Ho & Hl).
  injection Hl as <-.
  set (n0 := set_temperature _ _) in Hf.
  assert (potentials n0 = potentials n ∧ fields n0 = fields n ∧
          observations n0 = observations n ∧ future n0 = future n ∧
          search n0 = search n ∧ limit n0 = limit n)
    as (Hp0 & Hf0 & Ho0 & Hu0 & Hs0 & Hl0) by done.
  assert ((matchTags elem "field" ≠ [] →
             potentials n1 = Some (new_Array2D (length (state g)) (C g)) ∧
             ∃ fs, fields n1 = Some fs ∧ (Z.to_nat (C g) ≤ length fs)%nat) ∧
          (matchTags elem "field" = [] → n1 = n0) ∧
          observations n1 = observations n ∧ future n1 = future n ∧
          search n1 = search n ∧ limit n1 = limit n) as (Hyes & Hno & Ho1).
  { destruct (decide (0 < length (matchTags elem "field"))%nat) as [Hlen|Hlen].
    - apply bind_Some in Hf as (fs & Hfs & Hf). injection Hf as <-.
      split_and!; [|intros Hnil; rewrite Hnil in Hlen; cbn in Hlen; lia|
                   done..].
      intros _. split; [done|]. exists fs. split; [done|].
      revert Hfs. apply (for_each_invariant
        (λ fs : list (option Field), (Z.to_nat (C g) ≤ length fs)%nat)).
      + by rewrite length_replicate.
      + intros efield s s' _ Hs (for_ & _ & [= <-])%bind_Some.
        etrans; [exact Hs|]. apply array_set_at_length.
    - injection Hf as <-. split_and!; [|done..].
      intros Hne. destruct (matchTags elem "field"); [done|].
      cbn in Hlen. lia. }
  destruct Ho1 as (Ho1 & Hu1 & Hs1 & Hl1).
  destruct (decide (0 < length (childrenByTag elem "observe"))%nat)
    as [Hlen|Hlen].
  - apply bind_Some in Ho as (obs & Hobs & Ho). injection Ho as <-.
    assert (Z.to_nat (C g) ≤ length obs)%nat as Hobs_len.
    { revert Hobs. apply (for_each_invariant
        (λ obs : list (option Observation),
           (Z.to_nat (C g) ≤ length obs)%nat)).
      - by rewrite length_replicate.
      - intros eob s s' _ Hs (value_ & _ & [= <-])%bind_Some.
        etrans; [exact Hs|]. apply array_set_at_length. }
    cbn. split_and!.
    + intros Hfield. destruct (Hyes Hfield) as (Hp & fs & Hfs & Hfs_len).
      destruct (bool_decide _); cbn.
      * split; [done|]. by exists fs.
      * rewrite Hp. cbn. split; [done|]. by exists fs.
    + intros Hfield. rewrite (Hno Hfield).
      destruct (bool_decide _); cbn; [done|].
      by destruct (potentials n).
    + intros _. destruct (bool_decide _) eqn:Hsearch; cbn.
      * split_and!; [done|by exists obs|]. intros _.
        by apply or_num_default.
      * destruct (potentials n1); cbn; by (split_and!; [|exists obs|]).
    + intros _ Hnil. rewrite Hnil in Hlen. cbn in Hlen. lia.
  - injection Ho as <-. split_and!.
    + done.
    + intros Hfield. by rewrite (Hno Hfield).
    + intros Hne. destruct (childrenByTag elem "observe"); [done|].
      cbn in Hlen. lia.
    + intros Hfield _. by rewrite (Hno Hfield).
Qed.

End Node.

(** * Further properties of the front ends *)

(** * Properties of the front ends *)

Section FrontEnds.
Context `{Host}.

(** ** The palette *)

Lemma foldl_insert_union {V} (entries : list (string * V))
    (a m : gmap string V) :
  foldl (λ m kv, <[kv.1 := kv.2]> m) (a ∪ m) entries =
  foldl (λ m kv, <[kv.1 := kv.2]> m) a entries ∪ m.
Proof.
  revert a. induction entries as [|[k v] entries IH]; intros a; [done|].
  cbn [foldl fst snd]. by rewrite insert_union_l, IH.
Qed.

Lemma customPalette_entries (palette : gmap string Color) es :
  for_each es
    (λ ec custom,
       entry ← Program.color_entry ec; Some (<[entry.1 := entry.2]> custom))
    palette =
  entries ← mapM Program.color_entry es;
  Some (foldl (λ m kv, <[kv.1 := kv.2]> m) palette entries).
Proof.
  revert palette. induction es as [|e es IH]; intros palette; [done|].
  cbn [for_each mapM].
  destruct (Program.color_entry e) as [[k v]|]; [|done].
  cbn. rewrite IH. by destruct (mapM _ es).
Qed.

Lemma list_snoc_cases {A} (l : list A) : l = [] ∨ ∃ l' x, l = l' ++ [x].
Proof. induction l using rev_ind; [by left|right; by eauto]. Qed.

(** The entry of the last element that names the symbol [s]. *)
Lemma new_Map_last_wins (es : list Element) (entries : list (string * Color))
    (s : string) (c : Color) :
  mapM Program.color_entry es = Some entries →
  Program.new_Map entries !! s = Some c ↔
  ∃ before e after,
    es = before ++ e :: after ∧ Program.color_entry e = Some (s, c) ∧
    Forall (λ e', ∀ c', Program.color_entry e' ≠ Some (s, c')) after.
Proof.
  intros Hent%mapM_Some_1. revert entries Hent.
  induction es as [|e es IH] using rev_ind; intros entries Hent.
  { apply Forall2_nil_inv_l in Hent as ->. split; [done|].
    intros (before & e & after & Heq & _). by destruct before. }
  apply Forall2_app_inv_l in Hent as (entries' & last_ & Hent & Hlast & ->).
  apply Forall2_cons_inv_l in Hlast as ([k v] & nil_ & He & Hnil & ->).
  apply Forall2_nil_inv_l in Hnil as ->.
  unfold Program.new_Map. rewrite foldl_app. cbn [foldl fst snd].
  fold (Program.new_Map entries').
  destruct (decide (k = s)) as [->|Hk].
  - rewrite lookup_insert_eq. split.
    + intros [= ->]. exists es, e, []. by split_and!.
    + intros (before & e' & after & Heq & He' & Hafter).
      destruct (list_snoc_cases after) as [->|(after' & a & ->)].
      * apply app_inj_tail in Heq as [_ ->]. rewrite He in He'.
        by injection He' as ->.
      * rewrite app_comm_cons, (assoc_L (++)) in Heq.
        apply app_inj_tail in Heq as [_ ->].
        rewrite Forall_app, Forall_singleton in Hafter.
        destruct Hafter as [_ Ha]. by destruct (Ha v).
  - rewrite lookup_insert_ne by done. rewrite (IH _ Hent). split.
    + intros (before & e' & after & -> & He' & Hafter).
      exists before, e', (after ++ [e]).
      split_and!; [by rewrite <- (assoc_L (++))|done|].
      rewrite Forall_app, Forall_singleton. split; [done|].
      intros c'. rewrite He. by intros [= ? _].
    + intros (before & e' & after & Heq & He' & Hafter).
      destruct (list_snoc_cases after) as [->|(after' & a & ->)].
      * apply app_inj_tail in Heq as [_ ->]. rewrite He in He'.
        by injection He' as ? _.
      * rewrite app_comm_cons, (assoc_L (++)) in Heq.
        apply app_inj_tail in Heq as [-> ->].
        apply Forall_app in Hafter as [Hafter _].
        by exists before, e', after'.
Qed.

(** X13.  [loadPalette] answers a palette exactly when every [color]
    element has a [symbol] and a value that [hex2rgba] takes.  Then a
    symbol is mapped to the colour of the last element that names it: a
    later element replaces an earlier one of the same symbol. *)
Theorem X13_palette_last_wins (ep : Element) :
  (is_Some (Program.loadPalette ep) ↔
   Forall (λ e, is_Some (Program.color_entry e)) (childrenByTag ep "color")) ∧
  ∀ palette s c, Program.loadPalette ep = Some palette →
    (palette !! s = Some c ↔
     ∃ before e after,
       childrenByTag ep "color" = before ++ e :: after ∧
       Program.color_entry e = Some (s, c) ∧
       Forall (λ e', ∀ c', Program.color_entry e' ≠ Some (s, c')) after).
Proof.
  unfold Program.loadPalette. split.
  - split.
    + intros [palette (entries & Hent & _)%bind_Some].
      apply (mapM_is_Some_1 Program.color_entry). by exists entries.
    + intros [entries ->]%(mapM_is_Some_2 Program.color_entry). by eexists.
  - intros palette s c (entries & Hentries & [= <-])%bind_Some.
    by apply new_Map_last_wins.
Qed.

(** X14.  The custom palette of a model is the palette of its own [color]
    elements laid over the palette of the program: a symbol the model
    gives has the model's colour, any other keeps the colour of
    [palette.xml]; and there is no custom palette exactly when a [color]
    element of the model is malformed. *)
Theorem X14_custom_palette (palette : gmap string Color) (emodel : Element) :
  Program.customPalette palette emodel =
    (λ own, own ∪ palette) <$> Program.loadPalette emodel.
Proof.
  unfold Program.customPalette, Program.loadPalette, Program.new_Map.
  rewrite customPalette_entries.
  destruct (mapM _ _) as [entries|]; [|done]. cbn. f_equal.
  rewrite <- foldl_insert_union. by rewrite (left_id_L ∅ (∪)).
Qed.

(** ** The list of models *)

Lemma append_inj_r (s a b : string) : (s +:+ a = s +:+ b → a = b)%string.
Proof. apply String.app_inj. Qed.

Lemma append_nil_r (s : string) : (s +:+ "" = s)%string.
Proof.
  induction s as [|c s IH]; [done|].
  change (String c (s +:+ "") = String c s). by f_equal.
Qed.

Lemma key_at_inj (name : string) : Inj (=) (=) (Program.key_at name).
Proof.
  intros i j. unfold Program.key_at, Program.model_key, Program.suffix_at.
  destruct i as [|i], j as [|j]; [done| | |].
  - intros Heq. rewrite <- (append_nil_r name) in Heq at 1.
    by apply append_inj_r in Heq.
  - intros Heq. rewrite <- (append_nil_r name) in Heq at 2.
    by apply append_inj_r in Heq.
  - intros Heq%append_inj_r%append_inj_r. unfold JSLib.toString in Heq.
    apply pretty_Z_inj in Heq. lia.
Qed.

Lemma next_suffix_at (i : nat) :
  Some (Program.next_suffix (Program.suffix_at i)) = Program.suffix_at (S i).
Proof.
  destruct i as [|i]; [done|]. unfold Program.suffix_at, Program.next_suffix.
  rewrite decide_False by lia. f_equal. lia.
Qed.

(** [tryInsert] from the [i]-th key on: with fuel above the number of
    entries it may still meet, it stores the model under the first free
    key. *)
Lemma tryInsert_first_free (fuel : nat) (name : string) (emodel : Element)
    (models : gmap string Element) (i : nat) (tried : gset string) :
  tried ⊆ dom models →
  (∀ j, (i ≤ j)%nat → Program.key_at name j ∉ tried) →
  (size models < size tried + fuel)%nat →
  ∃ j, (i ≤ j)%nat ∧
    Program.tryInsert fuel name emodel (Program.suffix_at i) models =
      Some (<[Program.key_at name j := emodel]> models) ∧
    models !! Program.key_at name j = None ∧
    ∀ k, (i ≤ k < j)%nat → is_Some (models !! Program.key_at name k).
Proof.
  revert i tried. induction fuel as [|fuel IH]; intros i tried Hsub Hnew Hsize.
  { apply subseteq_size in Hsub. rewrite size_dom in Hsub. lia. }
  cbn [Program.tryInsert]. fold (Program.key_at name i).
  case_decide as Hfree.
  { exists i. split_and!; [done..|]. intros k ?. lia. }
  rewrite next_suffix_at.
  destruct (IH (S i) ({[Program.key_at name i]} ∪ tried))
    as (j & Hj & Hrun & Hnone & Hbusy).
  - apply union_least; [|done]. apply singleton_subseteq_l, elem_of_dom.
    by destruct (models !! Program.key_at name i); [eexists|].
  - intros j Hj [Heq%elem_of_singleton|Hin]%elem_of_union.
    + apply key_at_inj in Heq. lia.
    + apply (Hnew j); [lia|done].
  - rewrite size_union, size_singleton; [lia|].
    apply disjoint_singleton_l, Hnew. lia.
  - exists j. split_and!; [lia|done|done|]. intros k Hk.
    destruct (decide (k = i)) as [->|]; [|apply Hbusy; lia].
    by destruct (models !! Program.key_at name i); [eexists|].
Qed.

Lemma for_each_snoc {A S} (l : list A) (a : A) (body : A → S → option S)
    (s : S) :
  for_each (l ++ [a]) body s = s' ← for_each l body s; body a s'.
Proof.
  rewrite for_each_app. destruct (for_each l body s) as [s'|]; [|done].
  cbn. by destruct (body a s').
Qed.

(** X15.  [listModels] returns (the calls of [tryInsert] to itself end),
    and every [model] element of the document gets a key of its own: the
    keys are pairwise distinct, they are the keys of the map, each is the
    name of its model in upper case (or MODEL), bare or with a suffix
    [_i], and the map answers the model for it.  No model is dropped or
    overwritten, whatever the names. *)
Theorem X15_list_models (doc : Element) :
  ∃ models keys,
    Program.listModels doc = Some models ∧
    NoDup keys ∧ dom models = list_to_set keys ∧
    size models = length (childrenByTag doc "model") ∧
    Forall2 (λ key emodel,
               models !! key = Some emodel ∧
               ∃ i, key = Program.key_at (Program.model_name emodel) i)
      keys (childrenByTag doc "model").
Proof.
  unfold Program.listModels. generalize (childrenByTag doc "model").
  intros es. induction es as [|e es IH] using rev_ind.
  { exists ∅, []. split_and!; [done|constructor|set_solver|done|constructor]. }
  destruct IH as (models & keys & Hrun & Hnd & Hdom & Hsize & Hall).
  rewrite for_each_snoc, Hrun. cbn [mbind option_bind].
  destruct (tryInsert_first_free (S (size models)) (Program.model_name e) e
              models 0 ∅) as (j & _ & Hins & Hfree & _);
    [set_solver|set_solver|rewrite size_empty; lia|].
  change (Program.suffix_at 0) with (@None Z) in Hins. rewrite Hins.
  set (key := Program.key_at (Program.model_name e) j) in *.
  assert (key ∉ keys) as Hkey.
  { intros Hin. apply not_elem_of_dom in Hfree. apply Hfree.
    rewrite Hdom. by apply elem_of_list_to_set. }
  exists (<[key := e]> models), (keys ++ [key]). split_and!.
  - done.
  - apply NoDup_app. split_and!; [done| |apply NoDup_singleton].
    intros k Hk ->%list_elem_of_singleton. done.
  - rewrite dom_insert_L, Hdom, list_to_set_app_L. cbn [list_to_set foldr].
    rewrite (right_id_L ∅ (∪)). apply (comm_L (∪)).
  - rewrite map_size_insert_None by done. rewrite length_app, Hsize. cbn. lia.
  - apply Forall2_app.
    + eapply Forall2_impl; [exact Hall|]. intros k e' [Hk Hi].
      split; [|done]. rewrite lookup_insert_ne; [done|].
      intros <-. by rewrite Hfree in Hk.
    + constructor; [|constructor]. split; [apply lookup_insert_eq|by exists j].
Qed.

(** X16.  When the names of the models (in upper case) are pairwise
    distinct, no key gets a suffix: [listModels] is the map from each
    name to its model. *)
Theorem X16_list_models_distinct (doc : Element) :
  NoDup (Program.model_name <$> childrenByTag doc "model") →
  Program.listModels doc =
    Some (list_to_map
            ((λ e, (Program.model_name e, e)) <$> childrenByTag doc "model")).
Proof.
  unfold Program.listModels. generalize (childrenByTag doc "model").
  intros es. induction es as [|e es IH] using rev_ind; intros Hnd; [done|].
  rewrite fmap_app in Hnd. apply NoDup_app in Hnd as (Hnd & Hnew & _).
  rewrite for_each_snoc, IH by done. cbn [mbind option_bind].
  assert (Program.model_name e ∉ ((λ e, (Program.model_name e, e)) <$> es).*1)
    as Hfresh.
  { rewrite <- list_fmap_compose. intros Hin. eapply Hnew; [done|]. left. }
  rewrite fmap_app. cbn [fmap list_fmap].
  rewrite list_to_map_snoc by done.
  cbn [Program.tryInsert Program.model_key].
  rewrite decide_True; [done|]. by apply not_elem_of_list_to_map_1.
Qed.

(** ** The parameters of a model *)

Lemma or_num_nonzero (n : option Z) (d : Z) : d ≠ 0 → JS.or_num n d ≠ 0.
Proof. unfold JS.or_num. destruct n; [case_decide|]; done. Qed.

Lemma toInt32_small (a : Z) : - 2 ^ 31 ≤ a < 2 ^ 31 → JS.toInt32 a = a.
Proof. intros Ha. unfold JS.toInt32. rewrite Z.mod_small; lia. Qed.

(** X17.  [Main] never passes a 0 for a dimension of the grid, for the
    number of steps or for the speed: a missing, unreadable or zero
    attribute falls back to [size], and that to -1; the number of steps
    falls back to 50000, and a nonzero [steps] of the query string goes
    before the attribute of the model; the speed falls back to 1. *)
Theorem X17_main_never_zero (qs : string → option string) (emodel : Element) :
  ((Main.dims emodel).1.1 ≠ 0 ∧ (Main.dims emodel).1.2 ≠ 0 ∧
   (Main.dims emodel).2 ≠ 0) ∧
  (Main.steps qs emodel ≠ 0 ∧
   (Main.overwriteSteps qs ≠ 0 →
    Main.steps qs emodel = Main.overwriteSteps qs)) ∧
  Main.speed qs ≠ 0.
Proof.
  assert (JS.or_num (JS.parseInt (getAttribute emodel "size")) (-1) ≠ 0)
    as Hsize by (by apply or_num_nonzero).
  split_and!.
  - by apply or_num_nonzero.
  - by apply or_num_nonzero.
  - apply or_num_nonzero. by case_decide.
  - unfold Main.steps. by do 2 apply or_num_nonzero.
  - intros Hq. unfold Main.steps, JS.or_num at 1. by rewrite decide_False.
  - by apply or_num_nonzero.
Qed.

(** X18.  [Model] and [Main] read the dimensions of a model alike: [DIM]
    holds the numbers of [Main] reduced to 32 bits, so the same numbers
    when they are within [-2^31, 2^31).  A model that gives neither
    [height] nor [d] is flat ([MZ] is 1), and one that gives only [size]
    is a square of that side. *)
Theorem X18_dims_agree (emodel : Element) :
  Model.DIM emodel =
    (JS.toInt32 (Main.dims emodel).1.1, JS.toInt32 (Main.dims emodel).1.2,
     JS.toInt32 (Main.dims emodel).2) ∧
  (- 2 ^ 31 ≤ (Main.dims emodel).1.1 < 2 ^ 31 →
   - 2 ^ 31 ≤ (Main.dims emodel).1.2 < 2 ^ 31 →
   - 2 ^ 31 ≤ (Main.dims emodel).2 < 2 ^ 31 →
   Model.DIM emodel = Main.dims emodel) ∧
  (getAttribute emodel "height" = None → getAttribute emodel "d" = None →
   (Main.dims emodel).2 = 1) ∧
  (getAttribute emodel "length" = None → getAttribute emodel "width" = None →
   (Main.dims emodel).1.1 = (Main.dims emodel).1.2).
Proof.
  split_and!.
  - done.
  - intros HX HY HZ. unfold Model.DIM. cbn in HX, HY, HZ.
    by rewrite !toInt32_small.
  - intros Hh Hd. cbn. by rewrite Hh, Hd.
  - intros Hl Hw. cbn. by rewrite Hl, Hw.
Qed.

(** ** [Model]: the speed *)

(** X19.  The setter and the getter of [speed] on integers: a speed
    [n <= 0] is read back as [n] (it is kept as the delay [-n]), and a
    speed [n > 0] as [n] reduced to 32 bits, so as [n] itself below 2^31.
    After the setter one of [_speed] and [_delay] is 0 and the delay is
    not negative, and a second call replaces what the first one set. *)
Theorem X19_speed_round_trip (n : Z) (m : Model.t) :
  Model.speed (Model.set_speed n m) =
    (if decide (n ≤ 0) then n else JS.toInt32 n) ∧
  (n < 2 ^ 31 → Model.speed (Model.set_speed n m) = n) ∧
  (0 ≤ Model._delay (Model.set_speed n m) ∧
   (Model._speed (Model.set_speed n m) = 0 ∨
    Model._delay (Model.set_speed n m) = 0)) ∧
  ∀ k, Model.set_speed k (Model.set_speed n m) = Model.set_speed k m.
Proof.
  assert (Model.speed (Model.set_speed n m) =
          (if decide (n ≤ 0) then n else JS.toInt32 n)) as Hget.
  { unfold Model.speed, Model.set_speed.
    destruct (decide (n ≤ 0)); cbn; [|done].
    case_decide as Hz; [lia|].
    assert (Z.abs n = 0) by (by destruct (decide (Z.abs n = 0))). lia. }
  split_and!.
  - done.
  - intros Hn. rewrite Hget. case_decide; [done|].
    apply toInt32_small. lia.
  - unfold Model.set_speed. case_decide; cbn; lia.
  - unfold Model.set_speed. case_decide; cbn; auto.
  - intros k. unfold Model.set_speed. by repeat case_decide.
Qed.

(** ** [Model]: breakpoints *)

Lemma toggle_sources (index : Z) (m : Model.t) :
  Model.source <$> Model.nodes (Model.toggleBreakpoint index m) =
  Model.source <$> Model.nodes m.
Proof.
  unfold Model.toggleBreakpoint.
  destruct (JS.get (Model.nodes m) index) as [node|] eqn:Hget; [|done].
  assert (Model.source <$> <[Z.to_nat index :=
            {| Model.source := Model.source node;
               Model.breakpoint := negb (Model.breakpoint node) |}]>
            (Model.nodes m) = Model.source <$> Model.nodes m) as Hsrc.
  { rewrite list_fmap_insert. apply list_insert_id.
    rewrite list_lookup_fmap. unfold JS.get in Hget.
    case_decide; [|done]. by rewrite Hget. }
  cbn. by destruct (negb (Model.breakpoint node)).
Qed.

(** X20.  [toggleBreakpoint] on an index outside [nodes] does nothing.
    On a node it flips the flag of that entry alone and puts its node in
    the set of breakpoints or takes it out; it keeps the set and the
    flags in agreement, and a second call on the same index undoes the
    first. *)
Theorem X20_toggle_breakpoint (index : Z) (m : Model.t) :
  Model.breakpoints_ok m →
  Model.breakpoints_ok (Model.toggleBreakpoint index m) ∧
  Model.toggleBreakpoint index (Model.toggleBreakpoint index m) = m ∧
  (JS.get (Model.nodes m) index = None →
   Model.toggleBreakpoint index m = m) ∧
  (∀ node, JS.get (Model.nodes m) index = Some node →
     (Model.source node ∈ Model.breakpoints (Model.toggleBreakpoint index m)
      ↔ Model.source node ∉ Model.breakpoints m) ∧
     ∀ j other, j ≠ index → JS.get (Model.nodes m) j = Some other →
       JS.get (Model.nodes (Model.toggleBreakpoint index m)) j = Some other).
Proof.
  intros [Hnd Hok].
  destruct (JS.get (Model.nodes m) index) as [node|] eqn:Hget.
  2:{ assert (Model.toggleBreakpoint index m = m) as Hid.
      { unfold Model.toggleBreakpoint. by rewrite Hget. }
      rewrite !Hid. by split_and!. }
  assert (0 ≤ index ∧ Model.nodes m !! Z.to_nat index = Some node)
    as [Hindex Hnode].
  { unfold JS.get in Hget. by case_decide. }
  set (flipped := {| Model.source := Model.source node;
                     Model.breakpoint := negb (Model.breakpoint node) |}).
  set (nodes' := <[Z.to_nat index := flipped]> (Model.nodes m)).
  assert (Model.source node ∈ Model.breakpoints m ↔
          Model.breakpoint node = true) as Hflag.
  { rewrite Hok. split.
    - intros (node' & Hin & Hsrc & Hbp).
      apply list_elem_of_lookup in Hin as [j Hj].
      assert (j = Z.to_nat index) as ->.
      { eapply NoDup_lookup; [exact Hnd| |].
        - rewrite list_lookup_fmap, Hj. done.
        - rewrite list_lookup_fmap, Hnode. cbn. by rewrite Hsrc. }
      by simplify_eq.
    - intros Hbp. exists node. split_and!; [|done..].
      by eapply list_elem_of_lookup_2. }
  assert (∀ node', node' ∈ nodes' ↔
            node' = flipped ∨
            node' ∈ Model.nodes m ∧ Model.source node' ≠ Model.source node)
    as Hnodes'.
  { intros node'. unfold nodes'. split.
    - intros [j Hj]%list_elem_of_lookup.
      destruct (decide (j = Z.to_nat index)) as [->|Hne].
      + rewrite list_lookup_insert_eq in Hj by (by eapply lookup_lt_Some).
        left. by simplify_eq.
      + rewrite list_lookup_insert_ne in Hj by done. right.
        split; [by eapply list_elem_of_lookup_2|]. intros Hsrc.
        apply Hne. eapply NoDup_lookup; [exact Hnd| |].
        * rewrite list_lookup_fmap, Hj. done.
        * rewrite list_lookup_fmap, Hnode. cbn. by rewrite Hsrc.
    - intros [->|[[j Hj]%list_elem_of_lookup Hsrc]].
      + eapply list_elem_of_lookup_2.
        apply list_lookup_insert_eq. by eapply lookup_lt_Some.
      + eapply list_elem_of_lookup_2. rewrite list_lookup_insert_ne; [done|].
        intros <-. by simplify_eq. }
  assert (Model.toggleBreakpoint index m =
          Model.set_breakpoints
            (if negb (Model.breakpoint node)
             then Model.breakpoints m ∪ {[Model.source node]}
             else Model.breakpoints m ∖ {[Model.source node]})
            (Model.set_nodes nodes' m)) as Htoggle.
  { unfold Model.toggleBreakpoint. rewrite Hget. cbn.
    by destruct (negb (Model.breakpoint node)). }
  split_and!.
  - split; [by rewrite toggle_sources|]. rewrite Htoggle. cbn. intros v.
    setoid_rewrite Hnodes'.
    destruct (Model.breakpoint node) eqn:Hbp; cbn.
    + rewrite elem_of_difference, elem_of_singleton, Hok. split.
      * intros [(node' & Hin & Hsrc & Hbp') Hne]. exists node'.
        split_and!; [|done..]. right. split; [done|]. by rewrite Hsrc.
      * intros (node' & [->|[Hin Hne]] & Hsrc & Hbp'); [done|].
        split; [by exists node'|]. by rewrite <- Hsrc.
    + rewrite elem_of_union, elem_of_singleton, Hok. split.
      * intros [(node' & Hin & Hsrc & Hbp')| ->].
        -- exists node'. split_and!; [|done..]. right. split; [done|].
           intros Heq. assert (node' = node) as ->; [|congruence].
           apply list_elem_of_lookup in Hin as [j Hj].
           assert (j = Z.to_nat index) as ->; [|by simplify_eq].
           eapply NoDup_lookup; [exact Hnd| |].
           ++ rewrite list_lookup_fmap, Hj. done.
           ++ rewrite list_lookup_fmap, Hnode. cbn. by rewrite Heq.
        -- exists flipped. split_and!; [by left|done|done].
      * intros (node' & [->|[Hin Hne]] & Hsrc & Hbp'); [by right|].
        left. by exists node'.
  - rewrite Htoggle. unfold Model.toggleBreakpoint. cbn.
    assert (JS.get nodes' index = Some flipped) as ->.
    { unfold JS.get, nodes'. rewrite decide_True by done.
      apply list_lookup_insert_eq. by eapply lookup_lt_Some. }
    cbn. rewrite negb_involutive.
    assert (<[Z.to_nat index :=
              {| Model.source := Model.source node;
                 Model.breakpoint := Model.breakpoint node |}]> nodes' =
            Model.nodes m) as ->.
    { unfold nodes'. rewrite list_insert_insert_eq. apply list_insert_id.
      by destruct node. }
    destruct (Model.breakpoint node) eqn:Hbp; cbn.
    + assert (Model.breakpoints m ∖ {[Model.source node]} ∪
                {[Model.source node]} = Model.breakpoints m) as ->.
      { apply set_eq. intros v.
        rewrite elem_of_union, elem_of_difference, elem_of_singleton.
        destruct (decide (v = Model.source node)) as [->|]; [|tauto].
        split; [intros _; by apply Hflag|by right]. }
      by destruct m.
    + assert ((Model.breakpoints m ∪ {[Model.source node]}) ∖
                {[Model.source node]} = Model.breakpoints m) as ->.
      { apply set_eq. intros v.
        rewrite elem_of_difference, elem_of_union, elem_of_singleton.
        split; [tauto|]. intros Hv. split; [by left|]. intros ->.
        apply Hflag in Hv. congruence. }
      by destruct m.
  - done.
  - intros node0 [= <-]. split.
    + rewrite Htoggle. cbn. rewrite Hflag.
      destruct (Model.breakpoint node); cbn.
      * rewrite elem_of_difference, elem_of_singleton. split; [tauto|done].
      * rewrite elem_of_union, elem_of_singleton. split; [done|by right].
    + intros j other Hj Hother. rewrite Htoggle. cbn. unfold nodes'.
      unfold JS.get in *. case_decide; [|done].
      rewrite list_lookup_insert_ne; [done|]. lia.
Qed.

(** ** [Main]: the pictures of a run *)

(** X21.  Of the pictures of a run, [Main] handles those whose number
    (counted from [rendered], which is 0 for the run) is a multiple of the
    speed, whatever the sign of the speed, and skips the others: the
    first picture is handled, and with speed 1 all are.  A picture that is
    handled is drawn when the grid is flat ([FZ] is 1) or [iso] is set,
    and followed by one wait of [delay]; the counter ends up advanced by
    the number of pictures. *)
Theorem X21_frames (qs : string → option string) (delay : Z) (iso : bool)
    (pictures : list Picture) (rendered : Z) :
  Main.frames (Main.speed qs) delay iso pictures rendered =
    (concat (imap (λ i p, Main.drawing_of (Main.speed qs) delay iso
                            (rendered + Z.of_nat i) p) pictures),
     rendered + Z.of_nat (length pictures)).
Proof.
  assert (Main.speed qs ≠ 0) as Hspeed by (by apply or_num_nonzero).
  revert rendered. induction pictures as [|p rest IH]; intros rendered.
  { cbn. f_equal. lia. }
  cbn [Main.frames]. rewrite IH, imap_cons. cbn [concat length].
  unfold JSLib.rem, JSLib.truthy. rewrite decide_False by done.
  assert (concat (imap (λ i p0, Main.drawing_of (Main.speed qs) delay iso
                                  (rendered + 1 + Z.of_nat i) p0) rest) =
          concat (imap ((λ i p0, Main.drawing_of (Main.speed qs) delay iso
                                   (rendered + Z.of_nat i) p0) ∘ S) rest))
    as ->.
  { f_equal. apply imap_ext. intros i p0 _. cbn. f_equal. lia. }
  replace (rendered + 1 + Z.of_nat (length rest))
    with (rendered + Z.of_nat (S (length rest))) by lia.
  unfold Main.drawing_of at 3. rewrite Z.add_0_r.
  destruct (decide (Z.rem rendered (Main.speed qs) = 0)) as [Hrem|Hrem].
  - rewrite bool_decide_eq_false_2 by (by intros ?).
    rewrite decide_True by (by apply Z.rem_mod_eq_0).
    by rewrite <- (assoc_L (++)).
  - rewrite bool_decide_eq_true_2 by done.
    rewrite decide_False; [done|]. by intros ?%Z.rem_mod_eq_0.
Qed.

(** ** [Main]: the choice of the model *)

(** X22.  [Main] asks [Loader.xml] for one path only, that of the model
    named in the query string, once for each element of that name it
    comes to; it stops at the first such element whose document and
    interpreter load, with the dimensions of that element, and finds none
    exactly when no element of that name loads. *)
Theorem X22_models (modelStr : string) (emodels : list Element)
    (fetched0 fetched : list string) (result : option (Element * IP)) :
  let path := ("models/" +:+ modelStr +:+ ".xml")%string in
  let loads (e : Element) (i : IP) :=
    getAttribute e "name" = Some modelStr ∧
    ∃ mdoc, Loader_xml path = Some mdoc ∧
      Interpreter_load mdoc (Main.dims e).1.1 (Main.dims e).1.2
        (Main.dims e).2 = Some i in
  Main.models modelStr emodels fetched0 = (fetched, result) →
  (∃ k, fetched = fetched0 ++ replicate k path ∧
        (k ≤ length (filter (λ e, getAttribute e "name" = Some modelStr)
                       emodels))%nat) ∧
  match result with
  | Some (e, i) =>
      ∃ before after, emodels = before ++ e :: after ∧ loads e i ∧
        Forall (λ e', ∀ i', ¬ loads e' i') before
  | None => Forall (λ e', ∀ i', ¬ loads e' i') emodels
  end.
Proof.
  intros path loads. revert fetched0.
  induction emodels as [|e rest IH]; intros fetched0.
  { intros [= <- <-]. split; [|constructor].
    exists 0%nat. split; [by rewrite app_nil_r|done]. }
  cbn [Main.models].
  destruct (Main.dims e) as [[MX MY] MZ] eqn:Hdims in |- *.
  assert (∀ fetched1,
            (∀ i', ¬ loads e i') →
            Main.models modelStr rest fetched1 = (fetched, result) →
            (∃ k, fetched = fetched1 ++ replicate k path ∧
               (k ≤ length (filter
                      (λ e, getAttribute e "name" = Some modelStr) rest))%nat) ∧
            match result with
            | Some (e0, i) =>
                ∃ before after, e :: rest = before ++ e0 :: after ∧
                  loads e0 i ∧ Forall (λ e', ∀ i', ¬ loads e' i') before
            | None => Forall (λ e', ∀ i', ¬ loads e' i') (e :: rest)
            end) as Hskip.
  { intros fetched1 Hno Hrest. apply IH in Hrest as [Hk Hres].
    split; [done|]. destruct result as [[e0 i]|].
    - destruct Hres as (before & after & -> & ? & ?).
      exists (e :: before), after. split_and!; [done..|]. by constructor.
    - by constructor. }
  case_decide as Hname.
  { intros Hrest. destruct (Hskip fetched0) as [(k & -> & Hk) Hres];
      [by intros i' [? _]|done|].
    split; [|done]. exists k. split; [done|].
    rewrite filter_cons, decide_False by done. done. }
  assert (getAttribute e "name" = Some modelStr) as Hname'.
  { by destruct (decide (getAttribute e "name" = Some modelStr)). }
  rewrite Hname'.
  change ("models/" +:+ JSLib.string_or_null (Some modelStr) +:+ ".xml")%string
    with path.
  rewrite filter_cons, decide_True by done. cbn [length].
  destruct (Loader_xml path) as [mdoc|] eqn:Hdoc in |- *.
  2:{ intros Hrest.
      destruct (Hskip (fetched0 ++ [path])) as [(k & -> & Hk) Hres];
        [intros i' (_ & mdoc & ? & _); congruence|done|].
      split; [|done]. exists (S k). split; [|lia].
      by rewrite <- (assoc_L (++)). }
  destruct (Interpreter_load mdoc MX MY MZ) as [i|] eqn:Hload in |- *.
  2:{ intros Hrest.
      destruct (Hskip (fetched0 ++ [path])) as [(k & -> & Hk) Hres];
        [|done|].
      { intros i' (_ & mdoc' & Hdoc' & Hload'). rewrite Hdims in Hload'.
        cbn in Hload'. congruence. }
      split; [|done]. exists (S k). split; [|lia].
      by rewrite <- (assoc_L (++)). }
  intros [= <- <-]. split.
  - exists 1%nat. split; [done|lia].
  - exists [], rest. split_and!; [done| |constructor].
    split; [done|]. exists mdoc. rewrite Hdims. by split.
Qed.

(** ** The seeds of a model *)










End FrontEnds.

Section Loop.
Context `{Host}.

(** ** [Model]: the loop *)

Lemma next_inv (m m1 : Model.t) (r : Model.RunResult) :
  Model.next m = Some (r, m1) →
  Model.effects m1 = Model.effects m ++ [Model.Next] ∧
  Model.settings m1 = Model.settings m ∧
  Model._paused m1 = Model._paused m ∧
  Model.rendered m1 = Model.rendered m ∧
  Model.output m1 = Model.output m ∧
  Model.agrees r m1.
Proof.
  unfold Model.next. intros (gen & Hgen & Hnext)%bind_Some.
  destruct gen as [fr|].
  - apply bind_Some in Hnext as (i & Hi & Hnext).
    destruct (Interpreter_resume fr i) as [[[p fr']|[]] i'];
      simplify_eq; cbn; split_and!; try done. by eexists.
  - by simplify_eq.
Qed.

Lemma checkBreakpoint_inv (once : bool) (m m1 : Model.t) (bp : bool) :
  Model.checkBreakpoint once m = Some (bp, m1) →
  bp = false ∧ m1 = m ∨
  bp = true ∧ once = false ∧ m1 = Model.set__paused true m ∧
  Model.breakpoints m ≠ ∅.
Proof.
  unfold Model.checkBreakpoint. destruct once; [intros [= <- <-]; by left|].
  intros (i & Hi & Hcheck)%bind_Some.
  destruct (Interpreter_current i) as [[[br n] children]|];
    [|simplify_eq; by left].
  case_decide; [simplify_eq; by left|].
  destruct (bool_decide (br ∈ Model.breakpoints m)) eqn:Hbr; cbn in Hcheck.
  { simplify_eq. right. split_and!; [done..|].
    apply bool_decide_eq_true in Hbr. set_solver. }
  destruct (JS.get children n) as [child|]; [|simplify_eq; by left].
  destruct (bool_decide (child ∈ Model.breakpoints m)) eqn:Hchild;
    simplify_eq; [|by left].
  right. split_and!; [done..|].
  apply bool_decide_eq_true in Hchild. set_solver.
Qed.

(** The burst: at most [rounds] resumptions, and nothing else on the
    page. *)
Lemma burst_inv (rounds : nat) (once : bool) (start : Millis)
    (r r' : Model.RunResult) (m m' : Model.t) :
  Model.burst rounds once start r m = Some (r', m') →
  Model.agrees r m →
  ∃ k, (k ≤ rounds)%nat ∧
    Model.effects m' = Model.effects m ++ replicate k Model.Next ∧
    Model.settings m' = Model.settings m ∧
    (Model._paused m' = Model._paused m ∨
     once = false ∧ Model._paused m' = true ∧ Model.breakpoints m ≠ ∅) ∧
    Model.rendered m' = Model.rendered m ∧
    Model.output m' = Model.output m ∧
    Model.agrees r' m'.
Proof.
  revert r m. induction rounds as [|rounds IH]; intros r m.
  { intros [= <- <-] Hr. exists 0%nat. cbn. rewrite app_nil_r.
    split_and!; first [done|by left]. }
  cbn [Model.burst]. intros Hburst Hr.
  apply bind_Some in Hburst as ([r1 m1] & Hnext & Hburst).
  apply next_inv in Hnext as (He1 & Hs1 & Hp1 & Hr1 & Ho1 & Ha1).
  apply bind_Some in Hburst as ([bp m2] & Hcheck & Hburst).
  assert (Model.breakpoints m1 = Model.breakpoints m) as Hb1.
  { unfold Model.settings in Hs1. by simplify_eq. }
  apply checkBreakpoint_inv in Hcheck
    as [[-> ->]|(-> & -> & -> & Hbps)].
  - destruct (now (Model.clock m1)) as [t1 clock'].
    destruct (over_20 _).
    + injection Hburst as <- <-. exists 1%nat.
      split_and!; cbn; first [done|lia|by left].
    + apply IH in Hburst as (k & Hk & He & Hs & Hp & Hre & Ho & Ha);
        [|done].
      exists (S k). split_and!.
      * lia.
      * rewrite He. cbn. rewrite He1. by rewrite <- (assoc_L (++)).
      * by rewrite Hs.
      * cbn in Hp. destruct Hp as [->|(? & ? & ?)]; [by left|].
        right. split_and!; [done..|]. by rewrite <- Hb1.
      * by rewrite Hre.
      * by rewrite Ho.
      * done.
  - injection Hburst as <- <-. exists 1%nat.
    split_and!; cbn; try first [done|lia].
    right. split_and!; [done..|]. by rewrite <- Hb1.
Qed.

Lemma sync_effects (m : Model.t) (l : list Model.NodeStateInfo) :
  let m' := foldl (λ m node, Model.effect (Model.Sync (Model.source node)) m)
              m l in
  Model.effects m' =
    Model.effects m ++ ((λ node, Model.Sync (Model.source node)) <$> l) ∧
  Model.settings m' = Model.settings m ∧
  Model._paused m' = Model._paused m ∧
  Model.rendered m' = Model.rendered m ∧
  Model.output m' = Model.output m ∧
  Model._curr m' = Model._curr m ∧
  Model.ip m' = Model.ip m ∧
  Model.clock m' = Model.clock m ∧
  Model._timer m' = Model._timer m.
Proof.
  revert m. induction l as [|node l IH]; intros m; cbn.
  { rewrite app_nil_r. by split_and!. }
  destruct (IH (Model.effect (Model.Sync (Model.source node)) m))
    as (He & Hs & Hp & Hr & Ho & Hc & Hi & Hk & Ht).
  split_and!; try done. rewrite He. cbn. by rewrite <- (assoc_L (++)).
Qed.

Lemma resumptions_inv (once : bool) (start : Millis) (m m' : Model.t)
    (r : Model.RunResult) :
  Model.resumptions once start m = Some (r, m') →
  ∃ k, (1 ≤ k ≤ 1 + Z.to_nat (Model._speed m))%nat ∧
    Model.effects m' = Model.effects m ++ replicate k Model.Next ∧
    Model.settings m' = Model.settings m ∧
    (Model._paused m' = Model._paused m ∨
     once = false ∧ Model._paused m' = true ∧ Model.breakpoints m ≠ ∅) ∧
    Model.rendered m' = Model.rendered m ∧
    Model.output m' = Model.output m ∧
    Model.agrees r m'.
Proof.
  unfold Model.resumptions.
  intros ([r1 m1] & Hnext & Hrun)%bind_Some.
  apply next_inv in Hnext as (He1 & Hs1 & Hp1 & Hr1 & Ho1 & Ha1).
  apply bind_Some in Hrun as ([bp m2] & Hcheck & Hrun).
  assert (Model.breakpoints m1 = Model.breakpoints m ∧
          Model._speed m1 = Model._speed m) as [Hb1 Hv1].
  { unfold Model.settings in Hs1. by simplify_eq. }
  apply checkBreakpoint_inv in Hcheck as [[-> ->]|(-> & -> & -> & Hbps)].
  - cbn [negb andb] in Hrun. destruct (bool_decide _) in Hrun.
    + apply burst_inv in Hrun as (k & Hk & He & Hs & Hp & Hre & Ho & Ha);
        [|done].
      rewrite Hv1 in Hk. exists (S k). split; [lia|]. split_and!.
      * rewrite He, He1. cbn. by rewrite <- (assoc_L (++)).
      * by rewrite Hs.
      * destruct Hp as [->|(? & ? & ?)]; [by left|].
        right. split_and!; [done..|]. by rewrite <- Hb1.
      * by rewrite Hre.
      * by rewrite Ho.
      * done.
    + injection Hrun as <- <-. exists 1%nat.
      split_and!; cbn; first [done|lia|by left].
  - cbn [negb andb] in Hrun. injection Hrun as <- <-. exists 1%nat.
    split_and!; cbn; try first [done|lia].
    right. split_and!; [done..|]. by rewrite <- Hb1.
Qed.

Lemma survey_inv (start : Millis) (m m' : Model.t) :
  Model.survey start m = Some m' →
  Model.effects m' = Model.effects m ++ Model.syncs m ∧
  Model.settings m' = Model.settings m ∧
  Model._paused m' = Model._paused m ∧
  Model.rendered m' = Model.rendered m ∧
  Model.output m' = Model.output m ∧
  Model._curr m' = Model._curr m ∧
  is_Some (Model.ip m').
Proof.
  unfold Model.survey. intros (i & Hi & Hrun)%bind_Some.
  set (m1 := Model.set_curr_node_index _ m) in Hrun.
  destruct (sync_effects m1 (Model.nodes m1))
    as (He & Hs & Hp & Hr & Ho & Hc & Hip & _).
  destruct (now _) as [end_ clock']. injection Hrun as <-.
  split_and!.
  - by etrans; [apply He|].
  - by etrans; [apply Hs|].
  - by etrans; [apply Hp|].
  - by etrans; [apply Hr|].
  - by etrans; [apply Ho|].
  - by etrans; [apply Hc|].
  - exists i. by etrans; [apply Hip|].
Qed.

Lemma render_inv (p : Picture) (m m' : Model.t) :
  Model.render p m = Some m' →
  Model.effects m' = Model.effects m ++ [Model.Render p] ∧
  Model.settings m' = Model.settings m ∧
  Model._paused m' = Model._paused m ∧
  Model.rendered m' = Model.rendered m + 1 ∧
  Model.output m' = Model.output m ∧
  Model._curr m' = Model._curr m ∧
  Model._timer m' = Model._timer m.
Proof.
  unfold Model.render. intros (i & Hi & [= <-])%bind_Some. by split_and!.
Qed.

Lemma vox_output_settings (p : Picture) (a b : Model.t) :
  Model.settings a = Model.settings b →
  Model.vox_output p a = Model.vox_output p b.
Proof.
  unfold Model.settings, Model.vox_output. intros Heq.
  injection Heq as -> _ -> -> _ _ _ _. done.
Qed.

Lemma finish_run_inv (m m' : Model.t) :
  Model.finish_run m = Some m' →
  Model._curr m' = None ∧
  Model.settings m' = Model.settings m ∧
  Model._paused m' = Model._paused m ∧
  ∃ p t, Model.effects m' = Model.effects m ++ [Model.Render p; Model.Log t] ∧
    Model.rendered m' = Model.rendered m + 1 ∧
    Model.output m' =
      if decide (Picture_FZ p > 1)
      then Some (Model.vox_output p m) else Model.output m.
Proof.
  unfold Model.finish_run. intros (i & Hi & Hrun)%bind_Some.
  apply bind_Some in Hrun as (m1 & Hrender & Hrun).
  apply render_inv in Hrender as (He & Hs & Hp & Hr & Ho & Hc & Ht).
  injection Hrun as <-.
  assert (Model.vox_output (Interpreter_state i) m1 =
          Model.vox_output (Interpreter_state i) m) as Hvox.
  { by apply vox_output_settings. }
  destruct (decide (Picture_FZ (Interpreter_state i) > 1)) as [Hz|Hz].
  - split_and!; [done..|]. exists (Interpreter_state i), (Model._timer m1).
    cbn. rewrite He. cbn. rewrite <- (assoc_L (++)).
    rewrite decide_True by done. by rewrite Hvox.
  - split_and!; [done..|]. exists (Interpreter_state i), (Model._timer m1).
    cbn. rewrite He. cbn. rewrite <- (assoc_L (++)).
    by rewrite decide_False by done.
Qed.

Lemma go_on_inv (once render_ : bool) (p : Picture) (m m' : Model.t) :
  Model.go_on once render_ p m = Some m' →
  Model._curr m' = Model._curr m ∧
  Model.settings m' = Model.settings m ∧
  Model._paused m' = Model._paused m ∧
  Model.effects m' =
    Model.effects m ++ (if once then [] else [Model.callback m]) ++
    (if render_ then [Model.Render p] else []) ∧
  Model.rendered m' = Model.rendered m + (if render_ then 1 else 0) ∧
  Model.output m' = Model.output m.
Proof.
  unfold Model.go_on, Model.callback.
  destruct once, render_; cbn.
  - intros (? & ? & ? & ? & ? & ? & _)%render_inv. by split_and!.
  - intros [= <-]. rewrite app_nil_r, Z.add_0_r. by split_and!.
  - case_decide; intros (He & ? & ? & ? & ? & ? & _)%render_inv;
      (split_and!; [done..| |done|done]);
      rewrite He; cbn; by rewrite <- (assoc_L (++)).
  - case_decide; intros [= <-]; rewrite Z.add_0_r; by split_and!.
Qed.

(** What a call of [loop] that returns has done. *)
(** What a call of [loop] that returns has done. *)
Lemma loop_inv (once render_ : bool) (m m' : Model.t) :
  Model.loop once render_ m = Some m' →
  negb once && Model._paused m = true ∧ m' = m ∨
  negb once && Model._paused m = false ∧
  (Model._curr m = None ∧ Model.ip m = None ∧
   Model.effects m' = Model.effects m ∧
   Model.settings m' = Model.settings m ∧
   Model._paused m' = Model._paused m ∧ Model._curr m' = None ∧
   Model.rendered m' = Model.rendered m ∧ Model.output m' = Model.output m
   ∨
   ∃ k result tail,
     (is_Some (Model._curr m) ∨ is_Some (Model.ip m)) ∧
     (1 ≤ k ≤ 1 + Z.to_nat (Model._speed m))%nat ∧
     Model.effects m' =
       Model.effects m ++ replicate k Model.Next ++ Model.syncs m ++ tail ∧
     Model.settings m' = Model.settings m ∧
     (Model._paused m' = Model._paused m ∨
      once = false ∧ Model._paused m' = true ∧ Model.breakpoints m ≠ ∅) ∧
     match result with
     | Model.RunDone =>
         Model._curr m' = None ∧
         ∃ p t, tail = [Model.Render p; Model.Log t] ∧
           Model.rendered m' = Model.rendered m + 1 ∧
           Model.output m' =
             if decide (Picture_FZ p > 1)
             then Some (Model.vox_output p m) else Model.output m
     | Model.RunYield p =>
         (∃ fr, Model._curr m' = Some (Model.RunSuspended fr)) ∧
         tail = (if once then [] else [Model.callback m]) ++
                (if render_ then [Model.Render p] else []) ∧
         Model.rendered m' =
           Model.rendered m + (if render_ then 1 else 0) ∧
         Model.output m' = Model.output m
     end).
Proof.
  unfold Model.loop.
  destruct (negb once && Model._paused m) eqn:Hidle.
  { intros [= <-]. by left. }
  destruct (now (Model.clock m)) as [start clock0].
  set (m1 := Model.ensure_run (Model.set_clock clock0 m)).
  intros Hloop. right. split; [done|]. revert Hloop.
  assert (Model.effects m1 = Model.effects m ∧
          Model.settings m1 = Model.settings m ∧
          Model._paused m1 = Model._paused m ∧
          Model.rendered m1 = Model.rendered m ∧
          Model.output m1 = Model.output m ∧
          (Model._curr m1 = None → Model._curr m = None ∧ Model.ip m = None) ∧
          (is_Some (Model._curr m1) →
           is_Some (Model._curr m) ∨ is_Some (Model.ip m)))
    as (He1 & Hs1 & Hp1 & Hr1 & Ho1 & Hnone & Hsome).
  { unfold m1, Model.ensure_run. cbn.
    destruct (Model._curr m) eqn:Hcurr; cbn.
    { rewrite Hcurr. split_and!; [done..|]. intros _. left. by eexists. }
    split_and!; [done..| |]; destruct (Model.ip m); cbn; try done;
      try (by intros [? ?]).
    intros _. right. by eexists. }
  assert (Model._speed m1 = Model._speed m ∧
          Model.breakpoints m1 = Model.breakpoints m ∧
          Model.nodes m1 = Model.nodes m ∧
          Model._delay m1 = Model._delay m) as (Hv1 & Hb1 & Hn1 & Hd1).
  { unfold Model.settings in Hs1. by simplify_eq. }
  destruct (Model._curr m1) as [gen|] eqn:Hcurr.
  2:{ intros [= <-]. left. destruct Hnone as [? ?]; [done|].
      by split_and!. }
  intros ([result m2] & Hrun & Hrest)%bind_Some. right.
  apply resumptions_inv in Hrun
    as (k & Hk & He2 & Hs2 & Hp2 & Hr2 & Ho2 & Ha2).
  apply bind_Some in Hrest as (m3 & Hsurvey & Hrest).
  apply survey_inv in Hsurvey as (He3 & Hs3 & Hp3 & Hr3 & Ho3 & Hc3 & _).
  assert (Model.syncs m2 = Model.syncs m) as Hsyncs.
  { unfold Model.syncs. unfold Model.settings in Hs2.
    assert (Model.nodes m2 = Model.nodes m1) as -> by (by simplify_eq).
    by rewrite Hn1. }
  assert (Model._paused m3 = Model._paused m ∨
          once = false ∧ Model._paused m3 = true ∧ Model.breakpoints m ≠ ∅)
    as Hpaused.
  { rewrite Hp3. destruct Hp2 as [->|(? & ? & ?)]; [by left|].
    right. split_and!; [done..|]. by rewrite <- Hb1. }
  assert (Model.settings m3 = Model.settings m) as Hsettings.
  { by rewrite Hs3, Hs2. }
  assert (Model.effects m3 =
          Model.effects m ++ replicate k Model.Next ++ Model.syncs m)
    as Heffects.
  { rewrite He3, He2, He1, Hsyncs. by rewrite <- (assoc_L (++)). }
  rewrite Hv1 in Hk. exists k, result.
  assert (is_Some (Model._curr m) ∨ is_Some (Model.ip m)) as Hstart.
  { apply Hsome. by eexists. }
  destruct result as [p|].
  - apply go_on_inv in Hrest as (Hc & Hs & Hp & He & Hr & Ho).
    exists ((if once then [] else [Model.callback m]) ++
            (if render_ then [Model.Render p] else [])).
    split_and!.
    + done.
    + lia.
    + lia.
    + rewrite He, Heffects. rewrite <- !(assoc_L (++)).
      do 3 f_equal. unfold Model.callback.
      assert (Model._delay m3 = Model._delay m) as ->; [|done].
      unfold Model.settings in Hsettings. by simplify_eq.
    + by rewrite Hs.
    + by rewrite Hp.
    + destruct Ha2 as [fr Hfr]. exists fr. by rewrite Hc, Hc3.
    + done.
    + by rewrite Hr, Hr3, Hr2, Hr1.
    + by rewrite Ho, Ho3, Ho2, Ho1.
  - apply finish_run_inv in Hrest
      as (Hc & Hs & Hp & p & t & He & Hr & Ho).
    exists [Model.Render p; Model.Log t]. split_and!.
    + done.
    + lia.
    + lia.
    + rewrite He, Heffects. by rewrite <- !(assoc_L (++)).
    + by rewrite Hs.
    + by rewrite Hp.
    + done.
    + exists p, t. split_and!; [done| |].
      * by rewrite Hr, Hr3, Hr2, Hr1.
      * rewrite Ho. case_decide.
        -- f_equal. by apply vox_output_settings.
        -- by rewrite Ho3, Ho2, Ho1.
Qed.

Lemma filter_callback_nexts (k : nat) (l : list Model.Effect) :
  filter (λ e, Model.is_callback e = true) (replicate k Model.Next ++ l) =
  filter (λ e, Model.is_callback e = true) l.
Proof.
  induction k as [|k IH]; [done|].
  change (replicate (S k) Model.Next ++ l)
    with (Model.Next :: (replicate k Model.Next ++ l)).
  by rewrite filter_cons, decide_False.
Qed.

Lemma filter_callback_syncs (m : Model.t) :
  filter (λ e, Model.is_callback e = true) (Model.syncs m) = [].
Proof.
  unfold Model.syncs. induction (Model.nodes m) as [|node l IH]; [done|].
  rewrite fmap_cons. by rewrite filter_cons, decide_False.
Qed.

(** X24.  One call of [loop] that is not idle resumes the run at least
    once and at most [1 + _speed] times (once when [_speed] is not
    positive), also when it is the single step of [step()]: the burst of
    line 339 is not limited to the calls from the timer.  An idle call (the
    model is paused and the call is not a step, or there is neither a run
    nor an interpreter) resumes nothing and has no effect on the page. *)
Theorem X24_loop_resumptions (once render_ : bool) (m m' : Model.t) :
  Model.loop once render_ m = Some m' →
  ∃ k rest,
    Model.effects m' = Model.effects m ++ replicate k Model.Next ++ rest ∧
    Forall (λ e, e ≠ Model.Next) rest ∧
    (k ≤ 1 + Z.to_nat (Model._speed m))%nat ∧
    (k = 0%nat → rest = []) ∧
    (k = 0%nat ↔
     negb once && Model._paused m = true ∨
     Model._curr m = None ∧ Model.ip m = None).
Proof.
  intros [[Hidle ->]|[Hidle [Hnone|Hran]]]%loop_inv.
  - exists 0%nat, []. cbn. rewrite app_nil_r.
    split_and!; [done|constructor|lia|done|]. split; [by left|done].
  - destruct Hnone as (Hcurr & Hip & -> & _).
    exists 0%nat, []. cbn. rewrite app_nil_r.
    split_and!; [done|constructor|lia|done|]. split; [by right|done].
  - destruct Hran as (k & result & tail & Hstart & Hk & -> & Hs & _ & Hres).
    exists k, (Model.syncs m ++ tail). split_and!; [done| |lia|lia|].
    + apply Forall_app. split.
      * unfold Model.syncs. by apply Forall_fmap, Forall_true.
      * destruct result as [p|].
        -- destruct Hres as (_ & -> & _). unfold Model.callback.
           destruct once, render_; repeat case_decide;
             by repeat constructor.
        -- destruct Hres as (_ & p & t & -> & _). by repeat constructor.
    + split; [lia|]. intros [Hi|[Hcurr Hip]]; [congruence|].
      rewrite Hcurr, Hip in Hstart. by destruct Hstart as [[? ?]|[? ?]].
Qed.

(** X25.  [loop] leaves behind at most one callback for a further
    [loop].  It leaves one exactly when the call is not a single step, the
    model was not paused at entry and the run is not over afterwards; the
    callback is a timeout of [_delay] when there is a delay, and an
    animation frame otherwise.  So [step()] never keeps the model going,
    and a run that ends is not called again. *)
Theorem X25_loop_callback (once render_ : bool) (m m' : Model.t) :
  Model.loop once render_ m = Some m' →
  ∃ new, Model.effects m' = Model.effects m ++ new ∧
    filter (λ e, Model.is_callback e = true) new =
      if once || Model._paused m then []
      else if Model.running m' then [Model.callback m] else [].
Proof.
  intros [[Hidle ->]|[Hidle [Hnone|Hran]]]%loop_inv.
  - exists []. rewrite app_nil_r. split; [done|].
    destruct once; [done|]. cbn in Hidle. by rewrite Hidle.
  - destruct Hnone as (_ & _ & -> & _ & _ & Hcurr & _).
    exists []. rewrite app_nil_r. split; [done|].
    unfold Model.running. rewrite Hcurr.
    rewrite bool_decide_eq_false_2 by (by intros [? ?]).
    by destruct (once || Model._paused m).
  - destruct Hran as (k & result & tail & _ & _ & -> & _ & _ & Hres).
    eexists. split; [done|].
    rewrite filter_callback_nexts, filter_app, filter_callback_syncs.
    cbn [app]. unfold Model.running.
    destruct result as [p|].
    + destruct Hres as ([fr ->] & -> & _).
      rewrite bool_decide_eq_true_2 by (by eexists).
      assert (Model.is_callback (Model.callback m) = true) as Hcb.
      { unfold Model.callback. by case_decide. }
      destruct once; cbn in Hidle; cbn [orb app].
      * destruct render_; [|done]. by rewrite filter_cons, decide_False.
      * rewrite Hidle, filter_cons, decide_True by done.
        destruct render_; [|done]. by rewrite filter_cons, decide_False.
    + destruct Hres as (-> & p & t & -> & _).
      rewrite bool_decide_eq_false_2 by (by intros [? ?]).
      by destruct (once || Model._paused m).
Qed.

(** X26.  [loop] never keeps a generator that has finished.  When a run
    that is current at entry is over after the call ([_curr] is [null]),
    the call has ended with one rendering of the final picture and the
    log of the time, with no callback before them; it has counted one
    picture more, and it has set [output] exactly when the grid has more
    than one layer ([FZ > 1]). *)
Theorem X26_loop_completion (once render_ : bool) (m m' : Model.t) :
  Model.loop once render_ m = Some m' →
  (Model._curr m ≠ Some Model.RunCompleted →
   Model._curr m' ≠ Some Model.RunCompleted) ∧
  (is_Some (Model._curr m) → Model._curr m' = None →
   ∃ earlier p t,
     Model.effects m' =
       Model.effects m ++ earlier ++ [Model.Render p; Model.Log t] ∧
     Forall (λ e, Model.is_callback e = false) earlier ∧
     Model.rendered m' = Model.rendered m + 1 ∧
     Model.output m' =
       if decide (Picture_FZ p > 1)
       then Some (Model.vox_output p m) else Model.output m).
Proof.
  intros [[Hidle ->]|[Hidle [Hnone|Hran]]]%loop_inv.
  - split; [done|]. intros [? ->]. done.
  - destruct Hnone as (Hcurr & _ & _ & _ & _ & Hcurr' & _).
    split; [by rewrite Hcurr'|]. rewrite Hcurr. by intros [? ?].
  - destruct Hran as (k & result & tail & _ & _ & He & _ & _ & Hres).
    destruct result as [p|].
    + destruct Hres as ([fr Hfr] & _). rewrite Hfr. split; [done|done].
    + destruct Hres as (Hcurr' & p & t & -> & Hr & Ho).
      split; [by rewrite Hcurr'|]. intros _ _.
      exists (replicate k Model.Next ++ Model.syncs m), p, t.
      split_and!; [by rewrite He, <- !(assoc_L (++))| |done|done].
      apply Forall_app. split.
      * by apply Forall_replicate.
      * unfold Model.syncs. by apply Forall_fmap, Forall_true.
Qed.

(** X27.  [loop] assigns neither the seed, the speed, the delay, the
    number of steps, the nodes nor the breakpoints.  It never resumes a
    paused model, and it pauses one only at a breakpoint: [_paused]
    changes only in a call that is not a single step, on a model that was
    running and has breakpoints set.  So [step()] leaves the model
    paused, and [pause()] stops the calls from the timer. *)
Theorem X27_loop_pauses (once render_ : bool) (m m' : Model.t) :
  (Model.loop once render_ m = Some m' →
   Model.settings m' = Model.settings m ∧
   (Model._paused m' = Model._paused m ∨
    once = false ∧ Model._paused m = false ∧ Model._paused m' = true ∧
    Model.breakpoints m ≠ ∅)) ∧
  (Model.step m = Some m' → Model._paused m' = true) ∧
  Model.loop false render_ (Model.pause m) = Some (Model.pause m).
Proof.
  split_and!.
  - intros [[Hidle ->]|[Hidle [Hnone|Hran]]]%loop_inv.
    + split; [done|by left].
    + destruct Hnone as (_ & _ & _ & Hs & Hp & _). split; [done|by left].
    + destruct Hran as (k & result & tail & _ & _ & _ & Hs & Hp & _).
      split; [done|]. destruct Hp as [?|(-> & ? & ?)]; [by left|].
      right. cbn in Hidle. by split_and!.
  - unfold Model.step.
    intros [[Hidle ->]|[Hidle [Hnone|Hran]]]%loop_inv.
    + done.
    + by destruct Hnone as (_ & _ & _ & _ & -> & _).
    + destruct Hran as (k & result & tail & _ & _ & _ & _ & Hp & _).
      by destruct Hp as [->|(? & _)].
  - done.
Qed.

End Loop.

(** * The properties on the small instance *)

Import Toy.

Lemma toy_grid_ok (st : list Z) :
  st ≠ [] → (∀ v, v ∈ st → 0 ≤ v < 2) → grid_ok (grid st).
Proof.
  intros Hne Hvalues. split; cbn; try lia.
  - destruct st; [done|]. cbn. lia.
  - done.
Qed.

Lemma row_before_ok : grid_ok row_before.
Proof.
  apply toy_grid_ok; [done|]. intros v Hv.
  repeat (apply elem_of_cons in Hv as [->|Hv]; [lia|]).
  by apply elem_of_nil in Hv.
Qed.

Lemma row_after_ok : grid_ok row_after.
Proof.
  apply toy_grid_ok; [done|]. intros v Hv.
  repeat (apply elem_of_cons in Hv as [->|Hv]; [lia|]).
  by apply elem_of_nil in Hv.
Qed.

Lemma rule_BW_ok (st : list Z) rule :
  rule ∈ [rule_BW] → rule_ok (grid st) rule.
Proof.
  intros ->%list_elem_of_singleton. split_and!; [done..|].
  by apply make_ishifts_ok.
Qed.

Lemma scanned_spec :
  scan_grid row_before (blank [rule_BW] 3) = Some scanned ∧
  matcher_ok row_before scanned ∧
  ∀ q, q ∈ match_list scanned ↔ is_match row_before [rule_BW] q.
Proof.
  destruct (scan_grid_establishes row_before (blank [rule_BW] 3)
              (replicate 1 (replicate 3 false)))
    as (n' & Hscan & _ & Hok & Hin).
  - apply row_before_ok.
  - apply rule_BW_ok.
  - done.
  - apply (mask_ok_clear row_before [rule_BW]).
  - apply mask_get_clear.
  - by vm_compute.
  - by vm_compute.
  - unfold scanned. rewrite Hscan. done.
Qed.

Lemma scanned_turn_ok : matcher_ok row_after scanned_turn.
Proof.
  apply (matcher_ok_shape row_before); [done..|].
  apply scanned_spec.
Qed.

Lemma ip_edit_ok : log_ok row_after ip_edit.
Proof.
  split.
  - by intros s ->%list_elem_of_singleton.
  - intros c ->%list_elem_of_singleton. cbn. lia.
Qed.

Lemma edit_logged : edits_logged row_before row_after [(1, 0, 0)].
Proof.
  intros x y z Hx Hy Hz Hne. cbn in Hx, Hy, Hz.
  assert (y = 0) as -> by lia. assert (z = 0) as -> by lia.
  assert (x = 0 ∨ x = 1 ∨ x = 2) as [->|[->| ->]] by lia;
    [by destruct Hne|left|by destruct Hne].
Qed.

(** C1, witness: the row [B W W] edited to [B B W]. *)
Lemma C1_witness :
  lastMatchedTurn scanned_turn >= 0 ∧
  ∃ n_inc n_full,
    refresh_matches row_after ip_edit scanned_turn = Some n_inc ∧
    refresh_matches row_after ip_edit (reset scanned_turn) = Some n_full ∧
    filter (is_match row_after (rules scanned_turn)) (match_list n_inc)
      ≡ₚ match_list n_full.
Proof.
  split; [by vm_compute|].
  apply (C1_incremental_full row_before row_after ip_edit scanned_turn
           [(1, 0, 0)]).
  - apply row_after_ok.
  - done.
  - apply rule_BW_ok.
  - apply ip_edit_ok.
  - by vm_compute.
  - apply scanned_turn_ok.
  - intros q Hq. by apply scanned_spec.
  - by vm_compute.
  - by vm_compute.
  - apply edit_logged.
Defined.

(** C1, counterexample: the node lists the matches of the full scan of
    [B W W]; the edit to [B B W] is in the change log; after the
    incremental rescan the node lists two matches, the full rescan of the
    same state lists one. *)
Lemma C1_counterexample :
  scan_grid row_before (blank [rule_BW] 3) = Some scanned ∧
  edits_logged row_before row_after (changes ip_edit) ∧
  ∃ n_inc n_full,
    refresh_matches row_after ip_edit scanned_turn = Some n_inc ∧
    refresh_matches row_after ip_edit (reset scanned_turn) = Some n_full ∧
    match_list n_inc = [(0, 0, 0, 0); (0, 1, 0, 0)] ∧
    match_list n_full = [(0, 1, 0, 0)] ∧
    ¬ match_list n_inc ≡ₚ match_list n_full.
Proof.
  split; [apply scanned_spec|]. split; [apply edit_logged|].
  eexists _, _. split; [by vm_compute|]. split; [by vm_compute|].
  split; [by vm_compute|]. split; [by vm_compute|].
  intros Hperm%Permutation_length. by vm_compute in Hperm.
Qed.

(** C3, witness: the full scan of [B W W] for the rule [BW]. *)
Lemma C3_witness :
  lastMatchedTurn (blank [rule_BW] 3) < 0 ∧
  ∃ n', refresh_matches row_before ip0 (blank [rule_BW] 3) = Some n' ∧
    NoDup (match_list n') ∧
    ∀ r sx sy sz, (r, sx, sy, sz) ∈ match_list n' ↔
      ∃ rule, JS.get [rule_BW] r = Some rule ∧
              fits row_before rule sx sy sz ∧
              matches_at row_before rule sx sy sz = true.
Proof.
  split; [done|].
  apply (C3_full_rescan row_before ip0 (blank [rule_BW] 3)).
  - apply row_before_ok.
  - apply rule_BW_ok.
  - by eexists.
  - by vm_compute.
  - by vm_compute.
  - done.
Defined.

(** C4, witness: a node that has used its one step, a node without limit,
    and an element without [steps]. *)
Lemma C4_witness :
  run (grid [0]) ip0 spent =
    Some (Build_Outcome FAIL (set_last (JS.fill0 (last spent)) spent) ip0 []) ∧
  run (grid [0]) ip0 (blank [rule_B] 1) =
    run_unlimited (grid [0]) ip0
      (set_last (JS.fill0 (last (blank [rule_B] 1))) (blank [rule_B] 1)) ∧
  steps (loaded one_plain) = 0.
Proof.
  split; [|split].
  - by apply (proj1 (C4_step_limit (grid [0]) ip0 spent)).
  - by apply (proj1 (proj2 (C4_step_limit (grid [0]) ip0 (blank [rule_B] 1)))).
  - apply (proj2 (proj2 (C4_step_limit (grid [0]) ip0 (loaded one_plain)))
             one_plain tt (blank [] 1)); by vm_compute.
Defined.

(** C5, witness: the future set of [B] is satisfiable. *)
Lemma C5_witness :
  ∃ out, run (grid [0]) ip0 observing = Some out ∧
         futureComputed (node out) = true.
Proof.
  eexists. split; [by vm_compute|].
  apply (C5_future_then_potentials (grid [0]) ip0 observing
           [Some tt; None] [[0]; [0]]); by vm_compute.
Defined.

(** C5, counterexample: a node with observations, search disabled and
    [futureComputed] false, on a grid whose future set is satisfiable; its
    step limit is reached, so [run] returns FAIL, [futureComputed] stays
    false and [potentials] are untouched. *)
Lemma C5_counterexample :
  observations observing_spent = Some [Some tt; None] ∧
  search observing_spent = false ∧ futureComputed observing_spent = false ∧
  (computeFutureSetPresent (future observing_spent) (state (grid [0]))
     [Some tt; None]).1 = true ∧
  ∃ out, run (grid [0]) ip0 observing_spent = Some out ∧
         returned out = FAIL ∧ futureComputed (node out) = false ∧
         potentials (node out) = potentials observing_spent.
Proof. split_and!; [done..|]. eexists. by vm_compute. Qed.

(** The toy coroutine after [k] resumptions. *)
Lemma toy_resumed k c :
  resumed k (Suspended (c, -1)) = Suspended (c + Z.of_nat k, -1).
Proof.
  revert c. induction k as [|k IH]; intros c.
  - cbn. by rewrite Z.add_0_r.
  - rewrite resumed_S. cbn. unfold resume.
    rewrite decide_False by lia. cbn. rewrite IH. do 2 f_equal. lia.
Qed.

(** C6, at the failing input: a coroutine that yields on every
    resumption.  One call of [run] returns HALT with the coroutine resumed
    257 times, which no 256 or fewer resumptions reach; [visited] holds the
    value of the 257th [yield]. *)
Theorem C6_resumed_257_times :
  ∃ out, run (grid [0]) ip0 searching_on = Some out ∧
    returned out = HALT ∧ visited (node out) = 256 ∧
    searching (node out) = Some (resumed 257 (Suspended (0, -1))) ∧
    ∀ k, (k ≤ 256)%nat →
      resumed k (Suspended (0, -1)) ≠ resumed 257 (Suspended (0, -1)).
Proof.
  eexists. split; [by vm_compute|]. split_and!; [done..|].
  intros k Hk. rewrite !toy_resumed. intros [= Heq]. lia.
Qed.

(** C7, witness: a field that succeeds, then an essential field that
    fails. *)
Lemma C7_witness :
  ∃ out, run (grid [0]) ip0 with_fields = Some out ∧
         computed out = [(0%nat, true); (1%nat, false)] ∧
         returned out = FAIL.
Proof.
  eexists. split; [by vm_compute|]. split; [done|].
  eapply (proj1 (proj2 (C7_fields (grid [0]) ip0 with_fields _ _))
            1%nat _ (false, true, false)).
  - right. left.
  - done.
  - done.
  - done.
  Unshelve. by vm_compute.
Defined.

(** C8, witness: a search that gives up at once. *)
Lemma C8_witness :
  ∃ out, run (grid [0]) ip0 searching_in_vain = Some out ∧
         returned out = FAIL ∧ futureComputed (node out) = false ∧
         searchTries (node out) = searchTries searching_in_vain + 1 ∧
         searching (node out) = None.
Proof.
  eapply (proj1 (C8_search_exhausted (grid [0]) ip0 searching_in_vain)).
  - by vm_compute.
  - by vm_compute.
  - by vm_compute.
  - by vm_compute.
  - vm_compute. reflexivity.
  - vm_compute. reflexivity.
  - reflexivity.
Defined.

(** C9, witness: the incremental rescan after the edit. *)
Lemma C9_witness :
  lastMatchedTurn scanned_turn >= 0 ∧
  ∃ out, run row_after ip_edit scanned_turn = Some out ∧
         mask_agrees row_after (node out).
Proof.
  split; [by vm_compute|].
  destruct (run row_after ip_edit scanned_turn) as [out|] eqn:Hrun;
    [|by vm_compute in Hrun].
  exists out. split; [done|].
  destruct (C9_mask_and_matches row_after ip_edit scanned_turn out)
    as [Hincremental _].
  - apply row_after_ok.
  - apply rule_BW_ok.
  - apply ip_edit_ok.
  - by vm_compute.
  - apply scanned_turn_ok.
  - exact Hrun.
  - apply Hincremental. by vm_compute.
Defined.

(** C9, counterexample: the node scanned [B W W] in full, the row became
    [B B W], the node was [reset].  The link holds before the call of
    [run]; the call returns SUCCESS with the bit of cell 0 set and no match
    listed at cell 0. *)
Lemma C9_counterexample :
  scan_grid row_before (blank [rule_BW] 3) = Some scanned ∧
  mask_agrees row_after (reset scanned) ∧
  ∃ out, run row_after ip_edit (reset scanned) = Some out ∧
         returned out = SUCCESS ∧
         matchMask (node out) = Some [[true; true; false]] ∧
         match_list (node out) = [(0, 1, 0, 0)] ∧
         ¬ mask_agrees row_after (node out).
Proof.
  split; [apply scanned_spec|]. split.
  { pose proof scanned_turn_ok as (_ & _ & Hagree & _). exact Hagree. }
  eexists. split; [by vm_compute|]. split; [done|].
  split; [by vm_compute|]. split; [by vm_compute|].
  intros (m & Hm & Hbits). vm_compute in Hm. injection Hm as <-.
  destruct (proj1 (Hbits 0 0) eq_refl) as (q & Hq & _ & Hi).
  apply list_elem_of_singleton in Hq as ->. by vm_compute in Hi.
Qed.

(** C10, witness: [search="true"] and [search="True"]. *)
Lemma C10_witness :
  search (loaded (one_search "true")) = false ∧
  is_Some (potentials (loaded (one_search "true"))) ∧
  search (loaded (one_search "True")) = true.
Proof.
  destruct (@C10_search_attribute collaborators
              (one_search "true") tt (grid [0])
              (blank [] 1) (loaded (one_search "true")))
    as [_ Hother]; [by vm_compute..|].
  destruct Hother as (Hs & obs & pots & _ & Hp & _); [done|].
  split; [done|]. split; [by exists pots|].
  apply (@C10_search_attribute collaborators
           (one_search "True") tt (grid [0])
           (blank [] 1) (loaded (one_search "True")));
    by vm_compute.
Defined.

(** ** The further properties on the small instance *)

(** X1, witness: a second match is added to the buffer of eight numbers
    that holds one; the buffer grows to 24. *)
Lemma X1_witness :
  buffer_ok scanned ∧
  ∃ n', add row_after 0 1 0 0 (Some 0) scanned = Some n' ∧
    matchCount n' = 2 ∧ quad_at (matches n') 1 = (0, 1, 0, 0) ∧
    Z.of_nat (length (matches n')) = 24.
Proof.
  assert (buffer_ok scanned) as Hok by apply scanned_spec.
  split; [exact Hok|].
  destruct (X1_add_buffer row_after 0 1 0 0 0 scanned Hok)
    as (n' & Hadd & Hcount & Hquad & Hlen & _).
  exists n'. split; [exact Hadd|]. split; [exact Hcount|].
  split; [exact Hquad|]. exact Hlen.
Defined.

(** X2, witness: the incremental rescan after the edit of [B W W] to
    [B B W]. *)
Lemma X2_witness :
  lastMatchedTurn scanned_turn >= 0 ∧
  ∃ n' added,
    refresh_matches row_after ip_edit scanned_turn = Some n' ∧
    match_list n' = match_list scanned_turn ++ added ∧
    NoDup added ∧
    ∀ q, q ∈ added →
      is_match row_after (rules scanned_turn) q ∧
      q ∉ match_list scanned_turn.
Proof.
  split; [by vm_compute|].
  apply (X2_incremental_appends row_after ip_edit scanned_turn).
  - apply row_after_ok.
  - apply rule_BW_ok.
  - apply ip_edit_ok.
  - by vm_compute.
  - apply scanned_turn_ok.
  - by vm_compute.
Defined.

(** X3, witness: the node that scanned [B W W], run again on the same row
    with an empty change log. *)
Lemma X3_witness :
  run row_before ip0 scanned_turn =
    Some (Build_Outcome SUCCESS
            (set_last (JS.fill0 (last scanned_turn)) scanned_turn) ip0 []).
Proof.
  apply (X3_nothing_changed row_before ip0 scanned_turn).
  - by vm_compute.
  - by left.
  - done.
  - by vm_compute.
  - intros start Hstart. vm_compute in Hstart.
    injection Hstart as <-. done.
Defined.

(** X4, witness: the run after the edit. *)
Lemma X4_witness :
  ∃ out, run row_after ip_edit scanned_turn = Some out ∧
    counter (node out) = counter scanned_turn ∧
    lastMatchedTurn (node out) = lastMatchedTurn scanned_turn ∧
    last (node out) = JS.fill0 (last scanned_turn) ∧
    changes (interpreter out) = changes ip_edit.
Proof.
  destruct (run row_after ip_edit scanned_turn) as [out|] eqn:Hrun;
    [|by vm_compute in Hrun].
  exists out. split; [done|].
  destruct (X4_run_frame row_after ip_edit scanned_turn out Hrun)
    as ((_ & Hcounter & _ & Hturn) & _ & Hlast & _ & Hchanges).
  split; [exact Hcounter|]. split; [exact Hturn|].
  split; [exact Hlast|]. exact Hchanges.
Defined.

(** X5, witness: a search that starts draws its seed. *)
Lemma X5_witness :
  ∃ out, run (grid [0]) ip0 searching_in_vain = Some out ∧
    (rng (interpreter out) = rng ip0 ∨
     rng (interpreter out) = (int32 (rng ip0)).2 ∧
     search searching_in_vain = true ∧
     is_Some (observations searching_in_vain) ∧
     futureComputed searching_in_vain = false ∧
     searching searching_in_vain = None ∧
     step_limit_reached searching_in_vain = false).
Proof.
  destruct (run (grid [0]) ip0 searching_in_vain) as [out|] eqn:Hrun;
    [|by vm_compute in Hrun].
  exists out. split; [done|].
  exact (X5_run_draws_once (grid [0]) ip0 searching_in_vain out Hrun).
Defined.

(** X6, witness: a coroutine that returns its trajectory at the second
    resumption. *)
Lemma X6_witness :
  ∃ out,
    @run ToySearch.collaborators (grid [0]) ip0 ToySearch.searching_on =
      Some out ∧
    futureComputed (node out) = true ∧ searching (node out) = None ∧
    trajectory (node out) = Some [[0]] ∧
    searchTries (node out) = searchTries ToySearch.searching_on.
Proof.
  destruct (@run ToySearch.collaborators (grid [0]) ip0
              ToySearch.searching_on) as [out|] eqn:Hrun;
    [|by vm_compute in Hrun].
  exists out. split; [done|].
  destruct (@X6_search_found ToySearch.collaborators (grid [0]) ip0
              ToySearch.searching_on [Some tt; None]
              (@Suspended ToySearch.collaborators (0, -1))
              (@Completed ToySearch.collaborators) (Some [[0]]) [[0]])
    as [_ Hout].
  - by vm_compute.
  - done.
  - done.
  - done.
  - done.
  - by vm_compute.
  - done.
  - destruct (Hout out Hrun) as (Hf & Hs & Ht & Htries & _).
    split; [exact Hf|]. split; [exact Hs|]. split; [exact Ht|]. exact Htries.
Defined.

(** X7, witness: the same coroutine, one resumption from its
    trajectory. *)
Lemma X7_witness :
  ∃ out,
    @run ToySearch.collaborators (grid [0]) ip0 ToySearch.found_at_once =
      Some out ∧
    returned out = FAIL ∧ trajectory (node out) = None ∧
    futureComputed (node out) = false ∧ searching (node out) = None ∧
    searchTries (node out) = searchTries ToySearch.found_at_once + 1.
Proof.
  apply (@X7_first_result_dropped ToySearch.collaborators (grid [0]) ip0
           ToySearch.found_at_once [Some tt; None] (1, -1) (Some [[0]])).
  - done.
  - by vm_compute.
  - done.
  - done.
  - done.
  - done.
  - by vm_compute.
Defined.

(** X8, witness: a field that does not ask to be recomputed, at the
    second step. *)
Lemma X8_witness :
  run_fields (grid [0]) ToyNodes.idle_fields =
    Some (Continue, ToyNodes.idle_fields, []) ∧
  ∀ ip out, run (grid [0]) ip ToyNodes.idle_fields = Some out →
            computed out = [].
Proof.
  apply (X8_fields_idle (grid [0]) ToyNodes.idle_fields
           [Some (false : bool, true : bool, true : bool); None]).
  - done.
  - done.
  - intros f Hf. apply elem_of_cons in Hf as [[= ->]|Hf]; [done|].
    apply elem_of_cons in Hf as [Hf|Hf]; [done|].
    by apply elem_of_nil in Hf.
Defined.

(** X10, witness: an element of unknown symmetry. *)
Lemma X10_witness :
  ∃ r, @load collaborators ToyNodes.unknown_symmetry tt (grid [0])
         (blank [] 1) = Some (r, blank [] 1) ∧
       r ≠ LoadTrue.
Proof.
  destruct (@load collaborators ToyNodes.unknown_symmetry tt (grid [0])
              (blank [] 1)) as [[r n']|] eqn:Hload;
    [|by vm_compute in Hload].
  assert (r ≠ LoadTrue) as Hr.
  { intros ->. by vm_compute in Hload. }
  exists r. split; [|exact Hr].
  by rewrite (@X10_load_failure collaborators ToyNodes.unknown_symmetry tt
                (grid [0]) (blank [] 1) n' r Hload Hr).
Defined.

(** X11, witness: an element with two [rule] children. *)
Lemma X11_witness :
  ∃ n', @load collaborators ToyNodes.two_rules tt (grid [0]) (blank [] 1) =
          Some (LoadTrue, n') ∧
    rules n' = [set_original true rule_B; set_original true rule_B] ∧
    last n' = [0; 0].
Proof.
  destruct (@load collaborators ToyNodes.two_rules tt (grid [0])
              (blank [] 1)) as [[r n']|] eqn:Hload;
    [|by vm_compute in Hload].
  assert (r = LoadTrue) as ->.
  { vm_compute in Hload. by injection Hload as <- _. }
  exists n'. split; [done|].
  destruct (@X11_load_rules collaborators ToyNodes.two_rules tt (grid [0])
              (blank [] 1) n' Hload)
    as (symmetry & variants & _ & Hv & Hrules & Hlast).
  vm_compute in Hv. injection Hv as <-.
  split; [exact Hrules|]. rewrite Hlast, Hrules. done.
Defined.

(** X12, witness: an element with an [observe] child. *)
Lemma X12_witness :
  ∃ n', @load collaborators (one_search "true") tt (grid [0])
          (blank [] 1) = Some (LoadTrue, n') ∧
    future n' = [0] ∧ fields n' = None ∧ is_Some (observations n').
Proof.
  destruct (@load collaborators (one_search "true") tt (grid [0])
              (blank [] 1)) as [[r n']|] eqn:Hload;
    [|by vm_compute in Hload].
  assert (r = LoadTrue) as ->.
  { vm_compute in Hload. by injection Hload as <- _. }
  exists n'. split; [done|].
  destruct (@X12_load_buffers collaborators (one_search "true") tt
              (grid [0]) (blank [] 1) n' Hload)
    as (_ & Hfields & Hobserve & _).
  destruct Hobserve as (Hfuture & (obs & Hobs & _) & _); [by vm_compute|].
  split; [exact Hfuture|]. split; [by apply Hfields|].
  rewrite Hobs. by eexists.
Defined.

(** X13, witness: two [color] elements for the symbol [B]; the palette
    has the colour of the second. *)
Lemma X13_witness :
  ∃ palette,
    @Program.loadPalette collaborators ToyHost.host ToyHost.colors =
      Some palette ∧
    palette !! "B"%string = Some "1D2B53"%string.
Proof.
  destruct (@X13_palette_last_wins collaborators ToyHost.host ToyHost.colors)
    as [Hloads Hlast].
  destruct (proj2 Hloads) as [palette Hpalette].
  { apply (bool_decide_unpack _). by vm_compute. }
  exists palette. split; [exact Hpalette|].
  apply (Hlast palette "B"%string "1D2B53"%string Hpalette).
  exists [ToyHost.element ToyHost.black], (ToyHost.element ToyHost.navy), [].
  split; [reflexivity|]. split; [reflexivity|].
  by apply Forall_nil.
Defined.

(** X16, witness: the models [A] and [B]. *)
Lemma X16_witness :
  @Program.listModels collaborators ToyHost.host
    (ToyHost.models [ToyHost.model_A; ToyHost.model_B]) =
  Some {[ "A"%string := ToyHost.element ToyHost.model_A;
          "B"%string := ToyHost.element ToyHost.model_B ]}.
Proof.
  rewrite (@X16_list_models_distinct collaborators ToyHost.host
             (ToyHost.models [ToyHost.model_A; ToyHost.model_B])).
  - reflexivity.
  - apply (bool_decide_unpack _). by vm_compute.
Defined.

(** X20, witness: the first node of the model is made a breakpoint. *)
Lemma X20_witness :
  Model.breakpoints_ok (ToyHost.model 1 5 ∅) ∧
  Model.breakpoints_ok (Model.toggleBreakpoint 0 (ToyHost.model 1 5 ∅)) ∧
  Model.toggleBreakpoint 0 (Model.toggleBreakpoint 0 (ToyHost.model 1 5 ∅)) =
    ToyHost.model 1 5 ∅.
Proof.
  assert (Model.breakpoints_ok (ToyHost.model 1 5 ∅)) as Hok.
  { split.
    - apply (bool_decide_unpack _). by vm_compute.
    - intros v. split; [by intros ?%elem_of_empty|].
      intros (node & Hnode & _ & Hflag). cbn in Hnode.
      repeat (apply elem_of_cons in Hnode as [->|Hnode]; [done|]).
      by apply elem_of_nil in Hnode. }
  split; [exact Hok|].
  destruct (@X20_toggle_breakpoint collaborators ToyHost.host 0
              (ToyHost.model 1 5 ∅) Hok) as (Hok' & Hback & _).
  split; [exact Hok'|exact Hback].
Defined.

(** X22, witness: the model [A] is found after the model [B]. *)
Lemma X22_witness :
  ∃ i, @Main.models collaborators ToyHost.host "A"
         [ToyHost.element ToyHost.model_B; ToyHost.element ToyHost.model_A]
         [] =
       (["models/A.xml"%string], Some (ToyHost.element ToyHost.model_A, i)) ∧
    @Interpreter_load collaborators ToyHost.host
      {| tag := "sequence"; attrs := []; kids := [] |} 3 3 1 = Some i.
Proof.
  destruct (@Main.models collaborators ToyHost.host "A"
              [ToyHost.element ToyHost.model_B;
               ToyHost.element ToyHost.model_A] [])
    as [fetched result] eqn:Hmodels.
  pose proof (@X22_models collaborators ToyHost.host "A" _ _ _ _ Hmodels)
    as Hspec.
  vm_compute in Hmodels. injection Hmodels as <- <-.
  destruct Hspec as [_ (before & after & _ & (_ & mdoc & Hdoc & Hload) & _)].
  vm_compute in Hdoc. injection Hdoc as <-.
  eexists. split; [reflexivity|]. exact Hload.
Defined.


(** X24, witness: a model of speed 2 is started; the run is resumed at
    least once and at most three times. *)
Lemma X24_witness :
  ∃ m' k rest,
    Model.loop false true (ToyHost.model 2 5 ∅) = Some m' ∧
    Model.effects m' = replicate k Model.Next ++ rest ∧
    Forall (λ e, e ≠ Model.Next) rest ∧ (1 ≤ k ≤ 3)%nat.
Proof.
  assert (is_Some (Model.loop false true (ToyHost.model 2 5 ∅)))
    as [m' Hloop].
  { apply (bool_decide_unpack _). vm_compute. exact I. }
  destruct (@X24_loop_resumptions collaborators ToyHost.host false true
              (ToyHost.model 2 5 ∅) m' Hloop)
    as (k & rest & Heffects & Hrest & Hk & _ & Hzero).
  exists m', k, rest. split; [exact Hloop|]. split; [exact Heffects|].
  split; [exact Hrest|]. split; [|exact Hk].
  destruct k; [|lia]. destruct (proj1 Hzero eq_refl) as [?|[_ ?]]; done.
Defined.

(** X25, witness: the same call leaves one animation frame behind. *)
Lemma X25_witness :
  ∃ m' new,
    Model.loop false true (ToyHost.model 2 5 ∅) = Some m' ∧
    Model.effects m' = Model.effects (ToyHost.model 2 5 ∅) ++ new ∧
    filter (λ e, Model.is_callback e = true) new =
      [Model.RequestAnimationFrame].
Proof.
  assert (Model.running <$> Model.loop false true (ToyHost.model 2 5 ∅) =
          Some true) as Hrunning by (by vm_compute).
  destruct (Model.loop false true (ToyHost.model 2 5 ∅)) as [m'|] eqn:Hloop;
    [|done].
  injection Hrunning as Hrunning.
  destruct (@X25_loop_callback collaborators ToyHost.host false true
              (ToyHost.model 2 5 ∅) m' Hloop) as (new & Heffects & Hnew).
  exists m', new. split; [done|]. split; [exact Heffects|].
  rewrite Hnew, Hrunning. reflexivity.
Defined.

(** X26, witness: a run with no step left ends. *)
Lemma X26_witness :
  ∃ m' earlier p t,
    Model.loop false true (ToyHost.under_way 2 0 ∅) = Some m' ∧
    Model._curr m' = None ∧
    Model.effects m' =
      Model.effects (ToyHost.under_way 2 0 ∅) ++
        earlier ++ [Model.Render p; Model.Log t] ∧
    Model.rendered m' = Model.rendered (ToyHost.under_way 2 0 ∅) + 1.
Proof.
  assert (Model.running <$> Model.loop false true (ToyHost.under_way 2 0 ∅) =
          Some false) as Hrunning by (by vm_compute).
  destruct (Model.loop false true (ToyHost.under_way 2 0 ∅))
    as [m'|] eqn:Hloop; [|done].
  injection Hrunning as Hrunning.
  assert (Model._curr m' = None) as Hover.
  { unfold Model.running in Hrunning. by destruct (Model._curr m'). }
  destruct (@X26_loop_completion collaborators ToyHost.host false true
              (ToyHost.under_way 2 0 ∅) m' Hloop) as [_ Hend].
  destruct Hend as (earlier & p & t & Heffects & _ & Hrendered & _);
    [by eexists|exact Hover|].
  exists m', earlier, p, t. split; [done|]. split; [exact Hover|].
  split; [exact Heffects|exact Hrendered].
Defined.
